(** * Tracked-change validation of Word documents: model and properties

    Sources modelled:
    - [src/pptx/ooxml/scripts/validation/redlining.py]
      ([RedliningValidator]: [validate], [_remove_claude_tracked_changes],
      [_extract_text_content]);
    - [src/docx/ooxml/scripts/validation/docx.py]
      ([DOCXSchemaValidator]: [validate], [validate_whitespace_preservation],
      [validate_deletions], [compare_paragraph_counts]);
    - [src/pptx/scripts/inventory.py]
      ([is_valid_shape], [collect_shapes_with_absolute_positions],
      [ShapeData], [sort_shapes_by_position], [extract_text_inventory]).

    An XML document is an ordered tree of elements.  The redlining validator
    edits the parsed tree in place; that part is modelled twice: once on a
    store of element objects (module [Heap], the literal reading of the
    Python loops, including iteration over child lists that are being
    edited), and once as functions on trees (module [Redlining]); lemma
    [Refinement.run_resolve] shows that the two agree on every parsed
    document. *)

From Stdlib Require Import Ascii ZArith Floats.
From stdpp Require Import base option list gmap strings pretty sorting.

Open Scope string_scope.
Open Scope list_scope.
Open Scope nat_scope.
Set Warnings "-register-all,-clear-no-such-hyp,-inexact-float".

(** ** Elements *)

(** An element as [xml.etree.ElementTree] and [lxml.etree] present it: a
    qualified tag, an attribute dictionary, the text before the first child,
    the text after the end tag, and the ordered children. *)
Inductive Element : Type :=
  Elem { tag : string;
         attrib : gmap string string;
         text : option string;
         tail : option string;
         children : list Element }.

Section Element_induction.
Variable P : Element → Prop.
Hypothesis step : ∀ tg att tx tl cs, Forall P cs → P (Elem tg att tx tl cs).

Fixpoint Element_ind' (e : Element) : P e :=
  match e with
  | Elem tg att tx tl cs =>
      step tg att tx tl cs
        ((fix go (l : list Element) : Forall P l :=
            match l with
            | [] => Forall_nil_2 P
            | c :: l' => Forall_cons_2 P c l' (Element_ind' c) (go l')
            end) cs)
  end.
End Element_induction.

(** Number of nodes of a tree; used for induction that reaches below the
    direct children. *)
Fixpoint size (e : Element) : nat :=
  S (list_sum (map size (children e))).

Definition forest_size (l : list Element) : nat := list_sum (map size l).

(** [Element.iter()] without a tag: the element and its descendants in
    document order. [descendants] leaves the element itself out, as the
    path [.//x] does. *)
Fixpoint descendants (e : Element) : list Element :=
  flat_map (fun c => c :: descendants c) (children e).

Definition iter (e : Element) : list Element := e :: descendants e.

(** [root.findall(".//{ns}name")]: the descendants with that tag. *)
Definition findall (tg : string) (e : Element) : list Element :=
  filter (fun x => tag x = tg) (descendants e).

(** Python truth value of [elem.text]: present and not empty. *)
Definition truthy (tx : option string) : bool :=
  match tx with
  | Some s => negb (bool_decide (s = ""))
  | None => false
  end.

(** ** Names *)

Definition WORD_2006_NAMESPACE : string :=
  "http://schemas.openxmlformats.org/wordprocessingml/2006/main".

Definition qname (ns name : string) : string := "{" +:+ ns +:+ "}" +:+ name.

Definition ins_tag : string := qname WORD_2006_NAMESPACE "ins".
Definition del_tag : string := qname WORD_2006_NAMESPACE "del".
Definition deltext_tag : string := qname WORD_2006_NAMESPACE "delText".
Definition t_tag : string := qname WORD_2006_NAMESPACE "t".
Definition p_tag : string := qname WORD_2006_NAMESPACE "p".
Definition author_attr : string := qname WORD_2006_NAMESPACE "author".

(** The only author the validator resolves. *)
Definition Claude : string := "Claude".

Definition newline : string := String (ascii_of_nat 10) EmptyString.

(** ** The redlining validator, as functions on trees *)

Module Redlining.

(** [elem.get(author_attr) == "Claude"]: a missing attribute is not Claude's. *)
Definition by_Claude (att : gmap string string) : bool :=
  bool_decide (att !! author_attr = Some Claude).

Definition is_claude_ins (e : Element) : bool :=
  bool_decide (tag e = ins_tag) && by_Claude (attrib e).

Definition is_claude_del (e : Element) : bool :=
  bool_decide (tag e = del_tag) && by_Claude (attrib e).

(** First loop of [_remove_claude_tracked_changes]: every element reached by
    [root.iter()] drops those of its children that are insertions by Claude;
    the iteration then goes on into the children that are left. *)
Fixpoint remove_ins (e : Element) : Element :=
  match e with
  | Elem tg att tx tl cs =>
      Elem tg att tx tl
        (flat_map (fun c => if is_claude_ins c then [] else [remove_ins c]) cs)
  end.

(** [elem.tag = t_tag] for every [w:delText] reached by [del_elem.iter()]. *)
Definition retag_name (tg : string) : string :=
  if bool_decide (tg = deltext_tag) then t_tag else tg.

Fixpoint retag (e : Element) : Element :=
  match e with
  | Elem tg att tx tl cs => Elem (retag_name tg) att tx tl (map retag cs)
  end.

(** Second loop: every element reached by [root.iter()] replaces each child
    that is a deletion by Claude with that deletion's children, whose
    [w:delText] descendants have been renamed to [w:t]; the iteration then
    goes on into the new child list.  [inside] tells that the element was
    itself moved out of such a deletion, so that its own subtree has been
    renamed already: [unwrap_dels true e] is the second loop run on
    [retag e]. *)
Fixpoint unwrap_dels (inside : bool) (e : Element) : Element :=
  match e with
  | Elem tg att tx tl cs =>
      Elem (if inside then retag_name tg else tg) att tx tl
        (flat_map (fun c =>
                     if is_claude_del c
                     then map (unwrap_dels true) (children c)
                     else [unwrap_dels inside c]) cs)
  end.

(** The tree that [_remove_claude_tracked_changes(root)] leaves behind. *)
Definition resolve (root : Element) : Element :=
  unwrap_dels false (remove_ins root).

(** [_extract_text_content]: for every [w:p] below the root, the texts of
    the [w:t] below it, concatenated; paragraphs joined by a line feed. *)
Definition text_parts (p_elem : Element) : list string :=
  omap (fun t_elem => if truthy (text t_elem) then text t_elem else None)
       (findall t_tag p_elem).

Definition paragraph_text (p_elem : Element) : string :=
  String.concat "" (text_parts p_elem).

Definition paragraphs (root : Element) : list string :=
  map paragraph_text (findall p_tag root).

Definition _extract_text_content (root : Element) : string :=
  String.concat newline (paragraphs root).

End Redlining.

(** ** The redlining validator on a store of element objects *)

Module Heap.

(** An element object; its children are references to other objects. *)
Record Obj : Type :=
  MkObj { o_tag : string;
          o_attrib : gmap string string;
          o_text : option string;
          o_tail : option string;
          o_children : list nat }.

(** The store: object [a] is the entry at index [a]. *)
Abbreviation Store := (list Obj).

Definition children_of (s : Store) (a : nat) : list nat :=
  match s !! a with
  | Some o => o_children o
  | None => []
  end.

Definition set_children (s : Store) (a : nat) (l : list nat) : Store :=
  match s !! a with
  | Some o => <[a := MkObj (o_tag o) (o_attrib o) (o_text o) (o_tail o) l]> s
  | None => s
  end.

Definition set_tag (s : Store) (a : nat) (tg : string) : Store :=
  match s !! a with
  | Some o => <[a := MkObj tg (o_attrib o) (o_text o) (o_tail o) (o_children o)]> s
  | None => s
  end.

(** Python's [list.remove], [list.insert] and [list.index] on a list of
    references: first occurrence; [insert] past the end appends. *)
Fixpoint list_remove (x : nat) (l : list nat) : list nat :=
  match l with
  | [] => []
  | y :: l' => if bool_decide (y = x) then l' else y :: list_remove x l'
  end.

Definition list_insert_at (i x : nat) (l : list nat) : list nat :=
  take i l ++ x :: drop i l.

Fixpoint list_index (x : nat) (l : list nat) : nat :=
  match l with
  | [] => 0
  | y :: l' => if bool_decide (y = x) then 0 else S (list_index x l')
  end.

(** [parent.remove(elem)] and [parent.insert(index, child)]. *)
Definition remove_child (s : Store) (parent elem : nat) : Store :=
  set_children s parent (list_remove elem (children_of s parent)).

Definition insert_child (s : Store) (parent index child : nat) : Store :=
  set_children s parent (list_insert_at index child (children_of s parent)).

(** [for parent in root.iter(): body]: the generator yields an element, the
    body runs, and only then does the generator walk the element's child
    list, reading it from the store by position at every step.  [d] bounds
    the depth of the walk and [k] the length of one child list; [None] means
    that a bound was hit. *)
Section Iteration.
Variable body : Store → nat → option Store.

Fixpoint for_children (visit : Store → nat → option Store)
    (k : nat) (s : Store) (a i : nat) : option Store :=
  match k with
  | 0 => None
  | S k' =>
      match children_of s a !! i with
      | None => Some s
      | Some c => s' ← visit s c; for_children visit k' s' a (S i)
      end
  end.

Fixpoint for_iter (d : nat) (s : Store) (a : nat) : option Store :=
  match d with
  | 0 => None
  | S d' =>
      s1 ← body s a;
      for_children (for_iter d') (S (length (children_of s1 a))) s1 a 0
  end.
End Iteration.

Definition has_tag_by_Claude (tg : string) (s : Store) (a : nat) : bool :=
  match s !! a with
  | Some o => bool_decide (o_tag o = tg) && Redlining.by_Claude (o_attrib o)
  | None => false
  end.

(** Body of the first loop. *)
Definition remove_ins_body (s : Store) (parent : nat) : option Store :=
  let to_remove :=
    filter (fun child => has_tag_by_Claude ins_tag s child = true)
           (children_of s parent) in
  Some (foldl (fun s elem => remove_child s parent elem) s to_remove).

(** Body of the loop over [del_elem.iter()]. *)
Definition retag_body (s : Store) (elem : nat) : option Store :=
  match s !! elem with
  | Some o =>
      Some (if bool_decide (o_tag o = deltext_tag) then set_tag s elem t_tag else s)
  | None => Some s
  end.

(** Body of the second loop.  [to_process] is built before anything is
    changed; [reversed(to_process)] handles the last entry first, which is
    the order in which [foldr] applies its steps. *)
Definition unwrap_one (d : nat) (parent : nat) (entry : nat * nat)
    (s : Store) : option Store :=
  let '(del_elem, del_index) := entry in
  s1 ← for_iter retag_body d s del_elem;
  let s2 := foldl (fun s child => insert_child s parent del_index child)
                  s1 (reverse (children_of s1 del_elem)) in
  Some (remove_child s2 parent del_elem).

Definition unwrap_body (d : nat) (s : Store) (parent : nat) : option Store :=
  let kids := children_of s parent in
  let to_process :=
    omap (fun child =>
            if has_tag_by_Claude del_tag s child
            then Some (child, list_index child kids) else None) kids in
  foldr (fun entry acc => s' ← acc; unwrap_one d parent entry s')
        (Some s) to_process.

(** [_remove_claude_tracked_changes(root)]: it returns nothing; its result
    is the store it leaves. *)
Definition _remove_claude_tracked_changes (s : Store) (root : nat) : option Store :=
  s1 ← for_iter remove_ins_body (length s) s root;
  for_iter (unwrap_body (length s)) (length s) s1 root.

(** [ET.parse]: the objects of a document, the root first and every subtree
    in one block; [load_at a e] is the block that starts at address [a]. *)
Fixpoint load_at (a : nat) (e : Element) : list Obj :=
  match e with
  | Elem tg att tx tl cs =>
      let blocks :=
        (fix go (a : nat) (l : list Element) : list nat * list Obj :=
           match l with
           | [] => ([], [])
           | c :: l' =>
               let b := load_at a c in
               let r := go (a + length b) l' in
               (a :: r.1, b ++ r.2)
           end) (S a) cs in
      MkObj tg att tx tl blocks.1 :: blocks.2
  end.

Definition load (e : Element) : Store := load_at 0 e.

(** Reading the tree below an object back out of the store. *)
Fixpoint snapshot (d : nat) (s : Store) (a : nat) : option Element :=
  match d with
  | 0 => None
  | S d' =>
      o ← s !! a;
      cs ← mapM (snapshot d' s) (o_children o);
      Some (Elem (o_tag o) (o_attrib o) (o_text o) (o_tail o) cs)
  end.

(** Parse a document, run the resolver on its root, read the root back. *)
Definition run (e : Element) : option Element :=
  s ← _remove_claude_tracked_changes (load e) 0;
  snapshot (length s) s 0.

End Heap.

(** ** [RedliningValidator.validate] *)

(** What a file holds for an XML parser: text it rejects, or a document. *)
Inductive XmlFile : Type :=
  | Malformed
  | WellFormed (root : Element).

(** The original [.docx]: not a readable zip archive, or an archive that may
    hold [word/document.xml]. *)
Inductive Docx : Type :=
  | BadZip
  | Archive (document_xml : option XmlFile).

Module RedliningValidator.

(** [unpacked_dir/word/document.xml] ([None]: no such file) and
    [original_docx]. *)
Record Files : Type :=
  MkFiles { modified_file : option XmlFile;
            original_docx : Docx }.

(** The ways [validate] ends; each stands for the message printed and the
    value returned.  [Failed_mismatch] carries the two texts whose unified
    diff is printed. *)
Inductive Outcome : Type :=
  | Failed_modified_missing
  | Passed_no_tracked_changes
  | Failed_unpack
  | Failed_original_missing
  | Failed_parse
  | Failed_mismatch (original_text modified_text : string)
  | Passed_all_tracked.

Definition returns (o : Outcome) : bool :=
  match o with
  | Passed_no_tracked_changes | Passed_all_tracked => true
  | _ => false
  end.

(** [claude_del_elements] and [claude_ins_elements]. *)
Definition claude_del_elements (root : Element) : list Element :=
  filter (fun elem => Redlining.by_Claude (attrib elem) = true) (findall del_tag root).

Definition claude_ins_elements (root : Element) : list Element :=
  filter (fun elem => Redlining.by_Claude (attrib elem) = true) (findall ins_tag root).

Definition no_claude_changes (root : Element) : bool :=
  bool_decide (claude_del_elements root = []) &&
  bool_decide (claude_ins_elements root = []).

(** The comparison once both documents are parsed: both trees are resolved
    in place, then their texts are compared. *)
Definition compare (original_root modified_root : Element) : option Outcome :=
  original' ← Heap.run original_root;
  modified' ← Heap.run modified_root;
  let modified_text := Redlining._extract_text_content modified' in
  let original_text := Redlining._extract_text_content original' in
  Some (if bool_decide (modified_text = original_text)
        then Passed_all_tracked
        else Failed_mismatch original_text modified_text).

(** [validate].  A modified file that does not parse is no reason to stop
    in the first block (its exception is swallowed); the second parse then
    fails.  [None] is not an outcome of the program: it says that a bound of
    the store model was hit. *)
Definition validate (f : Files) : option Outcome :=
  match modified_file f with
  | None => Some Failed_modified_missing
  | Some modified =>
      let nothing_to_check :=
        match modified with
        | WellFormed root => no_claude_changes root
        | Malformed => false
        end in
      if nothing_to_check then Some Passed_no_tracked_changes
      else
        match original_docx f with
        | BadZip => Some Failed_unpack
        | Archive None => Some Failed_original_missing
        | Archive (Some original) =>
            match modified, original with
            | WellFormed modified_root, WellFormed original_root =>
                compare original_root modified_root
            | _, _ => Some Failed_parse
            end
        end
  end.

End RedliningValidator.

(** ** [DOCXSchemaValidator] *)

Module DOCXSchemaValidator.

(** A file of the unpacked package: its path below the package directory,
    its name (the last component of the path) and what it holds. *)
Record PackageFile : Type :=
  MkFile { path : string; name : string; content : XmlFile }.

(** What a check reports: a violation found in a [w:t] element, or the
    failure to read a file. *)
Inductive Error : Type :=
  | Violation (file : string) (elem_text : string)
  | ReadError (file : string).

(** *** Whitespace *)

(** Characters are the code points below 256.  [is_space] is the class
    [\s] of Python's [re] on [str] restricted to them. *)
Definition is_space (c : ascii) : bool :=
  let n := nat_of_ascii c in
  ((9 <=? n) && (n <=? 13)) || ((28 <=? n) && (n <=? 32))
  || (n =? 133) || (n =? 160).

Definition is_newline (c : ascii) : bool := nat_of_ascii c =? 10.

(** [re.match(r"^\s.*", text)]: the first character is white space; [.*]
    may match nothing. *)
Definition match_leading (text : string) : bool :=
  match text with
  | String c _ => is_space c
  | EmptyString => false
  end.

(** Where [$] matches: at the end, or before a line feed that ends the
    string. *)
Definition at_dollar (rest : string) : bool :=
  match rest with
  | EmptyString => true
  | String c EmptyString => is_newline c
  | _ => false
  end.

(** [re.match(r".*\s$", text)]: some characters other than line feeds
    ([.] does not match a line feed), then a white space character, then
    [$]. *)
Fixpoint match_trailing (text : string) : bool :=
  match text with
  | EmptyString => false
  | String c rest =>
      (is_space c && at_dollar rest)
      || (negb (is_newline c) && match_trailing rest)
  end.

(** The boundary test the two patterns stand for: the last character is
    white space. *)
Fixpoint ends_with_space (text : string) : bool :=
  match text with
  | EmptyString => false
  | String c EmptyString => is_space c
  | String _ rest => ends_with_space rest
  end.

(** The text holds no line feed. *)
Fixpoint single_line (text : string) : bool :=
  match text with
  | EmptyString => true
  | String c rest => negb (is_newline c) && single_line rest
  end.

Section Checks.

(** [XML_NAMESPACE] is a constant of the base class, which is not among the
    sources. *)
Variable XML_NAMESPACE : string.

Definition xml_space_attr : string := qname XML_NAMESPACE "space".

(** The condition under which a [w:t] element is reported. *)
Definition lacks_preserve (elem : Element) : bool :=
  negb (bool_decide (attrib elem !! xml_space_attr = Some "preserve")).

Definition whitespace_violation (elem : Element) : bool :=
  match text elem with
  | Some s =>
      negb (bool_decide (s = "")) &&
      (match_leading s || match_trailing s) && lacks_preserve elem
  | None => false
  end.

(** [root.iter(tag)]: the element and its descendants with that tag. *)
Definition iter_tag (tg : string) (root : Element) : list Element :=
  filter (fun x => tag x = tg) (iter root).

Definition report (f : PackageFile) (elems : list Element) : list Error :=
  omap (fun e => Violation (path f) <$> text e) elems.

(** The errors [validate_whitespace_preservation] collects for one file. *)
Definition whitespace_errors (f : PackageFile) : list Error :=
  if bool_decide (name f = "document.xml") then
    match content f with
    | WellFormed root =>
        report f (filter (fun e => whitespace_violation e = true) (iter_tag t_tag root))
    | Malformed => [ReadError (path f)]
    end
  else [].

Definition validate_whitespace_preservation (xml_files : list PackageFile)
    : bool * list Error :=
  let errors := flat_map whitespace_errors xml_files in
  (bool_decide (errors = []), errors).

(** *** Deletions *)

(** [root.xpath(".//w:del//w:t")]: the [w:t] elements that have a [w:del]
    among their ancestors below the context element, each once, in document
    order.  [in_del] tells that such an ancestor has been passed. *)
Fixpoint select_del_t (in_del : bool) (e : Element) : list Element :=
  match e with
  | Elem _ _ _ _ cs =>
      flat_map (fun c =>
                  (if in_del && bool_decide (tag c = t_tag) then [c] else [])
                  ++ select_del_t (in_del || bool_decide (tag c = del_tag)) c) cs
  end.

Definition xpath_del_t (root : Element) : list Element := select_del_t false root.

Definition deletion_errors (f : PackageFile) : list Error :=
  if bool_decide (name f = "document.xml") then
    match content f with
    | WellFormed root =>
        report f (filter (fun t_elem => truthy (text t_elem) = true) (xpath_del_t root))
    | Malformed => [ReadError (path f)]
    end
  else [].

Definition validate_deletions (xml_files : list PackageFile) : bool * list Error :=
  let errors := flat_map deletion_errors xml_files in
  (bool_decide (errors = []), errors).

(** *** Paragraph counts *)

(** [count_paragraphs_in_unpacked]: the count of the last [document.xml]
    that parses; a file that does not parse leaves the count as it is. *)
Definition count_paragraphs_in_unpacked (xml_files : list PackageFile) : nat :=
  foldl (fun count f =>
           if bool_decide (name f = "document.xml") then
             match content f with
             | WellFormed root => length (findall p_tag root)
             | Malformed => count
             end
           else count) 0 xml_files.

(** [count_paragraphs_in_original]: zero when anything fails. *)
Definition count_paragraphs_in_original (original_file : Docx) : nat :=
  match original_file with
  | Archive (Some (WellFormed root)) => length (findall p_tag root)
  | _ => 0
  end.

(** *** The checks as [validate] runs them *)

Inductive Check : Type :=
  | XML_well_formedness
  | Unique_ids
  | File_references
  | Content_types
  | XSD_schema
  | Whitespace_preservation
  | Deletion_validation
  | Relationship_ids.

(** What [validate] leaves on the output: for each check that ran, whether
    it passed and the errors it listed, and the line comparing the
    paragraph counts (original, new, difference). *)
Inductive Event : Type :=
  | Ran (c : Check) (passed : bool) (errors : list Error)
  | Paragraphs (original_count new_count : nat) (diff : Z).

Record Package : Type :=
  MkPackage { xml_files : list PackageFile; original_file : Docx }.

(** The checks of the base class, which is not among the sources: each is
    taken as a function of the package that tells whether the check
    passed. *)
Variable validate_xml : Package → bool.
Variable validate_unique_ids : Package → bool.
Variable validate_file_references : Package → bool.
Variable validate_content_types : Package → bool.
Variable validate_against_xsd : Package → bool.
Variable validate_all_relationship_ids : Package → bool.

Definition compare_paragraph_counts (self : Package) : Event :=
  let original_count := count_paragraphs_in_original (original_file self) in
  let new_count := count_paragraphs_in_unpacked (xml_files self) in
  Paragraphs original_count new_count (Z.of_nat new_count - Z.of_nat original_count).

(** [if not check(): all_valid = False]. *)
Definition unless (passed : bool) (all_valid : bool) : bool :=
  if negb passed then false else all_valid.

(** [validate]: the value returned and the output, in order. *)
Definition validate (self : Package) : bool * list Event :=
  if negb (validate_xml self) then (false, [Ran XML_well_formedness false []])
  else
    let all_valid := true in
    let r1 := validate_unique_ids self in
    let all_valid := unless r1 all_valid in
    let r2 := validate_file_references self in
    let all_valid := unless r2 all_valid in
    let r3 := validate_content_types self in
    let all_valid := unless r3 all_valid in
    let r4 := validate_against_xsd self in
    let all_valid := unless r4 all_valid in
    let r5 := validate_whitespace_preservation (xml_files self) in
    let all_valid := unless r5.1 all_valid in
    let r6 := validate_deletions (xml_files self) in
    let all_valid := unless r6.1 all_valid in
    let r7 := validate_all_relationship_ids self in
    let all_valid := unless r7 all_valid in
    (all_valid,
     [Ran XML_well_formedness true [];
      Ran Unique_ids r1 [];
      Ran File_references r2 [];
      Ran Content_types r3 [];
      Ran XSD_schema r4 [];
      Ran Whitespace_preservation r5.1 r5.2;
      Ran Deletion_validation r6.1 r6.2;
      Ran Relationship_ids r7 [];
      compare_paragraph_counts self]).

(** The outcomes of the eight checks on a package. *)
Definition check_outcomes (self : Package) : list bool :=
  [validate_xml self; validate_unique_ids self; validate_file_references self;
   validate_content_types self; validate_against_xsd self;
   (validate_whitespace_preservation (xml_files self)).1;
   (validate_deletions (xml_files self)).1;
   validate_all_relationship_ids self].

(** The checks that ran, with their outcomes, as the output shows them. *)
Definition checks_run (out : list Event) : list (Check * bool) :=
  omap (fun ev => match ev with
                  | Ran c passed _ => Some (c, passed)
                  | Paragraphs _ _ _ => None
                  end) out.

End Checks.

End DOCXSchemaValidator.

(** ** Edits made through tracked changes only

    The relation between an original document and an edited one that
    differs from it by changes tracked for Claude alone: content added
    inside [w:ins] markers by Claude, and original content wrapped in
    [w:del] markers by Claude, with its text written as [w:delText]. *)

Module TrackedEdits.
Import Redlining.

(** Deleted content as the format writes it: [w:t] becomes [w:delText]. *)
Fixpoint mark_deleted (e : Element) : Element :=
  match e with
  | Elem tg att tx tl cs =>
      Elem (if bool_decide (tg = t_tag) then deltext_tag else tg) att tx tl
           (map mark_deleted cs)
  end.

(** [tracked original edited], on child lists: an element is kept with its
    children edited in turn; an insertion by Claude, with any content, is
    added; a run of original children, edited in turn, is wrapped in a
    deletion by Claude. *)
Inductive tracked : list Element → list Element → Prop :=
  | tracked_nil : tracked [] []
  | tracked_keep tg att tx tl cs cs' l l' :
      tracked cs cs' → tracked l l' →
      tracked (Elem tg att tx tl cs :: l) (Elem tg att tx tl cs' :: l')
  | tracked_ins i l l' :
      is_claude_ins i = true → tracked l l' → tracked l (i :: l')
  | tracked_del d seg seg' l l' :
      is_claude_del d = true → children d = map mark_deleted seg' →
      tracked seg seg' → tracked l l' →
      tracked (seg ++ l) (d :: l').

Definition tracked_doc (original edited : Element) : Prop :=
  tag edited = tag original ∧ attrib edited = attrib original ∧
  tracked (children original) (children edited).

(** The original as it was before Claude touched it: below the root no
    change tracked for Claude and no deleted text. *)
Definition pristine_node (x : Element) : bool :=
  negb (bool_decide (tag x = deltext_tag))
  && negb (is_claude_ins x) && negb (is_claude_del x).

Definition pristine (original : Element) : bool :=
  forallb pristine_node (descendants original).

End TrackedEdits.

(** ** Elements outside the changes tracked for Claude *)

Module Outside.
Import Redlining.

Definition claude_marker (e : Element) : bool :=
  is_claude_ins e || is_claude_del e.

(** [outside root m]: [m] lies below [root], and neither [m] nor any
    element between [root] and [m] is an insertion or a deletion by
    Claude. *)
Inductive outside (root : Element) : Element → Prop :=
  | outside_child m :
      m ∈ children root → claude_marker m = false → outside root m
  | outside_below c m :
      c ∈ children root → claude_marker c = false → outside c m → outside root m.

(** A tracked change attributed to someone else, or to nobody. *)
Definition other_marker (e : Element) : bool :=
  (bool_decide (tag e = ins_tag) || bool_decide (tag e = del_tag))
  && negb (by_Claude (attrib e)).

End Outside.

(** ** Sample documents *)

Module Sample.

Definition w (name : string) : string := qname WORD_2006_NAMESPACE name.

Definition node (name : string) (cs : list Element) : Element :=
  Elem (w name) ∅ None None cs.

Definition change (name author : string) (cs : list Element) : Element :=
  Elem (w name) {[ author_attr := author ]} None None cs.

Definition leaf (name : string) (s : option string) : Element :=
  Elem (w name) ∅ s None [].

Definition run_of (s : string) : Element := node "r" [leaf "t" (Some s)].

Definition deleted_run (s : string) : Element := node "r" [leaf "delText" (Some s)].

Definition document (paragraphs : list (list Element)) : Element :=
  node "document" [node "body" (map (node "p") paragraphs)].

(** The original paragraph and three edited versions: untracked, tracked
    for Claude, and tracked in part only. *)
Definition hello_world : Element := document [[run_of "Hello world."]].

Definition hello_there : Element := document [[run_of "Hello there."]].

Definition hello_tracked : Element :=
  document [[change "ins" "Claude" [run_of "Hello there,"];
             change "del" "Claude" [deleted_run "Hello world."]]].

Definition hello_half_tracked : Element :=
  document [[change "ins" "Claude" [run_of "Hello there,"];
             run_of "Hello there."]].

(** Changes of two authors, nested. *)
Definition bob_deletion : Element := change "del" "Bob" [deleted_run "x"].

Definition claude_ins_around_bob : Element :=
  document [[change "ins" "Claude" [bob_deletion]]].

Definition claude_del_around_bob : Element :=
  document [[change "del" "Claude" [bob_deletion]]].

Definition bob_insertion : Element :=
  change "ins" "Bob" [change "del" "Claude" [deleted_run "x"]].

Definition bob_ins_around_claude : Element := document [[bob_insertion]].

(** A deletion by Claude directly inside a deletion by Claude. *)
Definition claude_del_in_del : Element :=
  document [[change "del" "Claude" [change "del" "Claude" [deleted_run "x"]]]].

(** Packages for the checks of [DOCXSchemaValidator]. *)
Import DOCXSchemaValidator.

(** A package whose [document.xml] has a [w:t] with leading white space
    and no [xml:space]. *)
Definition spaced_package : Package :=
  MkPackage [MkFile "word/document.xml" "document.xml"
               (WellFormed (document [[run_of " hello"]]))]
            BadZip.

Definition xml_ns : string := "http://www.w3.org/XML/1998/namespace".

(** Stand-ins for a check of the base class that passes, or fails. *)
Definition passing : Package → bool := fun _ => true.

Definition failing : Package → bool := fun _ => false.

Definition unreadable_package : Package :=
  MkPackage [MkFile "word/document.xml" "document.xml" Malformed] BadZip.

Definition hello_deleted_file : PackageFile :=
  MkFile "word/document.xml" "document.xml"
    (WellFormed (document [[change "del" "Bob" [run_of "hello"]]])).

Definition one_paragraph : Package :=
  MkPackage [MkFile "word/document.xml" "document.xml" (WellFormed hello_world)]
            (Archive (Some (WellFormed hello_world))).

Definition three_paragraphs : Package :=
  MkPackage [MkFile "word/document.xml" "document.xml"
               (WellFormed (document
                              [[run_of "a"]; [run_of "b"]; [run_of "c"]]))]
            (Archive (Some (WellFormed hello_world))).

End Sample.

(** ** Trees of objects

    What the proofs about the store need: a tree whose nodes carry the
    address of their object, the three rewritings of module [Redlining] on
    such trees, and what it means for a store to hold such a tree. *)

Module Annotated.
Import Heap.

Inductive ATree : Type :=
  ANode { a_addr : nat;
          a_tag : string;
          a_attrib : gmap string string;
          a_text : option string;
          a_tail : option string;
          a_kids : list ATree }.

Section ATree_induction.
Variable P : ATree → Prop.
Hypothesis step : ∀ a tg att tx tl ks, Forall P ks → P (ANode a tg att tx tl ks).

Fixpoint ATree_ind' (t : ATree) : P t :=
  match t with
  | ANode a tg att tx tl ks =>
      step a tg att tx tl ks
        ((fix go (l : list ATree) : Forall P l :=
            match l with
            | [] => Forall_nil_2 P
            | k :: l' => Forall_cons_2 P k l' (ATree_ind' k) (go l')
            end) ks)
  end.
End ATree_induction.

Fixpoint erase (t : ATree) : Element :=
  match t with
  | ANode _ tg att tx tl ks => Elem tg att tx tl (map erase ks)
  end.

Fixpoint addrs (t : ATree) : list nat :=
  match t with
  | ANode a _ _ _ _ ks => a :: flat_map addrs ks
  end.

Fixpoint subtrees (t : ATree) : list ATree :=
  t :: flat_map subtrees (a_kids t).

Definition obj_of (t : ATree) : Obj :=
  MkObj (a_tag t) (a_attrib t) (a_text t) (a_tail t) (map a_addr (a_kids t)).

(** The store holds the object of every node of [t]. *)
Definition represents (s : Store) (t : ATree) : Prop :=
  Forall (fun n => s !! a_addr n = Some (obj_of n)) (subtrees t).

(** [s'] differs from [s] at most at the addresses in [F]. *)
Definition frame (F : list nat) (s s' : Store) : Prop :=
  length s' = length s ∧ ∀ a, a ∉ F → s' !! a = s !! a.

Definition asize (t : ATree) : nat := length (addrs t).

(** The three rewritings of module [Redlining], on trees with addresses. *)
Definition a_is_claude (tg : string) (t : ATree) : bool :=
  bool_decide (a_tag t = tg) && Redlining.by_Claude (a_attrib t).

Fixpoint a_remove_ins (t : ATree) : ATree :=
  match t with
  | ANode a tg att tx tl ks =>
      ANode a tg att tx tl
        (flat_map (fun c => if a_is_claude ins_tag c then [] else [a_remove_ins c]) ks)
  end.

Fixpoint a_retag (t : ATree) : ATree :=
  match t with
  | ANode a tg att tx tl ks =>
      ANode a (Redlining.retag_name tg) att tx tl (map a_retag ks)
  end.

Definition a_retag_if (b : bool) (t : ATree) : ATree :=
  if b then a_retag t else t.

Fixpoint a_unwrap_dels (inside : bool) (t : ATree) : ATree :=
  match t with
  | ANode a tg att tx tl ks =>
      ANode a (if inside then Redlining.retag_name tg else tg) att tx tl
        (flat_map (fun c =>
                     if a_is_claude del_tag c
                     then map (a_unwrap_dels true) (a_kids c)
                     else [a_unwrap_dels inside c]) ks)
  end.

(** [visit] takes the subtree [k] to the subtree [k'] and touches nothing
    outside [k]. *)
Definition visit_ok (visit : Store → nat → option Store) (k k' : ATree) : Prop :=
  a_addr k' = a_addr k ∧ addrs k' ⊆ addrs k ∧
  ∀ s, represents s k →
       ∃ s', visit s (a_addr k) = Some s' ∧ represents s' k' ∧ frame (addrs k) s s'.

(** The entries of [to_process] for the children [ks], the first of which
    stands at index [i]. *)
Fixpoint entries (i : nat) (ks : list ATree) : list (nat * nat) :=
  match ks with
  | [] => []
  | k :: r =>
      (if a_is_claude del_tag k then [(a_addr k, i)] else []) ++ entries (S i) r
  end.

(** The children once every deletion by Claude among them is unwrapped. *)
Definition expand (b : bool) (ks : list ATree) : list ATree :=
  flat_map (fun c => if a_is_claude del_tag c
                     then map a_retag (a_kids c) else [a_retag_if b c]) ks.

(** The addresses [load_at] gives to the nodes of a document. *)
Fixpoint annotate (a : nat) (e : Element) : ATree :=
  match e with
  | Elem tg att tx tl cs =>
      ANode a tg att tx tl
        ((fix go (a : nat) (l : list Element) : list ATree :=
            match l with
            | [] => []
            | c :: l' => annotate a c :: go (a + size c) l'
            end) (S a) cs)
  end.

Fixpoint annotate_list (a : nat) (l : list Element) : list ATree :=
  match l with
  | [] => []
  | c :: l' => annotate a c :: annotate_list (a + size c) l'
  end.

Fixpoint load_list (a : nat) (l : list Element) : list nat * list Obj :=
  match l with
  | [] => ([], [])
  | c :: l' =>
      let b := load_at a c in
      let r := load_list (a + length b) l' in
      (a :: r.1, b ++ r.2)
  end.

End Annotated.

(** ** Collecting text over a tree

    The text parts of a paragraph and the paragraphs of a document are both
    collected over the descendants of an element; [own] is what one
    descendant contributes. *)

Module Collected.
Import Redlining TrackedEdits.

(** The tag of an element after the second loop. *)
Definition tag_in (b : bool) (tg : string) : string :=
  if b then retag_name tg else tg.

(** What the nodes below [e] contribute, in document order. *)
Definition collect {X : Type} (own : Element → list X) (e : Element) : list X :=
  flat_map own (descendants e).

(** The same for the tree that resolution leaves, read off the tree before
    resolution: insertions by Claude are dropped, deletions by Claude give
    their content with [w:delText] already renamed. *)
Fixpoint rcollect {X : Type} (own : Element → list X) (b : bool) (e : Element)
    : list X :=
  match e with
  | Elem _ _ _ _ cs =>
      flat_map (fun c =>
                  if is_claude_ins c then []
                  else if is_claude_del c then rcollect own true c
                  else own (unwrap_dels b (remove_ins c)) ++ rcollect own b c) cs
  end.

Definition rcollect_forest {X : Type} (own : Element → list X) (b : bool)
    (l : list Element) : list X :=
  flat_map (fun c =>
              if is_claude_ins c then []
              else if is_claude_del c then rcollect own true c
              else own (unwrap_dels b (remove_ins c)) ++ rcollect own b c) l.

(** What a [w:t] contributes to the text parts, and a [w:p] to the
    paragraphs. *)
Definition own_text (x : Element) : list string :=
  if bool_decide (tag x = t_tag)
  then (if truthy (text x) then option_list (text x) else [])
  else [].

Definition own_par (x : Element) : list string :=
  if bool_decide (tag x = p_tag) then [paragraph_text x] else [].

(** Below [e] there is no insertion by Claude, and no [w:delText] below a
    deletion by Claude ([b]: [e] itself lies below one). *)
Fixpoint settled (b : bool) (e : Element) : bool :=
  match e with
  | Elem _ _ _ _ cs =>
      forallb (fun c => negb (is_claude_ins c)
                        && negb (b && bool_decide (tag c = deltext_tag))
                        && settled (b || is_claude_del c) c) cs
  end.

(** Below [e] there is no insertion by Claude. *)
Fixpoint no_ins (e : Element) : bool :=
  match e with
  | Elem _ _ _ _ cs => forallb (fun c => negb (is_claude_ins c) && no_ins c) cs
  end.

(** Below [e] there is no insertion and no deletion by Claude. *)
Definition unmarked (e : Element) : Prop :=
  Forall (fun x => is_claude_ins x = false ∧ is_claude_del x = false) (descendants e).

(** [mark_deleted] when [b] holds; the tag it gives. *)
Definition mark_in (b : bool) (e : Element) : Element :=
  if b then mark_deleted e else e.

Definition mark_tag (b : bool) (tg : string) : string :=
  if b then (if bool_decide (tg = t_tag) then deltext_tag else tg) else tg.

(** [pristine], for the elements of a list and all below them. *)
Definition pristine_forest (l : list Element) : Prop :=
  Forall (fun x => pristine_node x = true) (flat_map iter l).

End Collected.
(** ** Notions for further properties of the validators *)

Module Remaining.
Import Redlining.

(** A deletion by Claude that is a child of a deletion by Claude, outside
    the insertions by Claude. *)
Fixpoint nested_deletion (e : Element) : bool :=
  match e with
  | Elem _ _ _ _ cs =>
      existsb (fun c => negb (is_claude_ins c)
                        && ((is_claude_del c && existsb is_claude_del (children c))
                            || nested_deletion c)) cs
  end.

(** The same without the test for insertions, for trees that hold none. *)
Fixpoint nested (e : Element) : bool :=
  match e with
  | Elem _ _ _ _ cs =>
      existsb (fun c => (is_claude_del c && existsb is_claude_del (children c))
                        || nested c) cs
  end.

(** Some element below [e] is a deletion by Claude. *)
Definition del_below (e : Element) : bool := existsb is_claude_del (descendants e).

(** What resolution keeps of an element: its tag, with [w:delText] read as
    [w:t], its attributes, its text and its tail. *)
Definition label (x : Element)
    : string * gmap string string * option string * option string :=
  (retag_name (tag x), attrib x, text x, tail x).

(** A string that is empty or starts with a line feed. *)
Definition breaks (r : string) : Prop :=
  r = "" ∨ ∃ r', r = newline +:+ r'.

End Remaining.

Module Reverted.
Import Redlining.

(** The texts that [e] holds for the comparison, read off the tree as it
    is before resolution: what lies in an insertion by Claude is left out;
    a [w:t] gives its text, and so does a [w:delText] that lies in a
    deletion by Claude ([in_del]). *)
Fixpoint reverted_texts (in_del : bool) (e : Element) : list string :=
  match e with
  | Elem _ _ _ _ cs =>
      flat_map (fun c =>
                  if is_claude_ins c then []
                  else if is_claude_del c then reverted_texts true c
                  else
                    (if bool_decide (tag c = t_tag)
                        || (in_del && bool_decide (tag c = deltext_tag))
                     then (if truthy (text c) then option_list (text c) else [])
                     else [])
                    ++ reverted_texts in_del c) cs
  end.

(** The paragraphs in the same way: the [w:p] elements outside the
    insertions by Claude, each with its texts. *)
Fixpoint reverted_paragraphs (in_del : bool) (e : Element) : list string :=
  match e with
  | Elem _ _ _ _ cs =>
      flat_map (fun c =>
                  if is_claude_ins c then []
                  else if is_claude_del c then reverted_paragraphs true c
                  else
                    (if bool_decide (tag c = p_tag)
                     then [String.concat "" (reverted_texts in_del c)]
                     else [])
                    ++ reverted_paragraphs in_del c) cs
  end.

End Reverted.

Module Documents.
Import DOCXSchemaValidator.

(** The files of a package that the checks read. *)
Definition named_document_xml (fs : list PackageFile) : list PackageFile :=
  filter (fun f => name f = "document.xml") fs.

(** The paragraph count of a file, where it is a [document.xml] that
    parses. *)
Definition paragraph_count (f : PackageFile) : option nat :=
  if bool_decide (name f = "document.xml") then
    match content f with
    | WellFormed root => Some (length (findall p_tag root))
    | Malformed => None
    end
  else None.

(** A [document.xml] with one run whose text starts with a space. *)
Definition spaced_file : PackageFile :=
  MkFile "word/document.xml" "document.xml"
    (WellFormed (Sample.document [[Sample.run_of " hello"]])).

End Documents.
(** ** The text inventory of a presentation ([src/pptx/scripts/inventory.py]) *)

Module Inventory.

(** *** Strings *)

(** Strings are over the code points below 256, as in the whitespace
    check.  [str.strip()]: white space, the class of [is_space], is taken
    off both ends. *)
Fixpoint lstrip (s : string) : string :=
  match s with
  | String c rest => if DOCXSchemaValidator.is_space c then lstrip rest else s
  | EmptyString => EmptyString
  end.

Fixpoint rstrip (s : string) : string :=
  match s with
  | EmptyString => EmptyString
  | String c rest =>
      match rstrip rest with
      | EmptyString => if DOCXSchemaValidator.is_space c then EmptyString
                       else String c EmptyString
      | kept => String c kept
      end
  end.

Definition strip (s : string) : string := rstrip (lstrip s).

(** [str.isdigit()] on the code points below 256: the ten digits and the
    superscripts one, two and three; the empty string has no digit. *)
Definition is_digit (c : ascii) : bool :=
  let n := nat_of_ascii c in
  ((48 <=? n) && (n <=? 57)) || (n =? 178) || (n =? 179) || (n =? 185).

Fixpoint all_digits (s : string) : bool :=
  match s with
  | EmptyString => true
  | String c rest => is_digit c && all_digits rest
  end.

Definition isdigit (s : string) : bool :=
  negb (bool_decide (s = "")) && all_digits s.

(** [s.split(sep)] for a separator of one character: the pieces between
    the separators, at least one. *)
Fixpoint split (sep : ascii) (s : string) : list string :=
  match s with
  | EmptyString => [EmptyString]
  | String c rest =>
      if bool_decide (c = sep) then EmptyString :: split sep rest
      else match split sep rest with
           | piece :: pieces => String c piece :: pieces
           | [] => [String c EmptyString]
           end
  end.

(** [str(type).split(".")[-1].split(" ")[0]]. *)
Definition placeholder_name (type_str : string) : string :=
  default "" (head (split " " (default "" (last (split "." type_str))))).

(** *** Shapes *)

(** What the script reads of a shape that is no group.  A position or a
    size is [None] where the shape has no such attribute, and an integer
    (in EMU) otherwise; [text_frame] is the text of the text frame, where
    the shape has a text frame ([None] also where [not shape.text_frame]
    holds); [is_placeholder] tells that the shape has the attribute and
    that it is true; [placeholder_format_type] is the type of the
    placeholder format as [str] renders it, where the shape has a
    placeholder format with a type. *)
Module BaseShape.
Record t : Type :=
  Make { left : option Z;
         top : option Z;
         width : option Z;
         height : option Z;
         text_frame : option string;
         is_placeholder : bool;
         placeholder_format_type : option string }.
End BaseShape.

(** A shape with the attribute [shapes] is a group. *)
Inductive Shape : Type :=
  | GroupShape (left top : option Z) (shapes : list Shape)
  | Single (shape : BaseShape.t).

Section Shape_induction.
Variable P : Shape → Prop.
Hypothesis group : ∀ l t cs, Forall P cs → P (GroupShape l t cs).
Hypothesis single : ∀ s, P (Single s).

End Shape_induction.

(** The placeholder type as [is_valid_shape] and [ShapeData] compute it. *)
Definition placeholder_type (shape : BaseShape.t) : option string :=
  if BaseShape.is_placeholder shape
  then placeholder_name <$> BaseShape.placeholder_format_type shape
  else None.

Definition is_valid_shape (shape : BaseShape.t) : bool :=
  match BaseShape.text_frame shape with
  | None => false
  | Some frame_text =>
      let text := strip frame_text in
      if bool_decide (text = "") then false
      else
        match placeholder_type shape with
        | Some placeholder_type =>
            if bool_decide (placeholder_type = "SLIDE_NUMBER") then false
            else if bool_decide (placeholder_type = "FOOTER") && isdigit text then false
            else true
        | None => true
        end
  end.

Record ShapeWithPosition : Type :=
  MkShapeWithPosition { shape : BaseShape.t;
                        absolute_left : Z;
                        absolute_top : Z }.

Fixpoint collect_shapes_with_absolute_positions
    (shape : Shape) (parent_left parent_top : Z) : list ShapeWithPosition :=
  match shape with
  | GroupShape own_left own_top shapes =>
      let group_left := default 0%Z own_left in
      let group_top := default 0%Z own_top in
      let abs_group_left := (parent_left + group_left)%Z in
      let abs_group_top := (parent_top + group_top)%Z in
      flat_map (fun child =>
                  collect_shapes_with_absolute_positions child abs_group_left abs_group_top)
               shapes
  | Single shape =>
      if is_valid_shape shape then
        let shape_left := default 0%Z (BaseShape.left shape) in
        let shape_top := default 0%Z (BaseShape.top shape) in
        [MkShapeWithPosition shape (parent_left + shape_left) (parent_top + shape_top)]
      else []
  end.

(** *** Positions in inches *)

(** An integer as a float, as the division of an integer by a float makes
    it: rounded to the nearest float (to even in the middle), and an
    [OverflowError] ([None]) from [2^1024 - 2^970] on, the least integer
    that rounds beyond the largest float. *)
Definition float_of_int (z : Z) : option float :=
  if (Z.abs z <? 2 ^ 1024 - 2 ^ 970)%Z
  then Some (SF2Prim (binary_normalize prec emax z 0 false))
  else None.

(** [emu / 914400.0]. *)
Definition emu_to_inches (emu : Z) : option float :=
  x ← float_of_int emu; Some (x / 914400.0)%float.

Module ShapeData.
Record t : Type :=
  Make { shape : BaseShape.t;
         placeholder_type : option string;
         left : float;
         top : float;
         width : float;
         height : float }.
End ShapeData.

(** *** Sorting *)

(** [sorted(l, key=...)]: a stable sort that compares keys with [<] alone;
    [lt x y] stands for [key(x) < key(y)].  An element is put before the
    first one that is not smaller than it, so that elements with equal keys
    keep their order.  On keys that [<] orders totally (floats other than
    NaN) every stable sort gives this list. *)
Section Sorted.
Context {A : Type} (lt : A → A → bool).

Fixpoint insert_sorted (x : A) (l : list A) : list A :=
  match l with
  | [] => [x]
  | y :: l' => if lt y x then y :: insert_sorted x l' else x :: y :: l'
  end.

Definition sorted (l : list A) : list A := foldr insert_sorted [] l.
End Sorted.

(** [(a1, a2) < (b1, b2)] on pairs of floats: the first components decide
    unless they are equal. *)
Definition pair_lt (a b : float * float) : bool :=
  if (a.1 =? b.1)%float then
    (if (a.2 =? b.2)%float then false else (a.2 <? b.2)%float)
  else (a.1 <? b.1)%float.

Definition by_top_left (s1 s2 : ShapeData.t) : bool :=
  pair_lt (ShapeData.top s1, ShapeData.left s1) (ShapeData.top s2, ShapeData.left s2).

Definition by_left (s1 s2 : ShapeData.t) : bool :=
  (ShapeData.left s1 <? ShapeData.left s2)%float.

(** The loop of [sort_shapes_by_position] over the shapes after the first:
    [result], [row] and [row_top] are its variables; the last row is added
    when the loop has ended. *)
Fixpoint group_rows (result row : list ShapeData.t) (row_top : float)
    (rest : list ShapeData.t) : list ShapeData.t :=
  match rest with
  | [] => result ++ sorted by_left row
  | shape :: rest' =>
      if (abs (ShapeData.top shape - row_top) <=? 0.5)%float
      then group_rows result (row ++ [shape]) row_top rest'
      else group_rows (result ++ sorted by_left row) [shape] (ShapeData.top shape) rest'
  end.

(** [sort_shapes_by_position]; the sorted list of a list that is not
    empty is not empty, so that the last case is never met. *)
Definition sort_shapes_by_position (shapes : list ShapeData.t) : list ShapeData.t :=
  match shapes with
  | [] => shapes
  | _ :: _ =>
      let shapes := sorted by_top_left shapes in
      match shapes with
      | first :: rest => group_rows [] [first] (ShapeData.top first) rest
      | [] => []
      end
  end.

(** *** The inventory *)

(** A Python [dict] with string keys, in insertion order; [d[k] = v]
    replaces the value of a key that is there and adds the key at the end
    otherwise. *)
Fixpoint dict_set {V : Type} (k : string) (v : V) (d : list (string * V))
    : list (string * V) :=
  match d with
  | [] => [(k, v)]
  | (k', v') :: d' =>
      if bool_decide (k' = k) then (k, v) :: d' else (k', v') :: dict_set k v d'
  end.

Fixpoint dict_get {V : Type} (k : string) (d : list (string * V)) : option V :=
  match d with
  | [] => None
  | (k', v) :: d' => if bool_decide (k' = k) then Some v else dict_get k d'
  end.

(** [enumerate(l)]. *)
Definition enumerate {A : Type} (l : list A) : list (nat * A) := imap pair l.

Section Extract.

(** Python's [round(x, ndigits)] on floats is taken as it is: the
    properties below hold whatever it returns. *)
Variable round : float → Z → float.

(** [ShapeData(shape, absolute_left, absolute_top)]: the position given,
    or else the shape's own, and the size, in inches; [None] when a
    division raises. *)
Definition ShapeData_init (shape : BaseShape.t) (absolute_left absolute_top : option Z)
    : option ShapeData.t :=
  let placeholder_type := placeholder_type shape in
  let left_emu :=
    match absolute_left with
    | Some l => l
    | None => default 0%Z (BaseShape.left shape)
    end in
  let top_emu :=
    match absolute_top with
    | Some t => t
    | None => default 0%Z (BaseShape.top shape)
    end in
  left_in ← emu_to_inches left_emu;
  top_in ← emu_to_inches top_emu;
  width_in ← emu_to_inches (default 0%Z (BaseShape.width shape));
  height_in ← emu_to_inches (default 0%Z (BaseShape.height shape));
  Some (ShapeData.Make shape placeholder_type
          (round left_in 2) (round top_in 2) (round width_in 2) (round height_in 2)).

Definition SlideShapeDict : Type := list (string * ShapeData.t).

(** The valid shapes of a slide with their positions; a slide is the list
    of its shapes. *)
Definition shapes_with_positions (slide : list Shape) : list ShapeWithPosition :=
  flat_map (fun shape => collect_shapes_with_absolute_positions shape 0 0) slide.

Definition shape_data (swp : ShapeWithPosition) : option ShapeData.t :=
  ShapeData_init (shape swp) (Some (absolute_left swp)) (Some (absolute_top swp)).

(** [{f"shape-{idx}": shape_data for idx, shape_data in enumerate(...)}]. *)
Definition slide_shapes (sorted_shapes : list ShapeData.t) : SlideShapeDict :=
  foldl (fun d entry => dict_set ("shape-" +:+ pretty entry.1) entry.2 d)
        [] (enumerate sorted_shapes).



End Extract.

(** *** Notions for the properties *)



(** The character occurs in the string. *)
Fixpoint occurs (c : ascii) (s : string) : bool :=
  match s with
  | EmptyString => false
  | String c' rest => bool_decide (c' = c) || occurs c rest
  end.



(** No coordinate of the shape is a NaN. *)
Definition ordered (s : ShapeData.t) : bool :=
  (ShapeData.top s =? ShapeData.top s)%float
  && (ShapeData.left s =? ShapeData.left s)%float.

(** [x] is put no later than [y] by a sort with [lt]. *)
Definition not_after {A : Type} (lt : A → A → bool) (x y : A) : Prop :=
  lt y x = false.

(** [a] may come before [b]: it is not to the right of [b], or it is
    above [b]. *)
Definition may_precede (a b : ShapeData.t) : Prop :=
  (ShapeData.left a <=? ShapeData.left b)%float = true
  ∨ (ShapeData.top a <? ShapeData.top b)%float = true.

Definition left_to_right (a b : ShapeData.t) : Prop :=
  (ShapeData.left a <=? ShapeData.left b)%float = true.

(** The two shapes are at most half an inch apart vertically, as the loop
    of [sort_shapes_by_position] tests it. *)
Definition same_row (a b : ShapeData.t) : bool :=
  (abs (ShapeData.top a - ShapeData.top b) <=? 0.5)%float.

(** Neither of the two is smaller than the other: a sort with [lt] ties
    them. *)
Definition tied {A : Type} (lt : A → A → bool) (x y : A) : bool :=
  negb (lt x y) && negb (lt y x).

(** The two shapes have the same top and the same left. *)
Definition same_position (a b : ShapeData.t) : bool :=
  (ShapeData.top a =? ShapeData.top b)%float
  && (ShapeData.left a =? ShapeData.left b)%float.

(** What one slide adds to the inventory, and what all slides add. *)
Section Entries.
Variable round : float → Z → float.

Definition slide_entry (i : nat) (slide : list Shape)
    : option (option (string * SlideShapeDict)) :=
  match shapes_with_positions slide with
  | [] => Some None
  | _ :: _ =>
      shape_data_list ← mapM (shape_data round) (shapes_with_positions slide);
      Some (Some ("slide-" +:+ pretty i,
                  slide_shapes (sort_shapes_by_position shape_data_list)))
  end.

Definition entries (slides : list (list Shape))
    : option (list (option (string * SlideShapeDict))) :=
  mapM (fun e => slide_entry e.1 e.2) (enumerate slides).
End Entries.

(** Every entry has the key of its place. *)
Definition keyed (es : list (option (string * SlideShapeDict))) : Prop :=
  ∀ j e, es !! j = Some (Some e) → e.1 = "slide-" +:+ pretty j.

End Inventory.

(** *** The order of the floats *)

Module FloatRank.

(** The place of a float in the order of the floats: minus infinity, the
    negative floats, the two zeros, the positive floats, plus infinity;
    among the floats of one sign by exponent, then by mantissa. *)
Definition rank (f : spec_float) : Z * Z * Z :=
  match f with
  | S754_nan => (0, 0, 0)
  | S754_infinity true => (-2, 0, 0)
  | S754_infinity false => (2, 0, 0)
  | S754_zero _ => (0, 0, 0)
  | S754_finite false m e => (1, e, Zpos m)
  | S754_finite true m e => (-1, - e, Zneg m)
  end%Z.

Definition below (a b : Z * Z * Z) : Prop :=
  (a.1.1 < b.1.1 ∨ a.1.1 = b.1.1 ∧ (a.1.2 < b.1.2 ∨ a.1.2 = b.1.2 ∧ a.2 < b.2))%Z.

Definition not_nan (f : spec_float) : Prop := f ≠ S754_nan.

(** A float is not a NaN exactly when it is equal to itself. *)
Definition defined (x : float) : Prop := (x =? x)%float = true.

Definition frank (x : float) : Z * Z * Z := rank (Prim2SF x).

Definition top_rank (s : Inventory.ShapeData.t) : Z * Z * Z :=
  frank (Inventory.ShapeData.top s).

Definition left_rank (s : Inventory.ShapeData.t) : Z * Z * Z :=
  frank (Inventory.ShapeData.left s).

End FloatRank.

(** *** A deck *)

Module Deck.
Import Inventory.

Definition text_box (l t : Z) (text : string) : Shape :=
  Single (BaseShape.Make (Some l) (Some t) (Some 914400%Z) (Some 457200%Z)
            (Some text) false None).

Definition placeholder (l t : Z) (text type_str : string) : Shape :=
  Single (BaseShape.Make (Some l) (Some t) (Some 914400%Z) (Some 457200%Z)
            (Some text) true (Some type_str)).

(** A slide with a title, a group of two boxes (one of them blank) and a
    slide number; a slide with a slide number only; a slide with one
    box. *)
Definition slides : list (list Shape) :=
  [[text_box 914400 457200 "Title";
    GroupShape (Some 914400%Z) (Some 1828800%Z)
      [text_box 0 0 "left"; text_box 1828800 0 "  "];
    placeholder 8229600 6400800 "1" "SLIDE_NUMBER (13)"];
   [placeholder 8229600 6400800 "2" "SLIDE_NUMBER (13)"];
   [text_box 0 0 "only"]].


(** A shape of which only the position matters. *)
Definition at_position (l t : float) : ShapeData.t :=
  ShapeData.Make (BaseShape.Make None None None None None false None) None l t 1 1.

End Deck.


(** ** The store run computes the tree functions

    Every parsed document is a tree of objects with distinct addresses.
    The lemmas below follow the three traversals of
    [_remove_claude_tracked_changes] on such a store and show that the
    tree read back from the root is [Redlining.resolve] of the document. *)

Module Refinement.
Import Heap Annotated.

(** *** Lists *)

Lemma elem_of_flat_map {A B} (f : A → list B) (l : list A) (y : B) :
  y ∈ flat_map f l ↔ ∃ x, x ∈ l ∧ y ∈ f x.
Proof.
  rewrite list_elem_of_In, in_flat_map.
  split; intros (x & H1 & H2); exists x; by rewrite <- ?list_elem_of_In in *.
Qed.

Lemma flat_map_sublist {A B} (f g : A → list B) (l : list A) :
  Forall (fun x => f x `sublist_of` g x) l →
  flat_map f l `sublist_of` flat_map g l.
Proof.
  induction 1 as [|x l Hx _ IH]; simpl; [constructor|].
  by apply sublist_app.
Qed.

Lemma flat_map_length_elem {A B} (f : A → list B) (l : list A) x :
  x ∈ l → length (f x) ≤ length (flat_map f l).
Proof.
  induction 1 as [x l | x y l _ IH]; simpl; rewrite length_app; lia.
Qed.

Lemma represents_unfold s t :
  represents s t ↔
  s !! a_addr t = Some (obj_of t) ∧ Forall (represents s) (a_kids t).
Proof.
  unfold represents. destruct t as [a tg att tx tl ks]; simpl.
  rewrite Forall_cons. apply and_iff_compat_l.
  rewrite !Forall_forall. setoid_rewrite elem_of_flat_map.
  setoid_rewrite Forall_forall. naive_solver.
Qed.

Lemma addrs_root t : a_addr t ∈ addrs t.
Proof. destruct t; simpl; left. Qed.

Lemma subtrees_addr t n : n ∈ subtrees t → a_addr n ∈ addrs t.
Proof.
  induction t as [a tg att tx tl ks IH] using ATree_ind'; simpl.
  rewrite elem_of_cons, elem_of_flat_map. intros [-> | (k & Hk & Hn)].
  - left.
  - right. apply elem_of_flat_map. exists k. split; [done|].
    rewrite Forall_forall in IH. by apply IH.
Qed.

Lemma represents_frame F s s' t :
  represents s t → frame F s s' → (∀ a, a ∈ addrs t → a ∉ F) →
  represents s' t.
Proof.
  unfold represents. rewrite !Forall_forall. intros Hr [_ Hf] Hd n Hn.
  rewrite Hf; [by apply Hr|]. by apply Hd, subtrees_addr.
Qed.

Lemma frame_refl F s : frame F s s.
Proof. by split. Qed.

Lemma frame_trans F s1 s2 s3 : frame F s1 s2 → frame F s2 s3 → frame F s1 s3.
Proof.
  intros [L1 H1] [L2 H2]. split; [congruence|].
  intros a Ha. by rewrite H2, H1.
Qed.

Lemma frame_mono F G s s' : F ⊆ G → frame F s s' → frame G s s'.
Proof. intros HFG [L H]. split; [done|]. intros a Ha. apply H. set_solver. Qed.

Lemma asize_kid (ks : list ATree) k :
  k ∈ ks → length (addrs k) ≤ length (flat_map addrs ks).
Proof. apply flat_map_length_elem. Qed.

Lemma ATree_size_ind (P : ATree → Prop) :
  (∀ t, (∀ u, asize u < asize t → P u) → P t) → ∀ t, P t.
Proof. intros H t. induction t as [t IH] using (induction_ltof1 _ asize). by apply H. Qed.

Lemma asize_kid_lt t k : k ∈ a_kids t → asize k < asize t.
Proof.
  destruct t as [a tg att tx tl ks]; unfold asize; simpl.
  intros Hk%asize_kid. lia.
Qed.

Lemma erase_is_claude_ins t :
  Redlining.is_claude_ins (erase t) = a_is_claude ins_tag t.
Proof. by destruct t. Qed.

Lemma erase_is_claude_del t :
  Redlining.is_claude_del (erase t) = a_is_claude del_tag t.
Proof. by destruct t. Qed.

Lemma erase_children t : children (erase t) = map erase (a_kids t).
Proof. by destruct t. Qed.

Lemma erase_remove_ins t :
  erase (a_remove_ins t) = Redlining.remove_ins (erase t).
Proof.
  induction t as [a tg att tx tl ks IH] using ATree_ind'; simpl. f_equal.
  induction IH as [|k ks Hk _ IH]; simpl; [done|].
  rewrite erase_is_claude_ins. destruct (a_is_claude ins_tag k); simpl; congruence.
Qed.

Lemma erase_retag t : erase (a_retag t) = Redlining.retag (erase t).
Proof.
  induction t as [a tg att tx tl ks IH] using ATree_ind'; simpl. f_equal.
  induction IH as [|k ks Hk _ IH]; simpl; congruence.
Qed.

Lemma erase_unwrap_dels b t :
  erase (a_unwrap_dels b t) = Redlining.unwrap_dels b (erase t).
Proof.
  revert b. induction t as [t IH] using ATree_size_ind. intros b.
  destruct t as [a tg att tx tl ks]; simpl. f_equal.
  assert (Hks : ∀ k, k ∈ ks → k ∈ ks) by done. revert Hks.
  generalize ks at 1 3 4. intros l Hl.
  induction l as [|k l IHl]; simpl; [done|].
  rewrite map_app, IHl by (intros; apply Hl; by right). f_equal.
  assert (Hk : asize k < asize (ANode a tg att tx tl ks))
    by (apply asize_kid_lt, Hl; left).
  rewrite erase_is_claude_del. destruct (a_is_claude del_tag k); simpl.
  - rewrite erase_children, !map_map. apply map_ext_in. intros g Hg.
    apply IH. apply list_elem_of_In, asize_kid_lt in Hg. lia.
  - f_equal. by apply IH.
Qed.

Lemma a_addr_remove_ins t : a_addr (a_remove_ins t) = a_addr t.
Proof. by destruct t. Qed.
Lemma a_addr_retag t : a_addr (a_retag t) = a_addr t.
Proof. by destruct t. Qed.
Lemma a_addr_retag_if b t : a_addr (a_retag_if b t) = a_addr t.
Proof. destruct b; [apply a_addr_retag | done]. Qed.
Lemma a_addr_unwrap_dels b t : a_addr (a_unwrap_dels b t) = a_addr t.
Proof. by destruct t. Qed.

Lemma addrs_retag t : addrs (a_retag t) = addrs t.
Proof.
  induction t as [a tg att tx tl ks IH] using ATree_ind'; simpl. f_equal.
  induction IH as [|k ks Hk _ IH]; simpl; congruence.
Qed.

Lemma addrs_retag_if b t : addrs (a_retag_if b t) = addrs t.
Proof. destruct b; [apply addrs_retag | done]. Qed.

Lemma a_retag_idemp t : a_retag (a_retag t) = a_retag t.
Proof.
  induction t as [a tg att tx tl ks IH] using ATree_ind'; simpl. f_equal.
  - unfold Redlining.retag_name. repeat case_bool_decide; try done.
  - induction IH as [|k ks Hk _ IH]; simpl; congruence.
Qed.

Lemma a_retag_retag_if b t : a_retag (a_retag_if b t) = a_retag t.
Proof. destruct b; [apply a_retag_idemp | done]. Qed.

Lemma a_is_claude_retag tg t :
  tg ≠ deltext_tag → tg ≠ t_tag →
  a_is_claude tg (a_retag t) = a_is_claude tg t.
Proof.
  intros H1 H2. destruct t as [a tg' att tx tl ks]; unfold a_is_claude; simpl.
  f_equal. unfold Redlining.retag_name.
  repeat case_bool_decide; congruence.
Qed.

Lemma addrs_remove_ins_sublist t : addrs (a_remove_ins t) `sublist_of` addrs t.
Proof.
  induction t as [a tg att tx tl ks IH] using ATree_ind'; simpl.
  apply sublist_skip.
  induction IH as [|k ks Hk _ IH]; simpl; [constructor|].
  destruct (a_is_claude ins_tag k); simpl.
  - by apply sublist_inserts_l.
  - by apply sublist_app.
Qed.

Lemma addrs_unwrap_dels_sublist b t :
  addrs (a_unwrap_dels b t) `sublist_of` addrs t.
Proof.
  revert b. induction t as [t IH] using ATree_size_ind. intros b.
  destruct t as [a tg att tx tl ks]; simpl. apply sublist_skip.
  assert (Hks : ∀ k, k ∈ ks → k ∈ ks) by done. revert Hks.
  generalize ks at 1 3 4. intros l Hl.
  induction l as [|k l IHl]; simpl; [constructor|].
  rewrite flat_map_app. apply sublist_app; [|apply IHl; intros; apply Hl; by right].
  assert (Hk : asize k < asize (ANode a tg att tx tl ks))
    by (apply asize_kid_lt, Hl; left).
  destruct (a_is_claude del_tag k); simpl.
  - destruct k as [a' tg' att' tx' tl' gs]; simpl. apply sublist_cons.
    rewrite flat_map_concat_map, map_map, <- flat_map_concat_map.
    apply flat_map_sublist, Forall_forall. intros g Hg. apply IH.
    apply (asize_kid_lt (ANode a' tg' att' tx' tl' gs)) in Hg. lia.
  - rewrite app_nil_r. by apply IH.
Qed.

(** *** Store updates *)

Lemma set_children_lookup s a o l :
  s !! a = Some o →
  set_children s a l !! a = Some (MkObj (o_tag o) (o_attrib o) (o_text o) (o_tail o) l).
Proof.
  intros H. unfold set_children. rewrite H.
  apply list_lookup_insert_eq. by eapply lookup_lt_Some.
Qed.

Lemma set_children_frame s a l : frame [a] s (set_children s a l).
Proof.
  unfold set_children. destruct (s !! a); [|apply frame_refl].
  split; [apply length_insert|]. intros b Hb.
  apply list_lookup_insert_ne. set_solver.
Qed.

Lemma set_tag_lookup s a o tg :
  s !! a = Some o →
  set_tag s a tg !! a = Some (MkObj tg (o_attrib o) (o_text o) (o_tail o) (o_children o)).
Proof.
  intros H. unfold set_tag. rewrite H.
  apply list_lookup_insert_eq. by eapply lookup_lt_Some.
Qed.

Lemma set_tag_frame s a tg : frame [a] s (set_tag s a tg).
Proof.
  unfold set_tag. destruct (s !! a); [|apply frame_refl].
  split; [apply length_insert|]. intros b Hb.
  apply list_lookup_insert_ne. set_solver.
Qed.

Lemma children_of_lookup s a o : s !! a = Some o → children_of s a = o_children o.
Proof. intros H. unfold children_of. by rewrite H. Qed.

Lemma represents_root s t : represents s t → s !! a_addr t = Some (obj_of t).
Proof. intros H. by apply represents_unfold in H as [? _]. Qed.

Lemma represents_kids s t : represents s t → Forall (represents s) (a_kids t).
Proof. intros H. by apply represents_unfold in H as [_ ?]. Qed.

Lemma represents_children_of s t :
  represents s t → children_of s (a_addr t) = map a_addr (a_kids t).
Proof. intros H%represents_root. by rewrite (children_of_lookup _ _ _ H). Qed.

Lemma has_tag_by_Claude_represents tg s t :
  represents s t → has_tag_by_Claude tg s (a_addr t) = a_is_claude tg t.
Proof. intros H%represents_root. unfold has_tag_by_Claude. by rewrite H. Qed.

(** *** The walk over a child list *)

Lemma for_children_spec visit a :
  ∀ (ks ks' : list ATree) (pre : list nat) (k : nat) (s : Store),
    Forall2 (visit_ok visit) ks ks' →
    NoDup (a :: flat_map addrs ks) →
    children_of s a = pre ++ map a_addr ks →
    Forall (represents s) ks →
    length ks < k →
    ∃ s', for_children visit k s a (length pre) = Some s' ∧
          Forall (represents s') ks' ∧
          frame (flat_map addrs ks) s s'.
Proof.
  intros ks ks' pre k s Hok. revert pre k s.
  induction Hok as [|x x' ks ks' (Hroot & Hsub & Hx) _ IH];
    intros pre k s Hnd Hch Hrep Hk.
  - destruct k as [|k]; [simpl in Hk; lia|]. simpl.
    rewrite Hch, app_nil_r, lookup_ge_None_2 by done.
    exists s. split_and!; [done|constructor|apply frame_refl].
  - destruct k as [|k]; [simpl in Hk; lia|]. simpl in *.
    rewrite Hch, lookup_app_r, Nat.sub_diag by done. simpl.
    apply Forall_cons in Hrep as [Hrx Hrks].
    destruct (Hx s Hrx) as (s1 & -> & Hrx' & Hf1). simpl.
    apply NoDup_cons in Hnd as [Ha Hnd].
    apply NoDup_app in Hnd as (Hndx & Hdisj & Hndks).
    rewrite elem_of_app in Ha.
    assert (Hch1 : children_of s1 a = (pre ++ [a_addr x]) ++ map a_addr ks).
    { rewrite <- app_assoc. simpl. rewrite <- Hch. unfold children_of.
      destruct Hf1 as [_ Hf1]. rewrite Hf1; [done|]. intros ?. apply Ha. by left. }
    assert (Hrks1 : Forall (represents s1) ks).
    { rewrite Forall_forall in Hrks |- *. intros y Hy.
      eapply represents_frame; [by apply Hrks|done|].
      intros b Hb Hbx. apply (Hdisj b Hbx), elem_of_flat_map. eauto. }
    destruct (IH (pre ++ [a_addr x]) k s1) as (s' & Hrun & Hrep' & Hf2);
      [apply NoDup_cons; split; [intros ?; apply Ha; by right|done]
      |done|done|lia|].
    rewrite length_app in Hrun. simpl in Hrun.
    rewrite Nat.add_1_r in Hrun. exists s'. split_and!; [done| |].
    + constructor; [|done].
      eapply represents_frame; [done|done|].
      intros b Hb. apply Hdisj. by apply Hsub.
    + eapply frame_trans; (eapply frame_mono; [|done]); set_solver.
Qed.

Lemma node_spec visit s a tg att tx tl (ks ks' : list ATree) :
  s !! a = Some (MkObj tg att tx tl (map a_addr ks)) →
  Forall (represents s) ks →
  NoDup (a :: flat_map addrs ks) →
  Forall2 (visit_ok visit) ks ks' →
  ∃ s', for_children visit (S (length (children_of s a))) s a 0 = Some s' ∧
        represents s' (ANode a tg att tx tl ks') ∧
        frame (flat_map addrs ks) s s'.
Proof.
  intros Ha Hrep Hnd Hok.
  destruct (for_children_spec visit a ks ks' [] (S (length (children_of s a))) s)
    as (s' & Hrun & Hrep' & Hf); try done.
  - by rewrite (children_of_lookup _ _ _ Ha).
  - rewrite (children_of_lookup _ _ _ Ha). simpl. rewrite length_map. lia.
  - exists s'. split_and!; [done| |done].
    apply represents_unfold. split; [|done]. simpl.
    destruct Hf as [_ Hf]. rewrite Hf by (by apply NoDup_cons in Hnd as [? _]).
    rewrite Ha. unfold obj_of; simpl. do 2 f_equal.
    clear -Hok. induction Hok as [|x x' ks ks' (Hroot & _) _ IH]; simpl; congruence.
Qed.

Lemma NoDup_kid a (ks : list ATree) k :
  NoDup (a :: flat_map addrs ks) → k ∈ ks → NoDup (addrs k).
Proof.
  intros [_ Hnd]%NoDup_cons Hk. induction Hk as [k ks | k y ks _ IH];
    simpl in Hnd; apply NoDup_app in Hnd as (? & _ & ?); auto.
Qed.

Lemma for_iter_S body d s a :
  for_iter body (S d) s a
  = body s a ≫= fun s1 =>
      for_children (for_iter body d) (S (length (children_of s1 a))) s1 a 0.
Proof. done. Qed.

(** *** The loop over [del_elem.iter()] *)

Lemma retag_body_lookup s a o :
  s !! a = Some o →
  retag_body s a
  = Some (if bool_decide (o_tag o = deltext_tag) then set_tag s a t_tag else s).
Proof. intros H. unfold retag_body. by rewrite H. Qed.

Lemma retag_spec d :
  ∀ t s, asize t ≤ d → NoDup (addrs t) → represents s t →
    ∃ s', for_iter retag_body d s (a_addr t) = Some s' ∧
          represents s' (a_retag t) ∧ frame (addrs t) s s'.
Proof.
  induction d as [|d IH]; intros t s Hd Hnd Hrep.
  { destruct t; unfold asize in Hd; simpl in Hd; lia. }
  destruct t as [a tg att tx tl ks]. simpl in Hnd. cbn [a_addr a_retag addrs].
  pose proof (represents_root _ _ Hrep) as Ha. unfold obj_of in Ha; simpl in Ha.
  pose proof (represents_kids _ _ Hrep) as Hks. simpl in Hks.
  rewrite for_iter_S, (retag_body_lookup _ _ _ Ha). cbn [mbind option_bind o_tag].
  set (s1 := if bool_decide (tg = deltext_tag) then set_tag s a t_tag else s).
  assert (Hf1 : frame [a] s s1).
  { unfold s1. case_bool_decide; [apply set_tag_frame | apply frame_refl]. }
  assert (Ha1 : s1 !! a = Some (MkObj (Redlining.retag_name tg) att tx tl (map a_addr ks))).
  { unfold s1, Redlining.retag_name. case_bool_decide; [|done].
    by rewrite (set_tag_lookup _ _ _ _ Ha). }
  assert (Hks1 : Forall (represents s1) ks).
  { rewrite Forall_forall in Hks |- *. intros k Hk.
    eapply represents_frame; [by apply Hks|done|].
    intros b Hb ->%list_elem_of_singleton.
    apply NoDup_cons in Hnd as [Hn _]. apply Hn, elem_of_flat_map. eauto. }
  destruct (node_spec (for_iter retag_body d) s1 a (Redlining.retag_name tg)
              att tx tl ks (map a_retag ks)) as (s' & Hrun & Hrep' & Hf2); try done.
  { apply Forall2_fmap_r, Forall_Forall2_diag, Forall_forall. intros k Hk.
    split_and!; [apply a_addr_retag|by rewrite addrs_retag|].
    intros s2 Hs2. apply IH; [|by eapply NoDup_kid|done].
    apply (asize_kid_lt (ANode a tg att tx tl ks)) in Hk. lia. }
  exists s'. split_and!; [done|done|].
  eapply frame_trans; (eapply frame_mono; [|done]); set_solver.
Qed.

(** *** The first loop *)

Lemma remove_ins_body_eq s parent :
  remove_ins_body s parent
  = Some (foldl (fun s elem => remove_child s parent elem) s
            (filter (fun child => has_tag_by_Claude ins_tag s child = true)
                    (children_of s parent))).
Proof. done. Qed.

Lemma list_remove_middle x (pre rest : list nat) :
  x ∉ pre → list_remove x (pre ++ x :: rest) = pre ++ rest.
Proof.
  induction pre as [|y pre IH]; simpl; intros Hx.
  - by rewrite bool_decide_eq_true_2.
  - rewrite bool_decide_eq_false_2 by set_solver. f_equal. apply IH. set_solver.
Qed.

Lemma remove_fold (P : ATree → bool) (ks : list ATree) :
  ∀ pre, NoDup (pre ++ map a_addr ks) →
    foldl (fun l e => list_remove e l) (pre ++ map a_addr ks)
          (map a_addr (filter (fun k => P k = true) ks))
    = pre ++ map a_addr (filter (fun k => P k = false) ks).
Proof.
  induction ks as [|k ks IH]; intros pre Hnd; simpl; [done|].
  rewrite !filter_cons. destruct (P k) eqn:HP; simpl.
  - rewrite list_remove_middle.
    + apply IH. apply NoDup_app in Hnd as (H1 & H2 & H3).
      apply NoDup_cons in H3 as [_ H3]. apply NoDup_app. set_solver.
    + apply NoDup_app in Hnd as (_ & H2 & _). set_solver.
  - rewrite (cons_middle _ pre), (cons_middle _ pre), !app_assoc.
    apply IH. by rewrite <- app_assoc.
Qed.

Lemma remove_child_fold s a tg att tx tl :
  ∀ (R L : list nat),
    s !! a = Some (MkObj tg att tx tl L) →
    let s' := foldl (fun s elem => remove_child s a elem) s R in
    s' !! a = Some (MkObj tg att tx tl (foldl (fun l e => list_remove e l) L R)) ∧
    frame [a] s s'.
Proof.
  intros R. revert s. induction R as [|e R IH]; intros s L Ha; simpl.
  - split; [done|apply frame_refl].
  - assert (H1 : remove_child s a e !! a = Some (MkObj tg att tx tl (list_remove e L))).
    { unfold remove_child. rewrite (children_of_lookup _ _ _ Ha).
      by rewrite (set_children_lookup _ _ _ _ Ha). }
    destruct (IH _ _ H1) as [H2 H3]. split; [done|].
    eapply frame_trans; [apply set_children_frame|done].
Qed.

Lemma filter_has_tag tg s (ks : list ATree) :
  Forall (represents s) ks →
  filter (fun child => has_tag_by_Claude tg s child = true) (map a_addr ks)
  = map a_addr (filter (fun k => a_is_claude tg k = true) ks).
Proof.
  induction 1 as [|k ks Hk _ IH]; simpl; [done|].
  rewrite !filter_cons, (has_tag_by_Claude_represents _ _ _ Hk).
  destruct (a_is_claude tg k); simpl; by rewrite IH.
Qed.

Lemma a_remove_ins_kids (ks : list ATree) :
  flat_map (fun c => if a_is_claude ins_tag c then [] else [a_remove_ins c]) ks
  = map a_remove_ins (filter (fun k => a_is_claude ins_tag k = false) ks).
Proof.
  induction ks as [|k ks IH]; simpl; [done|].
  rewrite filter_cons. destruct (a_is_claude ins_tag k); simpl; by rewrite IH.
Qed.

Lemma filter_addrs_sublist (P : ATree → Prop) `{∀ k, Decision (P k)} (ks : list ATree) :
  flat_map addrs (filter P ks) `sublist_of` flat_map addrs ks.
Proof.
  induction ks as [|k ks IH]; simpl; [constructor|].
  rewrite filter_cons. destruct (decide (P k)); simpl.
  - by apply sublist_app.
  - by apply sublist_inserts_l.
Qed.

Lemma remove_ins_spec d :
  ∀ t s, asize t ≤ d → NoDup (addrs t) → represents s t →
    ∃ s', for_iter remove_ins_body d s (a_addr t) = Some s' ∧
          represents s' (a_remove_ins t) ∧ frame (addrs t) s s'.
Proof.
  induction d as [|d IH]; intros t s Hd Hnd Hrep.
  { destruct t; unfold asize in Hd; simpl in Hd; lia. }
  destruct t as [a tg att tx tl ks]. simpl in Hnd. cbn [a_addr a_remove_ins addrs].
  pose proof (represents_root _ _ Hrep) as Ha. unfold obj_of in Ha; simpl in Ha.
  pose proof (represents_kids _ _ Hrep) as Hks. simpl in Hks.
  rewrite for_iter_S, remove_ins_body_eq. cbn [mbind option_bind].
  rewrite (children_of_lookup _ _ _ Ha). cbn [o_children]. rewrite filter_has_tag by done.
  destruct (remove_child_fold s a tg att tx tl
              (map a_addr (filter (fun k => a_is_claude ins_tag k = true) ks))
              _ Ha) as [Ha1 Hf1].
  set (s1 := foldl _ s _) in *.
  assert (Hndk : NoDup (map a_addr ks)).
  { apply NoDup_cons in Hnd as [_ Hnd]. clear -Hnd.
    induction ks as [|k ks IH]; simpl in *; [constructor|].
    apply NoDup_app in Hnd as (H1 & H2 & H3). apply NoDup_cons. split; [|auto].
    intros (k' & Hk' & Hin)%list_elem_of_fmap.
    apply (H2 (a_addr k)); [apply addrs_root|].
    apply elem_of_flat_map. exists k'. split; [done|]. rewrite Hk'. apply addrs_root. }
  pose proof (remove_fold (a_is_claude ins_tag) ks [] Hndk) as Hrf.
  simpl in Hrf. rewrite Hrf in Ha1. clear Hrf.
  simpl in Ha1. set (ks1 := filter (fun k => a_is_claude ins_tag k = false) ks) in *.
  assert (Hsub : flat_map addrs ks1 `sublist_of` flat_map addrs ks)
    by apply filter_addrs_sublist.
  assert (Hks1 : Forall (represents s1) ks1).
  { rewrite Forall_forall in Hks |- *. intros k [_ Hk]%list_elem_of_filter.
    eapply represents_frame; [by apply Hks|done|].
    intros b Hb ->%list_elem_of_singleton.
    apply NoDup_cons in Hnd as [Hn _]. apply Hn, elem_of_flat_map. eauto. }
  destruct (node_spec (for_iter remove_ins_body d) s1 a tg att tx tl ks1
              (map a_remove_ins ks1)) as (s' & Hrun & Hrep' & Hf2); try done.
  { apply NoDup_cons in Hnd as [Hn Hnd]. apply NoDup_cons. split.
    - intros Hin. apply Hn. by apply (sublist_subseteq _ _ Hsub).
    - by apply (sublist_NoDup _ _ Hnd Hsub). }
  { apply Forall2_fmap_r, Forall_Forall2_diag, Forall_forall.
    intros k [_ Hk]%list_elem_of_filter.
    split_and!; [apply a_addr_remove_ins
                |apply sublist_subseteq, addrs_remove_ins_sublist|].
    intros s2 Hs2. apply IH; [|by eapply NoDup_kid|done].
    apply (asize_kid_lt (ANode a tg att tx tl ks)) in Hk. unfold asize in *; simpl in *. lia. }
  exists s'. rewrite a_remove_ins_kids. split_and!; [done|done|].
  eapply frame_trans; (eapply frame_mono; [|done]).
  - set_solver.
  - intros b Hb. right. by apply (sublist_subseteq _ _ Hsub).
Qed.

(** *** The second loop *)

Lemma del_tag_ne_deltext : del_tag ≠ deltext_tag.
Proof. apply (bool_decide_eq_false_1 (del_tag = deltext_tag)). by vm_compute. Qed.

Lemma del_tag_ne_t : del_tag ≠ t_tag.
Proof. apply (bool_decide_eq_false_1 (del_tag = t_tag)). by vm_compute. Qed.

Lemma a_is_claude_del_retag_if b t :
  a_is_claude del_tag (a_retag_if b t) = a_is_claude del_tag t.
Proof.
  destruct b; [|done].
  apply a_is_claude_retag; [apply del_tag_ne_deltext | apply del_tag_ne_t].
Qed.

Lemma list_index_middle x (pre rest : list nat) :
  x ∉ pre → list_index x (pre ++ x :: rest) = length pre.
Proof.
  induction pre as [|y pre IH]; simpl; intros Hx.
  - by rewrite bool_decide_eq_true_2.
  - rewrite bool_decide_eq_false_2 by set_solver. f_equal. apply IH. set_solver.
Qed.

Lemma insert_fold (pre G X : list nat) :
  foldl (fun l c => list_insert_at (length pre) c l) (pre ++ X) (reverse G)
  = pre ++ G ++ X.
Proof.
  induction G as [|g G IH]; simpl; [done|].
  rewrite reverse_cons, foldl_app, IH. simpl. unfold list_insert_at.
  by rewrite take_app_length, drop_app_length.
Qed.

Lemma insert_child_fold s a tg att tx tl i :
  ∀ (R L : list nat),
    s !! a = Some (MkObj tg att tx tl L) →
    let s' := foldl (fun s child => insert_child s a i child) s R in
    s' !! a = Some (MkObj tg att tx tl (foldl (fun l c => list_insert_at i c l) L R)) ∧
    frame [a] s s'.
Proof.
  intros R. revert s. induction R as [|e R IH]; intros s L Ha; simpl.
  - split; [done|apply frame_refl].
  - assert (H1 : insert_child s a i e !! a
                 = Some (MkObj tg att tx tl (list_insert_at i e L))).
    { unfold insert_child. rewrite (children_of_lookup _ _ _ Ha).
      by rewrite (set_children_lookup _ _ _ _ Ha). }
    destruct (IH _ _ H1) as [H2 H3]. split; [done|].
    eapply frame_trans; [apply set_children_frame|done].
Qed.

Lemma omap_cons' {A B} (f : A → option B) x l :
  omap f (x :: l) = match f x with Some y => y :: omap f l | None => omap f l end.
Proof. done. Qed.

Lemma to_process_entries s b (L : list nat) :
  ∀ (suf : list ATree) (pre : list nat),
    L = pre ++ map a_addr suf → NoDup L →
    Forall (represents s) (map (a_retag_if b) suf) →
    omap (fun child =>
            if has_tag_by_Claude del_tag s child
            then Some (child, list_index child L) else None) (map a_addr suf)
    = entries (length pre) suf.
Proof.
  induction suf as [|k r IH]; intros pre HL Hnd Hrep; [done|].
  cbn [map entries]. rewrite omap_cons'.
  simpl in Hrep. apply Forall_cons in Hrep as [Hk Hr].
  pose proof (has_tag_by_Claude_represents del_tag _ _ Hk) as Hd.
  rewrite a_addr_retag_if, a_is_claude_del_retag_if in Hd. rewrite Hd.
  rewrite (IH (pre ++ [a_addr k])); [| |done|done].
  2:{ by rewrite <- app_assoc. }
  rewrite length_app. simpl. rewrite Nat.add_1_r.
  destruct (a_is_claude del_tag k); simpl; [|done].
  do 2 f_equal. simpl in HL. subst L. apply list_index_middle.
  apply NoDup_app in Hnd as (_ & H & _). intros Hin. apply (H _ Hin). left.
Qed.

Lemma kids_addr_subseteq t : map a_addr (a_kids t) ⊆ flat_map addrs (a_kids t).
Proof.
  intros x (k & -> & Hk)%list_elem_of_fmap.
  apply elem_of_flat_map. exists k. split; [done|apply addrs_root].
Qed.

Lemma expand_addrs_sublist b (ks : list ATree) :
  flat_map addrs (expand b ks) `sublist_of` flat_map addrs ks.
Proof.
  unfold expand. induction ks as [|k ks IH]; simpl; [constructor|].
  rewrite flat_map_app. apply sublist_app; [|done].
  destruct (a_is_claude del_tag k); simpl.
  - destruct k as [a tg att tx tl gs]; simpl. apply sublist_cons.
    rewrite flat_map_concat_map, map_map, <- flat_map_concat_map.
    apply flat_map_sublist, Forall_forall. intros g _. by rewrite addrs_retag.
  - by rewrite app_nil_r, addrs_retag_if.
Qed.

Lemma unwrap_one_eq d parent del_elem del_index s :
  unwrap_one d parent (del_elem, del_index) s
  = for_iter retag_body d s del_elem ≫= fun s1 =>
      Some (remove_child
              (foldl (fun s child => insert_child s parent del_index child)
                     s1 (reverse (children_of s1 del_elem)))
              parent del_elem).
Proof. done. Qed.

Lemma unwrap_fold D a tg att tx tl b :
  ∀ (suf : list ATree) (pre : list nat) (s : Store),
    s !! a = Some (MkObj tg att tx tl (pre ++ map a_addr suf)) →
    Forall (represents s) (map (a_retag_if b) suf) →
    NoDup (a :: flat_map addrs suf) →
    (∀ x, x ∈ pre → x ∉ flat_map addrs suf) →
    Forall (fun k => asize k ≤ D) suf →
    ∃ s', foldr (fun entry acc => s' ← acc; unwrap_one D a entry s')
                (Some s) (entries (length pre) suf) = Some s' ∧
          s' !! a = Some (MkObj tg att tx tl (pre ++ map a_addr (expand b suf))) ∧
          Forall (represents s') (expand b suf) ∧
          frame (a :: flat_map addrs suf) s s'.
Proof.
  induction suf as [|k r IH]; intros pre s Ha Hrep Hnd Hpre HD.
  { exists s. simpl. split_and!; [done|done|constructor|apply frame_refl]. }
  simpl in Hrep, Hnd. apply Forall_cons in Hrep as [Hk Hr].
  apply Forall_cons in HD as [HDk HDr].
  apply NoDup_cons in Hnd as [Hna Hnd].
  apply NoDup_app in Hnd as (Hndk & Hdisj & Hndr).
  rewrite elem_of_app in Hna.
  destruct (IH (pre ++ [a_addr k]) s) as (sm & Hrun & Ham & Hrm & Hfm); try done.
  { by rewrite <- app_assoc. }
  { apply NoDup_cons. split; [tauto|done]. }
  { intros x [Hx | ->%list_elem_of_singleton]%elem_of_app Hin.
    - apply (Hpre x Hx). simpl. apply elem_of_app. by right.
    - apply (Hdisj (a_addr k)); [apply addrs_root|done]. }
  rewrite length_app in Hrun. simpl in Hrun. rewrite Nat.add_1_r in Hrun.
  cbn [entries]. rewrite foldr_app, Hrun.
  assert (Hkm : represents sm (a_retag_if b k)).
  { eapply represents_frame; [done|done|]. rewrite addrs_retag_if.
    intros x Hx [->|Hin]%elem_of_cons; [tauto|]. by apply (Hdisj x). }
  assert (Hak : a_addr k ∉ pre).
  { intros Hin. apply (Hpre _ Hin). simpl. apply elem_of_app. left. apply addrs_root. }
  unfold expand in *. cbn [flat_map].
  destruct (a_is_claude del_tag k) eqn:Hdel.
  - (* a deletion by Claude: rename, splice in, remove *)
    cbn [foldr mbind option_bind]. rewrite unwrap_one_eq.
    destruct (retag_spec D (a_retag_if b k) sm) as (s1 & Hrt & Hr1 & Hf1).
    { unfold asize in *. by rewrite addrs_retag_if. }
    { by rewrite addrs_retag_if. }
    { done. }
    rewrite a_addr_retag_if in Hrt. rewrite Hrt. cbn [mbind option_bind].
    rewrite a_retag_retag_if in Hr1. rewrite addrs_retag_if in Hf1.
    pose proof (represents_children_of _ _ Hr1) as Hch.
    rewrite a_addr_retag in Hch. rewrite Hch.
    assert (Ha1 : s1 !! a = Some (MkObj tg att tx tl
                    (pre ++ a_addr k :: map a_addr
                       (flat_map (fun c => if a_is_claude del_tag c
                                           then map a_retag (a_kids c)
                                           else [a_retag_if b c]) r)))).
    { destruct Hf1 as [_ Hf1]. rewrite Hf1 by tauto.
      rewrite Ham, <- app_assoc. done. }
    destruct (insert_child_fold s1 a tg att tx tl (length pre)
                (reverse (map a_addr (a_kids (a_retag k)))) _ Ha1) as [Ha2 Hf2].
    set (s2 := foldl _ s1 _) in *. rewrite insert_fold in Ha2.
    eexists. split; [done|].
    assert (Ha3 : remove_child s2 a (a_addr k) !! a
                  = Some (MkObj tg att tx tl
                      (pre ++ map a_addr (map a_retag (a_kids k) ++
                         flat_map (fun c => if a_is_claude del_tag c
                                            then map a_retag (a_kids c)
                                            else [a_retag_if b c]) r)))).
    { unfold remove_child. rewrite (children_of_lookup _ _ _ Ha2).
      rewrite (set_children_lookup _ _ _ _ Ha2). cbn [o_tag o_attrib o_text o_tail o_children].
      do 2 f_equal. rewrite app_assoc, list_remove_middle.
      - rewrite <- app_assoc, map_app. do 2 f_equal. by destruct k.
      - rewrite elem_of_app. intros [Hin|Hin]; [done|].
        destruct k as [a' tg' att' tx' tl' gs]. simpl in *.
        apply NoDup_cons in Hndk as [Hn _]. apply Hn.
        rewrite map_map in Hin.
        apply list_elem_of_fmap in Hin as (g & Hg & Hin).
        apply elem_of_flat_map. exists g. split; [done|].
        rewrite Hg, a_addr_retag. apply addrs_root. }
    assert (Hf3 : frame [a] s1 (remove_child s2 a (a_addr k))).
    { eapply frame_trans; [done|apply set_children_frame]. }
    split_and!; [done| |].
    + apply Forall_app. split.
      * pose proof (represents_kids _ _ Hr1) as Hks.
        assert (a_kids (a_retag k) = map a_retag (a_kids k)) as Heq by (by destruct k).
        rewrite Heq in Hks. rewrite Forall_forall in Hks |- *. intros g Hg.
        eapply represents_frame; [by apply Hks|done|].
        intros x Hx ->%list_elem_of_singleton. apply Hna. left.
        apply list_elem_of_fmap in Hg as (g' & -> & Hg'). rewrite addrs_retag in Hx.
        destruct k as [a' tg' att' tx' tl' gs]. simpl in *. right.
        apply elem_of_flat_map. eauto.
      * rewrite Forall_forall in Hrm |- *. intros y Hy.
        assert (Hsub : addrs y ⊆ flat_map addrs r).
        { intros x Hx. apply (sublist_subseteq _ _ (expand_addrs_sublist b r)).
          apply elem_of_flat_map. eauto. }
        eapply represents_frame; [|exact Hf3|].
        -- eapply represents_frame; [by apply Hrm|exact Hf1|].
           intros x Hx Hxk. by apply (Hdisj x Hxk), Hsub.
        -- intros x Hx ->%list_elem_of_singleton. apply Hna. right. by apply Hsub.
    + eapply frame_trans; [eapply frame_mono; [|exact Hfm]|].
      { simpl. set_solver. }
      eapply frame_trans; (eapply frame_mono; [|done]); simpl; set_solver.
  - (* any other child stays *)
    cbn [foldr app]. exists sm. split; [done|]. split_and!.
    + rewrite Ham, <- app_assoc. simpl. by rewrite a_addr_retag_if.
    + apply Forall_cons. split; [done|done].
    + eapply frame_mono; [|done]. simpl. set_solver.
Qed.

Lemma a_retag_if_node b a tg att tx tl ks :
  a_retag_if b (ANode a tg att tx tl ks)
  = ANode a (if b then Redlining.retag_name tg else tg) att tx tl
          (map (a_retag_if b) ks).
Proof. destruct b; simpl; [done|]. by rewrite map_id. Qed.

Lemma unwrap_body_eq d s parent :
  unwrap_body d s parent
  = foldr (fun entry acc => s' ← acc; unwrap_one d parent entry s') (Some s)
      (omap (fun child =>
               if has_tag_by_Claude del_tag s child
               then Some (child, list_index child (children_of s parent)) else None)
            (children_of s parent)).
Proof. done. Qed.

Lemma NoDup_kid_addrs a (ks : list ATree) :
  NoDup (a :: flat_map addrs ks) → NoDup (map a_addr ks).
Proof.
  intros [_ Hnd]%NoDup_cons.
  induction ks as [|k ks IH]; simpl in *; [constructor|].
  apply NoDup_app in Hnd as (H1 & H2 & H3). apply NoDup_cons. split; [|auto].
  intros (k' & Hk' & Hin)%list_elem_of_fmap.
  apply (H2 (a_addr k)); [apply addrs_root|].
  apply elem_of_flat_map. exists k'. split; [done|]. rewrite Hk'. apply addrs_root.
Qed.

Lemma unwrap_spec D d :
  ∀ t b s, asize t ≤ d → asize t ≤ D → NoDup (addrs t) →
    represents s (a_retag_if b t) →
    ∃ s', for_iter (unwrap_body D) d s (a_addr t) = Some s' ∧
          represents s' (a_unwrap_dels b t) ∧ frame (addrs t) s s'.
Proof.
  induction d as [|d IH]; intros t b s Hd HD Hnd Hrep.
  { destruct t; unfold asize in Hd; simpl in Hd; lia. }
  destruct t as [a tg att tx tl ks]. simpl in Hnd.
  cbn [a_addr a_unwrap_dels addrs]. rewrite a_retag_if_node in Hrep.
  pose proof (represents_root _ _ Hrep) as Ha. unfold obj_of in Ha; simpl in Ha.
  rewrite map_map in Ha. erewrite (map_ext _ a_addr) in Ha
    by (intros; apply a_addr_retag_if).
  pose proof (represents_kids _ _ Hrep) as Hks. simpl in Hks.
  rewrite for_iter_S, unwrap_body_eq, (children_of_lookup _ _ _ Ha). cbn [o_children].
  rewrite (to_process_entries s b _ ks []); [|done|by eapply NoDup_kid_addrs|done].
  destruct (unwrap_fold D a (if b then Redlining.retag_name tg else tg)
              att tx tl b ks [] s) as (s1 & Hrun & Ha1 & Hks1 & Hf1); try done.
  { intros x Hx. by apply not_elem_of_nil in Hx. }
  { apply Forall_forall. intros k Hk.
    apply (asize_kid_lt (ANode a tg att tx tl ks)) in Hk. lia. }
  cbn [length app] in Hrun, Ha1 |- *. rewrite Hrun. cbn [mbind option_bind].
  assert (Hsub : flat_map addrs (expand b ks) `sublist_of` flat_map addrs ks)
    by apply expand_addrs_sublist.
  destruct (node_spec (for_iter (unwrap_body D) d) s1 a
              (if b then Redlining.retag_name tg else tg) att tx tl (expand b ks)
              (flat_map (fun c => if a_is_claude del_tag c
                                  then map (a_unwrap_dels true) (a_kids c)
                                  else [a_unwrap_dels b c]) ks))
    as (s' & Hrun' & Hrep' & Hf2); try done.
  { apply NoDup_cons in Hnd as [Hn Hnd]. apply NoDup_cons. split.
    - intros Hin. apply Hn. by apply (sublist_subseteq _ _ Hsub).
    - by apply (sublist_NoDup _ _ Hnd Hsub). }
  { unfold expand.
    assert (Hall : ∀ k, k ∈ ks → k ∈ ks) by done. revert Hall.
    generalize ks at 1 3 4. intros l Hl.
    induction l as [|k l IHl]; simpl; [constructor|].
    apply Forall2_app; [|apply IHl; intros; apply Hl; by right].
    assert (Hk : k ∈ ks) by (apply Hl; left).
    pose proof (asize_kid_lt (ANode a tg att tx tl ks) k Hk) as Hlt.
    pose proof (NoDup_kid _ _ _ Hnd Hk) as Hndk.
    destruct (a_is_claude del_tag k).
    - apply Forall2_fmap, Forall_Forall2_diag, Forall_forall. intros g Hg.
      pose proof (asize_kid_lt k g Hg) as Hlt'.
      split_and!.
      + by rewrite a_addr_unwrap_dels, a_addr_retag.
      + rewrite addrs_retag. apply sublist_subseteq, addrs_unwrap_dels_sublist.
      + intros s2 Hs2. rewrite a_addr_retag, addrs_retag.
        apply (IH g true); [lia|lia| |done].
        destruct k as [a' tg' att' tx' tl' gs]. simpl in *.
        by eapply NoDup_kid.
    - constructor; [|constructor]. split_and!.
      + by rewrite a_addr_unwrap_dels, a_addr_retag_if.
      + rewrite addrs_retag_if. apply sublist_subseteq, addrs_unwrap_dels_sublist.
      + intros s2 Hs2. rewrite a_addr_retag_if, addrs_retag_if.
        apply (IH k b); [lia|lia|done|done]. }
  exists s'. split_and!; [done|done|].
  eapply frame_trans; [done|]. eapply frame_mono; [|done].
  intros x Hx. right. by apply (sublist_subseteq _ _ Hsub).
Qed.

(** *** Parsed documents *)

Lemma annotate_eq a tg att tx tl cs :
  annotate a (Elem tg att tx tl cs) = ANode a tg att tx tl (annotate_list (S a) cs).
Proof. done. Qed.

Lemma load_at_eq a tg att tx tl cs :
  load_at a (Elem tg att tx tl cs)
  = MkObj tg att tx tl (load_list (S a) cs).1 :: (load_list (S a) cs).2.
Proof. done. Qed.

Lemma size_eq tg att tx tl cs : size (Elem tg att tx tl cs) = S (forest_size cs).
Proof. done. Qed.

Lemma load_at_length e : ∀ a, length (load_at a e) = size e.
Proof.
  induction e as [tg att tx tl cs IH] using Element_ind'. intros a.
  rewrite load_at_eq, size_eq. cbn [length]. f_equal.
  generalize (S a). unfold forest_size.
  induction IH as [|c cs Hc _ IHcs]; intros b; simpl; [done|].
  by rewrite length_app, Hc, IHcs.
Qed.

Lemma load_list_addrs cs : ∀ a, (load_list a cs).1 = map a_addr (annotate_list a cs).
Proof.
  induction cs as [|c cs IH]; intros a; simpl; [done|].
  rewrite load_at_length, IH. by destruct c.
Qed.

Lemma annotate_addrs e : ∀ a, addrs (annotate a e) = seq a (size e).
Proof.
  induction e as [tg att tx tl cs IH] using Element_ind'. intros a.
  rewrite annotate_eq, size_eq. cbn [addrs seq]. f_equal.
  generalize (S a). unfold forest_size.
  induction IH as [|c cs Hc _ IHcs]; intros b; simpl; [done|].
  by rewrite Hc, IHcs, seq_app.
Qed.

Lemma erase_annotate e : ∀ a, erase (annotate a e) = e.
Proof.
  induction e as [tg att tx tl cs IH] using Element_ind'. intros a.
  rewrite annotate_eq. cbn [erase]. f_equal. generalize (S a).
  induction IH as [|c cs Hc _ IHcs]; intros b; simpl; [done|].
  by rewrite Hc, IHcs.
Qed.

Lemma load_represents e :
  ∀ pre post,
    represents (pre ++ load_at (length pre) e ++ post) (annotate (length pre) e).
Proof.
  induction e as [tg att tx tl cs IH] using Element_ind'. intros pre post.
  rewrite annotate_eq, load_at_eq. apply represents_unfold. split.
  - cbn [a_addr]. rewrite <- app_comm_cons, list_lookup_middle by done.
    unfold obj_of. cbn. by rewrite load_list_addrs.
  - cbn [a_kids].
    change (pre ++ (MkObj tg att tx tl (load_list (S (length pre)) cs).1
                      :: (load_list (S (length pre)) cs).2) ++ post)
      with (pre ++ [MkObj tg att tx tl (load_list (S (length pre)) cs).1]
                ++ (load_list (S (length pre)) cs).2 ++ post).
    rewrite app_assoc.
    replace (S (length pre))
      with (length (pre ++ [MkObj tg att tx tl (load_list (S (length pre)) cs).1]))
      at 2 3 by (rewrite length_app; simpl; lia).
    generalize (pre ++ [MkObj tg att tx tl (load_list (S (length pre)) cs).1]).
    clear pre. intros pre. revert pre post.
    induction IH as [|c cs Hc _ IHcs]; intros pre post; simpl; [constructor|].
    constructor.
    + rewrite <- (app_assoc (load_at _ _)). apply Hc.
    + rewrite load_at_length.
      specialize (IHcs (pre ++ load_at (length pre) c) post).
      rewrite length_app, load_at_length in IHcs.
      by rewrite <- !app_assoc in IHcs |- *.
Qed.

Lemma snapshot_spec d :
  ∀ t s, asize t ≤ d → represents s t → snapshot d s (a_addr t) = Some (erase t).
Proof.
  induction d as [|d IH]; intros t s Hd Hrep.
  { destruct t; unfold asize in Hd; simpl in Hd; lia. }
  pose proof (represents_root _ _ Hrep) as Ha.
  pose proof (represents_kids _ _ Hrep) as Hks.
  destruct t as [a tg att tx tl ks]. cbn [a_addr a_kids erase] in *.
  cbn [snapshot]. rewrite Ha. cbn [mbind option_bind obj_of o_children a_kids].
  erewrite (mapM_Some_2 _ _ (map erase ks)); [done|].
  apply Forall2_fmap, Forall_Forall2_diag, Forall_forall. intros k Hk.
  rewrite Forall_forall in Hks. apply IH; [|by apply Hks].
  apply (asize_kid_lt (ANode a tg att tx tl ks)) in Hk. lia.
Qed.

(** *** The store run and the tree functions agree *)

(** A document parsed into any store, at any place of it: the resolver
    ends, the store keeps its size, the tree below the root is then
    [Redlining.resolve] of the document, and no object outside the
    document's block has changed. *)
Lemma remove_claude_tracked_changes_spec (pre post : list Obj) (e : Element) :
  ∃ s', _remove_claude_tracked_changes
          (pre ++ load_at (length pre) e ++ post) (length pre) = Some s' ∧
        length s' = length (pre ++ load_at (length pre) e ++ post) ∧
        snapshot (length s') s' (length pre) = Some (Redlining.resolve e) ∧
        ∀ a, a < length pre ∨ length pre + size e ≤ a →
             s' !! a = (pre ++ load_at (length pre) e ++ post) !! a.
Proof.
  pose proof (load_represents e pre post) as Hrep.
  set (s := pre ++ load_at (length pre) e ++ post) in *.
  set (t0 := annotate (length pre) e) in *.
  assert (Haddrs : addrs t0 = seq (length pre) (size e))
    by (unfold t0; apply annotate_addrs).
  assert (Hsz : asize t0 ≤ length s).
  { unfold asize, s. rewrite Haddrs, length_seq, !length_app, load_at_length. lia. }
  assert (Hnd : NoDup (addrs t0)) by (rewrite Haddrs; apply NoDup_seq).
  assert (Hroot : a_addr t0 = length pre) by (unfold t0; by destruct e).
  destruct (remove_ins_spec (length s) t0 s) as (s1 & H1 & Hr1 & Hf1);
    [done|done|done|].
  pose proof (sublist_length _ _ (addrs_remove_ins_sublist t0)) as Hl1.
  destruct (unwrap_spec (length s) (length s) (a_remove_ins t0) false s1)
    as (s2 & H2 & Hr2 & Hf2).
  { unfold asize in *. lia. }
  { unfold asize in *. lia. }
  { eapply sublist_NoDup; [done|apply addrs_remove_ins_sublist]. }
  { done. }
  exists s2. unfold _remove_claude_tracked_changes.
  rewrite a_addr_remove_ins in H2. rewrite Hroot in H1, H2.
  rewrite H1. cbn [mbind option_bind].
  pose proof (sublist_length _ _
                (addrs_unwrap_dels_sublist false (a_remove_ins t0))) as Hl2.
  destruct Hf1 as [L1 F1]. destruct Hf2 as [L2 F2].
  split_and!; [done|congruence| |].
  - pose proof (snapshot_spec (length s2)
                  (a_unwrap_dels false (a_remove_ins t0)) s2) as Hsnap.
    rewrite a_addr_unwrap_dels, a_addr_remove_ins, Hroot in Hsnap.
    rewrite Hsnap; [|unfold asize in *; lia|done].
    unfold Redlining.resolve, t0.
    by rewrite erase_unwrap_dels, erase_remove_ins, erase_annotate.
  - intros a Ha.
    assert (Hout : a ∉ addrs t0) by (rewrite Haddrs, elem_of_seq; lia).
    rewrite F2, F1; [done|done|].
    intros Hin. apply Hout. by apply (sublist_subseteq _ _ (addrs_remove_ins_sublist t0)).
Qed.

Lemma run_resolve e : run e = Some (Redlining.resolve e).
Proof.
  destruct (remove_claude_tracked_changes_spec [] [] e) as (s' & H1 & _ & H2 & _).
  cbn [length app] in H1, H2. rewrite app_nil_r in H1.
  unfold run, load. rewrite H1. done.
Qed.

End Refinement.

(** ** What resolution does to the extracted text *)

Module Projection.
Import Redlining Collected.

(** *** Trees *)

Lemma flat_map_ext_elem {A B} (f g : A → list B) (l : list A) :
  (∀ x, x ∈ l → f x = g x) → flat_map f l = flat_map g l.
Proof.
  induction l as [|x l IH]; intros H; simpl; [done|].
  rewrite H by left. f_equal. apply IH. intros y Hy. apply H. by right.
Qed.

Lemma flat_map_flat_map {A B C} (f : A → list B) (g : B → list C) (l : list A) :
  flat_map g (flat_map f l) = flat_map (fun x => flat_map g (f x)) l.
Proof.
  induction l as [|x l IH]; simpl; [done|]. by rewrite flat_map_app, IH.
Qed.

Lemma flat_map_map {A B C} (f : A → B) (g : B → list C) (l : list A) :
  flat_map g (map f l) = flat_map (fun x => g (f x)) l.
Proof. induction l as [|x l IH]; simpl; [done|]. by rewrite IH. Qed.

Lemma size_child tg att tx tl cs c :
  c ∈ cs → size c < size (Elem tg att tx tl cs).
Proof.
  intros Hc. simpl. apply Nat.lt_succ_r.
  induction Hc as [c cs | c y cs _ IH]; simpl; lia.
Qed.

Lemma Element_size_ind (P : Element → Prop) :
  (∀ e, (∀ u, size u < size e → P u) → P e) → ∀ e, P e.
Proof. intros H e. induction e as [e IH] using (induction_ltof1 _ size). by apply H. Qed.

Lemma descendants_eq tg att tx tl cs :
  descendants (Elem tg att tx tl cs) = flat_map (fun c => c :: descendants c) cs.
Proof. done. Qed.

Lemma is_claude_ins_remove_ins e : is_claude_ins (remove_ins e) = is_claude_ins e.
Proof. by destruct e. Qed.

Lemma is_claude_del_remove_ins e : is_claude_del (remove_ins e) = is_claude_del e.
Proof. by destruct e. Qed.

Lemma children_remove_ins e :
  children (remove_ins e)
  = flat_map (fun c => if is_claude_ins c then [] else [remove_ins c]) (children e).
Proof. by destruct e. Qed.

Lemma tag_ne (a b : string) : bool_decide (a = b) = false → a ≠ b.
Proof. apply bool_decide_eq_false_1. Qed.

Lemma deltext_ne_t : deltext_tag ≠ t_tag.
Proof. apply tag_ne. by vm_compute. Qed.
Lemma deltext_ne_p : deltext_tag ≠ p_tag.
Proof. apply tag_ne. by vm_compute. Qed.
Lemma deltext_ne_del : deltext_tag ≠ del_tag.
Proof. apply tag_ne. by vm_compute. Qed.
Lemma deltext_ne_ins : deltext_tag ≠ ins_tag.
Proof. apply tag_ne. by vm_compute. Qed.
Lemma t_ne_p : t_tag ≠ p_tag.
Proof. apply tag_ne. by vm_compute. Qed.
Lemma t_ne_del : t_tag ≠ del_tag.
Proof. apply tag_ne. by vm_compute. Qed.
Lemma t_ne_ins : t_tag ≠ ins_tag.
Proof. apply tag_ne. by vm_compute. Qed.
Lemma p_ne_del : p_tag ≠ del_tag.
Proof. apply tag_ne. by vm_compute. Qed.
Lemma ins_ne_del : ins_tag ≠ del_tag.
Proof. apply tag_ne. by vm_compute. Qed.

Lemma tag_unwrap_dels b e : tag (unwrap_dels b e) = tag_in b (tag e).
Proof. by destruct e. Qed.
Lemma attrib_unwrap_dels b e : attrib (unwrap_dels b e) = attrib e.
Proof. by destruct e. Qed.
Lemma text_unwrap_dels b e : text (unwrap_dels b e) = text e.
Proof. by destruct e. Qed.
Lemma tag_remove_ins e : tag (remove_ins e) = tag e.
Proof. by destruct e. Qed.
Lemma attrib_remove_ins e : attrib (remove_ins e) = attrib e.
Proof. by destruct e. Qed.
Lemma text_remove_ins e : text (remove_ins e) = text e.
Proof. by destruct e. Qed.

Lemma tag_in_eq b tg x :
  x ≠ deltext_tag → x ≠ t_tag → tag_in b tg = x ↔ tg = x.
Proof.
  intros H1 H2. unfold tag_in, retag_name. destruct b; [|done].
  case_bool_decide; split; congruence.
Qed.

Lemma tag_in_ne_deltext tg : tag_in true tg ≠ deltext_tag.
Proof.
  unfold tag_in, retag_name. case_bool_decide; [|done].
  intros H'. by apply deltext_ne_t.
Qed.

Lemma is_claude_del_unwrap_dels b e :
  is_claude_del (unwrap_dels b e) = is_claude_del e.
Proof.
  unfold is_claude_del. rewrite tag_unwrap_dels, attrib_unwrap_dels. f_equal.
  apply bool_decide_ext, tag_in_eq; [apply not_eq_sym, deltext_ne_del|apply not_eq_sym, t_ne_del].
Qed.

Lemma is_claude_ins_unwrap_dels b e :
  is_claude_ins (unwrap_dels b e) = is_claude_ins e.
Proof.
  unfold is_claude_ins. rewrite tag_unwrap_dels, attrib_unwrap_dels. f_equal.
  apply bool_decide_ext, tag_in_eq; [apply not_eq_sym, deltext_ne_ins|apply not_eq_sym, t_ne_ins].
Qed.

(** [unwrap_dels true] is the second loop on a subtree renamed
    beforehand. *)
Lemma retag_name_idemp tg : retag_name (retag_name tg) = retag_name tg.
Proof.
  unfold retag_name. destruct (decide (tg = deltext_tag)) as [H|H].
  - rewrite (bool_decide_eq_true_2 _ H).
    by rewrite (bool_decide_eq_false_2 _ (not_eq_sym deltext_ne_t)).
  - by rewrite !(bool_decide_eq_false_2 _ H).
Qed.

Lemma is_claude_del_retag e : is_claude_del (retag e) = is_claude_del e.
Proof.
  destruct e as [tg att tx tl cs]. unfold is_claude_del. cbn [retag tag attrib].
  f_equal. apply bool_decide_ext. apply (tag_in_eq true).
  - apply not_eq_sym, deltext_ne_del.
  - apply not_eq_sym, t_ne_del.
Qed.

Lemma children_retag e : children (retag e) = map retag (children e).
Proof. by destruct e. Qed.

Lemma unwrap_dels_true_retag : ∀ e, unwrap_dels true (retag e) = unwrap_dels true e.
Proof.
  induction e as [e IH] using Element_size_ind.
  destruct e as [tg att tx tl cs]. cbn [retag unwrap_dels]. f_equal.
  - apply retag_name_idemp.
  - rewrite flat_map_map. apply flat_map_ext_elem. intros c Hc.
    pose proof (size_child tg att tx tl cs c Hc) as Hlt.
    rewrite is_claude_del_retag. destruct (is_claude_del c).
    + rewrite children_retag, map_map. apply map_ext_in. intros g Hg%list_elem_of_In.
      apply IH. assert (size g < size c) by (destruct c; by eapply size_child). lia.
    + f_equal. by apply IH.
Qed.

Lemma unwrap_dels_inside : ∀ e, unwrap_dels true e = unwrap_dels false (retag e).
Proof.
  induction e as [tg att tx tl cs IH] using Element_ind'.
  cbn [retag unwrap_dels]. f_equal. rewrite flat_map_map.
  rewrite Forall_forall in IH. apply flat_map_ext_elem. intros c Hc.
  rewrite is_claude_del_retag. destruct (is_claude_del c).
  - rewrite children_retag, map_map. apply map_ext. intros g.
    symmetry. apply unwrap_dels_true_retag.
  - f_equal. by apply IH.
Qed.

(** *** Collecting over the descendants *)

Section Collect.
Context {X : Type} (own : Element → list X).

Lemma collect_eq tg att tx tl cs :
  collect own (Elem tg att tx tl cs) = flat_map (fun c => own c ++ collect own c) cs.
Proof. unfold collect. by rewrite descendants_eq, flat_map_flat_map. Qed.

Lemma collect_children e :
  collect own e = flat_map (fun c => own c ++ collect own c) (children e).
Proof. destruct e. apply collect_eq. Qed.

Lemma rcollect_eq b e : rcollect own b e = rcollect_forest own b (children e).
Proof. by destruct e. Qed.

Hypothesis own_del : ∀ x, is_claude_del x = true → own x = [].

Lemma collect_resolved :
  ∀ e b, collect own (unwrap_dels b (remove_ins e)) = rcollect own b e.
Proof.
  induction e as [e IH] using Element_size_ind. intros b.
  destruct e as [tg att tx tl cs]. cbn [remove_ins unwrap_dels rcollect].
  rewrite collect_eq, !flat_map_flat_map.
  apply flat_map_ext_elem. intros c Hc.
  pose proof (size_child tg att tx tl cs c Hc) as Hlt.
  destruct (is_claude_ins c) eqn:Hins; [done|]. cbn [flat_map]. rewrite app_nil_r.
  rewrite is_claude_del_remove_ins. destruct (is_claude_del c) eqn:Hdel.
  - rewrite children_remove_ins, flat_map_map, flat_map_flat_map, rcollect_eq.
    apply flat_map_ext_elem. intros g Hg.
    assert (size g < size c) by (destruct c; by eapply size_child).
    destruct (is_claude_ins g) eqn:Hgi; [done|]. cbn [flat_map]. rewrite app_nil_r.
    rewrite IH by lia. destruct (is_claude_del g) eqn:Hgd; [|done].
    rewrite own_del; [done|].
    by rewrite is_claude_del_unwrap_dels, is_claude_del_remove_ins.
  - cbn [flat_map]. rewrite app_nil_r. by rewrite IH by lia.
Qed.

End Collect.

(** *** Text parts and paragraphs as collections *)

Lemma omap_filter_flat_map {A B} (P : A → Prop) `{∀ x, Decision (P x)}
    (f : A → option B) (l : list A) :
  omap f (filter P l)
  = flat_map (fun x => if bool_decide (P x) then option_list (f x) else []) l.
Proof.
  induction l as [|x l IH]; [done|].
  rewrite filter_cons. cbn [flat_map]. rewrite <- IH.
  destruct (decide (P x)) as [Hx|Hx].
  - rewrite bool_decide_eq_true_2 by done.
    change (omap f (x :: filter P l))
      with (match f x with Some y => y :: omap f (filter P l) | None => omap f (filter P l) end).
    by destruct (f x).
  - by rewrite bool_decide_eq_false_2 by done.
Qed.

Lemma text_parts_collect e : text_parts e = collect own_text e.
Proof.
  unfold text_parts, collect, findall. rewrite omap_filter_flat_map.
  apply flat_map_ext. intros x. unfold own_text.
  case_bool_decide; [|done]. by destruct (truthy (text x)).
Qed.

Lemma map_filter_flat_map {A B} (P : A → Prop) `{∀ x, Decision (P x)}
    (f : A → B) (l : list A) :
  map f (filter P l) = flat_map (fun x => if bool_decide (P x) then [f x] else []) l.
Proof.
  induction l as [|x l IH]; [done|].
  rewrite filter_cons. cbn [flat_map]. rewrite <- IH.
  destruct (decide (P x)) as [Hx|Hx].
  - by rewrite bool_decide_eq_true_2 by done.
  - by rewrite bool_decide_eq_false_2 by done.
Qed.

Lemma paragraphs_collect e : paragraphs e = collect own_par e.
Proof. unfold paragraphs, collect, findall. by rewrite map_filter_flat_map. Qed.

Lemma own_text_del x : is_claude_del x = true → own_text x = [].
Proof.
  unfold is_claude_del, own_text. intros [Ht%bool_decide_eq_true _]%andb_prop.
  rewrite bool_decide_eq_false_2; [done|]. rewrite Ht. apply not_eq_sym, t_ne_del.
Qed.

Lemma own_par_del x : is_claude_del x = true → own_par x = [].
Proof.
  unfold is_claude_del, own_par. intros [Ht%bool_decide_eq_true _]%andb_prop.
  rewrite bool_decide_eq_false_2; [done|]. rewrite Ht. apply not_eq_sym, p_ne_del.
Qed.

(** The text parts and the paragraphs of a resolved tree. *)
Lemma text_parts_resolved b e :
  text_parts (unwrap_dels b (remove_ins e)) = rcollect own_text b e.
Proof. rewrite text_parts_collect. apply collect_resolved, own_text_del. Qed.

Lemma paragraphs_resolved b e :
  paragraphs (unwrap_dels b (remove_ins e)) = rcollect own_par b e.
Proof. rewrite paragraphs_collect. apply collect_resolved, own_par_del. Qed.

(** *** Trees on which resolution changes no text *)

Lemma settled_eq b e :
  settled b e = forallb (fun c => negb (is_claude_ins c)
                                  && negb (b && bool_decide (tag c = deltext_tag))
                                  && settled (b || is_claude_del c) c) (children e).
Proof. by destruct e. Qed.

Lemma forallb_elem {A} (f : A → bool) (l : list A) :
  forallb f l = true ↔ ∀ x, x ∈ l → f x = true.
Proof.
  rewrite forallb_forall. split; intros H x Hx; apply H; by apply list_elem_of_In.
Qed.

Lemma forallb_flat_map {A B} (f : B → bool) (g : A → list B) (l : list A) :
  forallb f (flat_map g l) = forallb (fun x => forallb f (g x)) l.
Proof.
  induction l as [|x l IH]; simpl; [done|]. by rewrite forallb_app, IH.
Qed.

Lemma forallb_ext_elem {A} (f g : A → bool) (l : list A) :
  (∀ x, x ∈ l → f x = g x) → forallb f l = forallb g l.
Proof.
  induction l as [|x l IH]; intros H; simpl; [done|].
  rewrite H by left. f_equal. apply IH. intros y Hy. apply H. by right.
Qed.

Section Settled.
Context {X : Type} (own : Element → list X).
Hypothesis own_del : ∀ x, is_claude_del x = true → own x = [].
Hypothesis own_settled : ∀ b c,
  settled b c = true → is_claude_ins c = false → is_claude_del c = false →
  (b && bool_decide (tag c = deltext_tag)) = false →
  own (unwrap_dels b (remove_ins c)) = own c.

Lemma rcollect_settled : ∀ e b, settled b e = true → rcollect own b e = collect own e.
Proof.
  induction e as [tg att tx tl cs IH] using Element_ind'. intros b Hs.
  rewrite collect_eq. cbn [rcollect]. cbn [settled] in Hs.
  rewrite forallb_elem in Hs. rewrite Forall_forall in IH.
  apply flat_map_ext_elem. intros c Hc.
  specialize (Hs c Hc). apply andb_prop in Hs as [[Hi Ht]%andb_prop Hsc].
  apply negb_true_iff in Hi, Ht. rewrite Hi.
  destruct (is_claude_del c) eqn:Hd.
  - rewrite orb_true_r in Hsc. rewrite (own_del c Hd). simpl. by apply IH.
  - rewrite orb_false_r in Hsc. rewrite own_settled by done. f_equal. by apply IH.
Qed.
End Settled.

Lemma tag_in_settled b tg :
  (b && bool_decide (tg = deltext_tag)) = false → tag_in b tg = tg.
Proof.
  unfold tag_in, retag_name. destruct b; [|done]. simpl. by intros ->.
Qed.

Lemma text_parts_settled b e :
  settled b e = true → rcollect own_text b e = text_parts e.
Proof.
  intros Hs. rewrite text_parts_collect. apply rcollect_settled; [apply own_text_del| |done].
  intros b' c _ _ _ Ht. unfold own_text.
  by rewrite tag_unwrap_dels, text_unwrap_dels, tag_remove_ins, text_remove_ins,
    tag_in_settled.
Qed.

Lemma paragraphs_settled b e :
  settled b e = true → rcollect own_par b e = paragraphs e.
Proof.
  intros Hs. rewrite paragraphs_collect. apply rcollect_settled; [apply own_par_del| |done].
  intros b' c Hc _ _ Ht. unfold own_par, paragraph_text.
  rewrite tag_unwrap_dels, tag_remove_ins, tag_in_settled by done.
  by rewrite text_parts_resolved, text_parts_settled.
Qed.

(** *** A resolved tree is settled *)

Lemma no_ins_remove_ins e : no_ins (remove_ins e) = true.
Proof.
  induction e as [tg att tx tl cs IH] using Element_ind'. cbn [remove_ins no_ins].
  rewrite forallb_flat_map. apply forallb_elem. intros c Hc.
  rewrite Forall_forall in IH.
  destruct (is_claude_ins c) eqn:Hi; [done|]. cbn [forallb].
  by rewrite is_claude_ins_remove_ins, Hi, IH.
Qed.

Lemma no_ins_child e c : no_ins e = true → c ∈ children e → no_ins c = true.
Proof.
  destruct e as [tg att tx tl cs]. cbn [no_ins children].
  rewrite forallb_elem. intros H Hc. by apply H, andb_prop in Hc as [_ ?].
Qed.

Lemma no_ins_child_ins e c :
  no_ins e = true → c ∈ children e → is_claude_ins c = false.
Proof.
  destruct e as [tg att tx tl cs]. cbn [no_ins children].
  rewrite forallb_elem. intros H Hc.
  by apply H, andb_prop in Hc as [?%negb_true_iff _].
Qed.

Lemma settled_unwrap_true :
  ∀ x, no_ins x = true → settled true (unwrap_dels true x) = true.
Proof.
  induction x as [x IH] using Element_size_ind. intros Hn.
  destruct x as [tg att tx tl cs]. cbn [unwrap_dels settled].
  rewrite forallb_flat_map. apply forallb_elem. intros c Hc.
  pose proof (size_child tg att tx tl cs c Hc) as Hlt.
  pose proof (no_ins_child _ c Hn Hc) as Hnc.
  pose proof (no_ins_child_ins _ c Hn Hc) as Hic.
  destruct (is_claude_del c) eqn:Hd.
  - apply forallb_elem. intros g' (g & -> & Hg)%list_elem_of_fmap.
    assert (size g < size c) by (destruct c; by eapply size_child).
    rewrite is_claude_ins_unwrap_dels, (no_ins_child_ins _ g Hnc Hg).
    rewrite tag_unwrap_dels, (bool_decide_eq_false_2 _ (tag_in_ne_deltext _)).
    cbn [negb andb orb]. apply IH; [lia|by eapply no_ins_child].
  - cbn [forallb]. rewrite is_claude_ins_unwrap_dels, Hic.
    rewrite tag_unwrap_dels, (bool_decide_eq_false_2 _ (tag_in_ne_deltext _)).
    cbn [negb andb orb]. rewrite andb_true_r. by apply IH.
Qed.

Lemma settled_mono : ∀ e, settled true e = true → settled false e = true.
Proof.
  induction e as [tg att tx tl cs IH] using Element_ind'. cbn [settled].
  rewrite !forallb_elem. rewrite Forall_forall in IH. intros H c Hc.
  specialize (H c Hc). apply andb_prop in H as [[Hi _]%andb_prop Hs].
  rewrite Hi. cbn [andb negb orb] in *.
  destruct (is_claude_del c); [done|]. by apply IH.
Qed.

Lemma settled_unwrap_false :
  ∀ x, no_ins x = true → settled false (unwrap_dels false x) = true.
Proof.
  induction x as [tg att tx tl cs IH] using Element_ind'. intros Hn.
  cbn [unwrap_dels settled]. rewrite Forall_forall in IH.
  rewrite forallb_flat_map. apply forallb_elem. intros c Hc.
  pose proof (no_ins_child _ c Hn Hc) as Hnc.
  pose proof (no_ins_child_ins _ c Hn Hc) as Hic.
  destruct (is_claude_del c) eqn:Hd.
  - apply forallb_elem. intros g' (g & -> & Hg)%list_elem_of_fmap.
    rewrite is_claude_ins_unwrap_dels, (no_ins_child_ins _ g Hnc Hg).
    cbn [negb andb orb].
    pose proof (settled_unwrap_true g (no_ins_child _ g Hnc Hg)) as Hst.
    destruct (is_claude_del (unwrap_dels true g)); [done|by apply settled_mono].
  - cbn [forallb]. rewrite is_claude_ins_unwrap_dels, Hic.
    rewrite is_claude_del_unwrap_dels, Hd.
    cbn [negb andb orb]. rewrite andb_true_r. by apply IH.
Qed.

Lemma settled_resolve e : settled false (resolve e) = true.
Proof. apply settled_unwrap_false, no_ins_remove_ins. Qed.

(** Resolving a resolved tree changes none of its paragraphs. *)
Lemma paragraphs_resolve_twice e :
  paragraphs (resolve (resolve e)) = paragraphs (resolve e).
Proof.
  unfold resolve at 1. rewrite paragraphs_resolved.
  apply paragraphs_settled, settled_resolve.
Qed.

(** *** Trees without changes by Claude *)

Lemma Forall_flat_map {A B} (P : B → Prop) (f : A → list B) (l : list A) :
  Forall P (flat_map f l) ↔ Forall (fun x => Forall P (f x)) l.
Proof.
  induction l as [|x l IH]; simpl; [by split; constructor|].
  by rewrite Forall_app, Forall_cons, IH.
Qed.

Lemma unmarked_children tg att tx tl cs :
  unmarked (Elem tg att tx tl cs) ↔
  Forall (fun c => (is_claude_ins c = false ∧ is_claude_del c = false) ∧ unmarked c) cs.
Proof.
  unfold unmarked. rewrite descendants_eq, Forall_flat_map.
  apply Forall_iff. intros c. by rewrite Forall_cons.
Qed.

Lemma remove_ins_unmarked e : unmarked e → remove_ins e = e.
Proof.
  induction e as [tg att tx tl cs IH] using Element_ind'.
  intros Hu%unmarked_children. cbn [remove_ins]. f_equal.
  induction cs as [|c cs IHcs]; [done|].
  apply Forall_cons in Hu as [[[Hi _] Hc] Hu]. apply Forall_cons in IH as [IHc IH].
  cbn [flat_map]. rewrite Hi, IHc, IHcs by done. done.
Qed.

Lemma unwrap_dels_unmarked e : unmarked e → unwrap_dels false e = e.
Proof.
  induction e as [tg att tx tl cs IH] using Element_ind'.
  intros Hu%unmarked_children. cbn [unwrap_dels]. f_equal.
  induction cs as [|c cs IHcs]; [done|].
  apply Forall_cons in Hu as [[[_ Hd] Hc] Hu]. apply Forall_cons in IH as [IHc IH].
  cbn [flat_map]. rewrite Hd, IHc, IHcs by done. done.
Qed.

Lemma resolve_unmarked e : unmarked e → resolve e = e.
Proof.
  intros H. unfold resolve. by rewrite remove_ins_unmarked, unwrap_dels_unmarked.
Qed.

Lemma filter_nil_iff {A} (P : A → Prop) `{∀ x, Decision (P x)} (l : list A) :
  filter P l = [] ↔ Forall (fun x => ¬ P x) l.
Proof.
  induction l as [|x l IH]; [by split; constructor|].
  rewrite filter_cons, Forall_cons. destruct (decide (P x)); [|by rewrite IH; tauto].
  split; [done|tauto].
Qed.

Lemma no_claude_changes_unmarked root :
  RedliningValidator.no_claude_changes root = true ↔ unmarked root.
Proof.
  unfold RedliningValidator.no_claude_changes,
    RedliningValidator.claude_del_elements, RedliningValidator.claude_ins_elements,
    unmarked, findall.
  rewrite andb_true_iff, !bool_decide_eq_true, !list_filter_filter, !filter_nil_iff.
  rewrite <- Forall_and. apply Forall_iff. intros x.
  unfold is_claude_ins, is_claude_del.
  rewrite !andb_false_iff, !bool_decide_eq_false.
  destruct (by_Claude (attrib x)); naive_solver.
Qed.

(** *** Round trip *)

Import TrackedEdits.

Lemma mark_in_node b tg att tx tl cs :
  mark_in b (Elem tg att tx tl cs) = Elem (mark_tag b tg) att tx tl (map (mark_in b) cs).
Proof. destruct b; simpl; [done|]. by rewrite map_id. Qed.

Lemma mark_deleted_idemp e : mark_deleted (mark_deleted e) = mark_deleted e.
Proof.
  induction e as [tg att tx tl cs IH] using Element_ind'. cbn [mark_deleted]. f_equal.
  - destruct (decide (tg = t_tag)) as [Ht|Ht].
    + by rewrite (bool_decide_eq_true_2 _ Ht), (bool_decide_eq_false_2 _ deltext_ne_t).
    + by rewrite !(bool_decide_eq_false_2 _ Ht).
  - rewrite map_map. by apply map_ext_Forall.
Qed.

Lemma mark_in_mark_deleted b e : mark_in b (mark_deleted e) = mark_deleted e.
Proof. destruct b; [apply mark_deleted_idemp|done]. Qed.

Lemma tag_in_mark_tag b tg : tg ≠ deltext_tag → tag_in b (mark_tag b tg) = tg.
Proof.
  intros H. destruct b; [|done]. unfold tag_in, mark_tag, retag_name.
  destruct (decide (tg = t_tag)) as [Ht|Ht].
  - by rewrite (bool_decide_eq_true_2 _ Ht), bool_decide_eq_true_2.
  - by rewrite (bool_decide_eq_false_2 _ Ht), (bool_decide_eq_false_2 _ H).
Qed.

Lemma mark_tag_eq b tg x : x ≠ t_tag → x ≠ deltext_tag → mark_tag b tg = x ↔ tg = x.
Proof.
  intros H1 H2. destruct b; [|done]. unfold mark_tag.
  case_bool_decide; split; congruence.
Qed.

Lemma is_claude_ins_mark_in b e : is_claude_ins (mark_in b e) = is_claude_ins e.
Proof.
  destruct e as [tg att tx tl cs]. rewrite mark_in_node. unfold is_claude_ins.
  cbn [tag attrib]. f_equal. apply bool_decide_ext, mark_tag_eq.
  - apply not_eq_sym, t_ne_ins.
  - apply not_eq_sym, deltext_ne_ins.
Qed.

Lemma is_claude_del_mark_in b e : is_claude_del (mark_in b e) = is_claude_del e.
Proof.
  destruct e as [tg att tx tl cs]. rewrite mark_in_node. unfold is_claude_del.
  cbn [tag attrib]. f_equal. apply bool_decide_ext, mark_tag_eq.
  - apply not_eq_sym, t_ne_del.
  - apply not_eq_sym, deltext_ne_del.
Qed.

Lemma is_claude_del_not_ins e : is_claude_del e = true → is_claude_ins e = false.
Proof.
  unfold is_claude_del, is_claude_ins. intros [Ht%bool_decide_eq_true _]%andb_prop.
  rewrite bool_decide_eq_false_2; [done|]. rewrite Ht. apply not_eq_sym, ins_ne_del.
Qed.

Lemma iter_node tg att tx tl cs :
  iter (Elem tg att tx tl cs) = Elem tg att tx tl cs :: flat_map iter cs.
Proof. done. Qed.

Section RoundTrip.
Context {X : Type} (own : Element → list X).
Hypothesis own_del : ∀ x, is_claude_del x = true → own x = [].
Hypothesis own_tracked : ∀ b tg att tx tl cs cs',
  tracked cs cs' → pristine_forest cs → tg ≠ deltext_tag →
  own (unwrap_dels b (remove_ins (mark_in b (Elem tg att tx tl cs'))))
  = own (Elem tg att tx tl cs).

Lemma rcollect_tracked l l' :
  tracked l l' → pristine_forest l →
  ∀ b, rcollect_forest own b (map (mark_in b) l')
       = flat_map (fun c => own c ++ collect own c) l.
Proof.
  unfold pristine_forest.
  induction 1 as [|tg att tx tl cs cs' l l' Hcs IHcs Hl IHl
                  |i l l' Hi Hl IHl
                  |d seg seg' l l' Hd Hch Hseg IHseg Hl IHl]; intros Hp b.
  - done.
  - cbn [flat_map] in Hp. rewrite iter_node in Hp.
    apply Forall_app in Hp as [Hp Hpl]. apply Forall_cons in Hp as [Hnode Hpcs].
    apply andb_prop in Hnode as [[Ht%negb_true_iff%bool_decide_eq_false
                                    Hni%negb_true_iff]%andb_prop Hnd%negb_true_iff].
    cbn [tag] in Ht. cbn [map flat_map]. unfold rcollect_forest at 1. cbn [flat_map].
    fold (rcollect_forest own b (map (mark_in b) l')).
    rewrite is_claude_ins_mark_in, is_claude_del_mark_in.
    change (is_claude_ins (Elem tg att tx tl cs'))
      with (is_claude_ins (Elem tg att tx tl cs)).
    change (is_claude_del (Elem tg att tx tl cs'))
      with (is_claude_del (Elem tg att tx tl cs)).
    rewrite Hni, Hnd. rewrite (own_tracked b tg att tx tl cs cs') by done. rewrite IHl by done. rewrite <- !app_assoc.
    do 2 f_equal. rewrite mark_in_node, rcollect_eq. cbn [children].
    by rewrite IHcs, collect_eq.
  - cbn [map]. unfold rcollect_forest at 1. cbn [flat_map].
    fold (rcollect_forest own b (map (mark_in b) l')).
    rewrite is_claude_ins_mark_in, Hi. by apply IHl.
  - rewrite flat_map_app in Hp. apply Forall_app in Hp as [Hps Hpl].
    cbn [map]. unfold rcollect_forest at 1. cbn [flat_map].
    fold (rcollect_forest own b (map (mark_in b) l')).
    rewrite is_claude_ins_mark_in, (is_claude_del_not_ins d Hd),
      is_claude_del_mark_in, Hd.
    rewrite flat_map_app, IHl by done. f_equal.
    rewrite rcollect_eq.
    assert (children (mark_in b d) = map (mark_in true) seg') as ->.
    { destruct d as [tg att tx tl cs]. rewrite mark_in_node. cbn [children] in *.
      rewrite Hch, map_map. apply map_ext. intros g. apply mark_in_mark_deleted. }
    by apply IHseg.
Qed.
End RoundTrip.

Lemma text_parts_tracked l l' b :
  tracked l l' → pristine_forest l →
  rcollect_forest own_text b (map (mark_in b) l')
  = flat_map (fun c => own_text c ++ collect own_text c) l.
Proof.
  intros Ht Hp. apply rcollect_tracked; [|done|done].
  intros b' tg att tx tl cs cs' _ _ Htg. unfold own_text.
  rewrite tag_unwrap_dels, text_unwrap_dels, tag_remove_ins, text_remove_ins.
  rewrite mark_in_node. cbn [tag text]. by rewrite tag_in_mark_tag.
Qed.

Lemma paragraphs_tracked l l' b :
  tracked l l' → pristine_forest l →
  rcollect_forest own_par b (map (mark_in b) l')
  = flat_map (fun c => own_par c ++ collect own_par c) l.
Proof.
  intros Ht Hp. apply rcollect_tracked; [|done|done].
  intros b' tg att tx tl cs cs' Hcs Hpcs Htg. unfold own_par, paragraph_text.
  rewrite tag_unwrap_dels, tag_remove_ins, text_parts_resolved.
  rewrite mark_in_node. cbn [tag]. rewrite tag_in_mark_tag by done.
  rewrite rcollect_eq. cbn [children].
  change (flat_map _ (map (mark_in b') cs'))
    with (rcollect_forest own_text b' (map (mark_in b') cs')).
  by rewrite (text_parts_tracked cs cs' b' Hcs Hpcs), text_parts_collect, collect_eq.
Qed.

Lemma pristine_forest_children original :
  pristine original = true → pristine_forest (children original).
Proof.
  unfold pristine, pristine_forest. rewrite forallb_elem, Forall_forall.
  destruct original as [tg att tx tl cs]. cbn [children]. by rewrite descendants_eq.
Qed.

(** The paragraphs of the resolved edited document are those of the
    original. *)
Lemma paragraphs_round_trip original edited :
  tracked_doc original edited → pristine original = true →
  paragraphs (resolve edited) = paragraphs original.
Proof.
  intros (_ & _ & Ht) Hp. unfold resolve.
  rewrite paragraphs_resolved, rcollect_eq.
  pose proof (paragraphs_tracked _ _ false Ht (pristine_forest_children _ Hp)) as H.
  cbn [mark_in] in H. rewrite map_id in H.
  unfold rcollect_forest in H. unfold rcollect_forest. rewrite H.
  by rewrite paragraphs_collect, collect_children.
Qed.

Lemma pristine_unmarked original : pristine original = true → unmarked original.
Proof.
  unfold pristine, unmarked. rewrite forallb_elem, Forall_forall.
  intros H x Hx. specialize (H x Hx).
  apply andb_prop in H as [[_ Hi%negb_true_iff]%andb_prop Hd%negb_true_iff]. done.
Qed.

End Projection.

(** ** Elements that resolution leaves in place *)

Module Survival.
Import Redlining Outside Collected Projection.

Lemma children_descendants e c : c ∈ children e → c ∈ descendants e.
Proof.
  destruct e as [tg att tx tl cs]. cbn [children]. rewrite descendants_eq.
  intros Hc. apply Refinement.elem_of_flat_map. exists c. split; [done|left].
Qed.

Lemma descendants_trans e c x : c ∈ children e → x ∈ descendants c → x ∈ descendants e.
Proof.
  destruct e as [tg att tx tl cs]. cbn [children]. rewrite descendants_eq.
  intros Hc Hx. apply Refinement.elem_of_flat_map. exists c. split; [done|by right].
Qed.

Lemma resolve_child root m :
  m ∈ children root → claude_marker m = false →
  resolve m ∈ children (resolve root).
Proof.
  intros Hm [Hi Hd]%orb_false_elim.
  destruct root as [tg att tx tl cs]. cbn [children] in Hm.
  unfold resolve. cbn [remove_ins unwrap_dels children].
  apply Refinement.elem_of_flat_map. exists (remove_ins m). split.
  - apply Refinement.elem_of_flat_map. exists m. split; [done|].
    rewrite Hi. left.
  - rewrite is_claude_del_remove_ins, Hd. left.
Qed.

Lemma resolve_outside root m :
  outside root m → resolve m ∈ descendants (resolve root).
Proof.
  induction 1 as [root m Hm Hc | root c m Hc Hcm _ IH].
  - by apply children_descendants, resolve_child.
  - eapply descendants_trans; [by apply resolve_child|done].
Qed.

Lemma resolve_node m :
  tag (resolve m) = tag m ∧ attrib (resolve m) = attrib m ∧
  text (resolve m) = text m ∧ tail (resolve m) = tail m.
Proof. by destruct m. Qed.

End Survival.

(** ** The deletion check *)

Module Deletions.
Import DOCXSchemaValidator.

Lemma select_eq b tg att tx tl cs :
  select_del_t b (Elem tg att tx tl cs)
  = flat_map (fun c =>
                (if b && bool_decide (tag c = t_tag) then [c] else [])
                ++ select_del_t (b || bool_decide (tag c = del_tag)) c) cs.
Proof. done. Qed.

(** Below a deletion every [w:t] is selected. *)
Lemma select_inside e :
  select_del_t true e = filter (fun x => tag x = t_tag) (descendants e).
Proof.
  induction e as [tg att tx tl cs IH] using Element_ind'.
  rewrite select_eq, Projection.descendants_eq. cbn [andb orb].
  induction IH as [|c cs Hc _ IHcs]; [done|].
  cbn [flat_map]. rewrite filter_app, filter_cons, IHcs, Hc.
  by destruct (decide (tag c = t_tag));
    [rewrite bool_decide_eq_true_2|rewrite bool_decide_eq_false_2].
Qed.

(** An element is selected exactly when it is a [w:t] below a [w:del]
    that lies below the root. *)
Lemma select_outside_elem e x :
  x ∈ select_del_t false e ↔
  ∃ d, d ∈ descendants e ∧ tag d = del_tag ∧ x ∈ descendants d ∧ tag x = t_tag.
Proof.
  induction e as [tg att tx tl cs IH] using Element_ind'.
  rewrite select_eq, Projection.descendants_eq, Refinement.elem_of_flat_map.
  rewrite Forall_forall in IH. split.
  - intros (c & Hc & Hx). cbn [andb orb app] in Hx.
    destruct (decide (tag c = del_tag)) as [Hd|Hd].
    + rewrite bool_decide_eq_true_2, select_inside in Hx by done.
      apply list_elem_of_filter in Hx as [Ht Hx]. exists c. split_and!; try done.
      apply Refinement.elem_of_flat_map. exists c. split; [done|left].
    + rewrite bool_decide_eq_false_2 in Hx by done.
      apply (IH c Hc) in Hx as (d & Hdc & Hdt & Hxd & Hxt).
      exists d. split_and!; try done.
      apply Refinement.elem_of_flat_map. exists c. split; [done|by right].
  - intros (d & (c & Hc & Hdc)%Refinement.elem_of_flat_map & Hdt & Hxd & Hxt).
    exists c. split; [done|]. cbn [andb orb app].
    apply elem_of_cons in Hdc as [->|Hdc].
    + rewrite bool_decide_eq_true_2, select_inside by done.
      by apply list_elem_of_filter.
    + destruct (decide (tag c = del_tag)) as [Hd|Hd].
      * rewrite bool_decide_eq_true_2, select_inside by done.
        apply list_elem_of_filter. split; [done|].
        clear -Hdc Hxd. revert Hdc.
        induction c as [tg att tx tl cs IH] using Element_ind'.
        rewrite Projection.descendants_eq, !Refinement.elem_of_flat_map.
        rewrite Forall_forall in IH.
        intros (k & Hk & [->|Hdk]%elem_of_cons); exists k; (split; [done|]).
        -- by right.
        -- right. by apply IH.
      * rewrite bool_decide_eq_false_2 by done. apply (IH c Hc). eauto.
Qed.

(** Without a [w:del] below the root nothing is selected. *)
Lemma select_none e :
  filter (fun x => tag x = del_tag) (descendants e) = [] → select_del_t false e = [].
Proof.
  induction e as [tg att tx tl cs IH] using Element_ind'.
  rewrite select_eq, Projection.descendants_eq. cbn [andb orb app].
  induction IH as [|c cs Hc _ IHcs]; [done|].
  cbn [flat_map]. rewrite filter_app, filter_cons.
  destruct (decide (tag c = del_tag)) as [Hd|Hd]; [done|].
  intros [H1 H2]%app_eq_nil.
  by rewrite bool_decide_eq_false_2, Hc, IHcs.
Qed.

(** With exactly one [w:del] below the root, the [w:t] below that one are
    selected. *)
Lemma select_single e d :
  filter (fun x => tag x = del_tag) (descendants e) = [d] →
  select_del_t false e = filter (fun x => tag x = t_tag) (descendants d).
Proof.
  revert d. induction e as [tg att tx tl cs IH] using Element_ind'. intros d.
  rewrite select_eq, Projection.descendants_eq. cbn [andb orb app].
  induction IH as [|c cs Hc _ IHcs]; [done|].
  cbn [flat_map]. rewrite filter_app, filter_cons.
  destruct (decide (tag c = del_tag)) as [Hd|Hd].
  - rewrite bool_decide_eq_true_2, select_inside by done.
    cbn [app]. intros [= -> Hrest]. apply app_eq_nil in Hrest as [H1 H2].
    fold (flat_map (fun c => c :: descendants c) cs) in H2.
    pose proof (select_none (Elem tg att tx tl cs)) as Hn.
    rewrite select_eq, Projection.descendants_eq in Hn.
    cbn [andb orb app] in Hn. by rewrite (Hn H2), app_nil_r.
  - rewrite bool_decide_eq_false_2 by done.
    intros Happ. apply app_eq_unit in Happ as [[H1 H2]|[H1 H2]].
    + rewrite (select_none c H1). cbn [app]. by apply IHcs.
    + pose proof (select_none (Elem tg att tx tl cs)) as Hn.
      rewrite select_eq, Projection.descendants_eq in Hn.
      cbn [andb orb app] in Hn. by rewrite (Hn H2), app_nil_r, (Hc d H1).
Qed.

End Deletions.

(** ** The whitespace check *)

Module Whitespace.
Import DOCXSchemaValidator.

(** On a text without line feed the second pattern matches exactly when
    the last character is white space. *)
Lemma match_trailing_single_line text :
  single_line text = true → match_trailing text = ends_with_space text.
Proof.
  induction text as [|c rest IH]; [done|].
  cbn [single_line]. intros [Hc Hrest]%andb_prop.
  cbn [match_trailing ends_with_space]. rewrite Hc, (IH Hrest).
  destruct rest as [|c' rest']; cbn [at_dollar ends_with_space].
  - by rewrite andb_true_r, orb_false_r.
  - cbn [single_line] in Hrest. apply andb_prop in Hrest as [Hc' _].
    apply negb_true_iff in Hc'.
    assert (match rest' with
            | EmptyString => is_newline c'
            | String _ _ => false
            end = false) as -> by (by destruct rest').
    by rewrite andb_false_r.
Qed.

(** A text without white space at either end is never reported. *)
Lemma match_trailing_ends text :
  match_trailing text = true →
  ends_with_space text = true.
Proof.
  induction text as [|c rest IH]; [done|].
  cbn [match_trailing ends_with_space].
  intros [[Hc Hd]%andb_prop|[_ Hr]%andb_prop]%orb_prop.
  - destruct rest as [|c' rest']; [done|].
    cbn [at_dollar] in Hd. destruct rest'; [|done].
    cbn [ends_with_space]. unfold is_newline in Hd. unfold is_space.
    apply Nat.eqb_eq in Hd. by rewrite Hd.
  - destruct rest as [|c' rest']; [done|]. by apply IH.
Qed.

End Whitespace.

(** * Properties of the validators *)

Import Redlining.

Lemma extract_of_paragraphs a b :
  paragraphs a = paragraphs b → _extract_text_content a = _extract_text_content b.
Proof. unfold _extract_text_content. by intros ->. Qed.

Lemma run_unmarked e :
  RedliningValidator.no_claude_changes e = true → Heap.run e = Some e.
Proof.
  intros H%Projection.no_claude_changes_unmarked.
  by rewrite Refinement.run_resolve, Projection.resolve_unmarked.
Qed.

Lemma compare_resolve o m :
  RedliningValidator.compare o m
  = Some (if bool_decide (_extract_text_content (resolve m)
                          = _extract_text_content (resolve o))
          then RedliningValidator.Passed_all_tracked
          else RedliningValidator.Failed_mismatch
                 (_extract_text_content (resolve o))
                 (_extract_text_content (resolve m))).
Proof.
  unfold RedliningValidator.compare. by rewrite !Refinement.run_resolve.
Qed.

(** ** C1 *)

(** C1, as stated, fails: the edited document says "Hello there." where
    the original says "Hello world.", it holds no [w:ins] and no [w:del] at
    all, and [validate] passes: without a change by Claude in the edited
    document the texts are never compared. *)
Lemma C1_untracked_edit_passes :
  RedliningValidator.validate
    (RedliningValidator.MkFiles (Some (WellFormed Sample.hello_there))
       (Archive (Some (WellFormed Sample.hello_world))))
  = Some RedliningValidator.Passed_no_tracked_changes
  ∧ findall ins_tag Sample.hello_there = []
  ∧ findall del_tag Sample.hello_there = []
  ∧ _extract_text_content Sample.hello_there = "Hello there."
  ∧ _extract_text_content Sample.hello_world = "Hello world.".
Proof. by vm_compute. Qed.

(** C1, amended: when the edited document holds no insertion and no
    deletion by Claude, [validate] passes whatever the original is, and
    resolving leaves the edited tree as it is; when it holds one and both
    documents parse, both trees are resolved and [validate] fails with the
    two texts to diff exactly when the resolved texts differ. *)
Theorem C1_texts_compared_only_after_a_change_by_Claude
    (f : RedliningValidator.Files) (m : Element) :
  RedliningValidator.modified_file f = Some (WellFormed m) →
  (RedliningValidator.no_claude_changes m = true →
     RedliningValidator.validate f = Some RedliningValidator.Passed_no_tracked_changes
     ∧ Heap.run m = Some m)
  ∧ (RedliningValidator.no_claude_changes m = false →
     ∀ o, RedliningValidator.original_docx f = Archive (Some (WellFormed o)) →
       ∃ o' m', Heap.run o = Some o' ∧ Heap.run m = Some m' ∧
         RedliningValidator.validate f
         = Some (if bool_decide (_extract_text_content m' = _extract_text_content o')
                 then RedliningValidator.Passed_all_tracked
                 else RedliningValidator.Failed_mismatch
                        (_extract_text_content o') (_extract_text_content m'))).
Proof.
  intros Hm. unfold RedliningValidator.validate. rewrite Hm. split.
  - intros Hn. rewrite Hn. split; [done|by apply run_unmarked].
  - intros Hn o Ho. rewrite Hn, Ho. exists (resolve o), (resolve m).
    rewrite !Refinement.run_resolve. split_and!; [done|done|apply compare_resolve].
Qed.

(** The two cases at work: an untracked edit passes even where the
    original cannot be unpacked; an edit tracked in part only is compared
    and fails. *)
Lemma C1_texts_compared_witness :
  (RedliningValidator.validate
     (RedliningValidator.MkFiles (Some (WellFormed Sample.hello_there)) BadZip)
   = Some RedliningValidator.Passed_no_tracked_changes
   ∧ Heap.run Sample.hello_there = Some Sample.hello_there)
  ∧ RedliningValidator.validate
      (RedliningValidator.MkFiles (Some (WellFormed Sample.hello_half_tracked))
         (Archive (Some (WellFormed Sample.hello_world))))
    = Some (RedliningValidator.Failed_mismatch "Hello world." "Hello there.")
  ∧ ∃ o' m',
      Heap.run Sample.hello_world = Some o' ∧
      Heap.run Sample.hello_half_tracked = Some m' ∧
      RedliningValidator.validate
        (RedliningValidator.MkFiles (Some (WellFormed Sample.hello_half_tracked))
           (Archive (Some (WellFormed Sample.hello_world))))
      = Some (if bool_decide (_extract_text_content m' = _extract_text_content o')
              then RedliningValidator.Passed_all_tracked
              else RedliningValidator.Failed_mismatch
                     (_extract_text_content o') (_extract_text_content m')).
Proof.
  split.
  - apply (C1_texts_compared_only_after_a_change_by_Claude
             (RedliningValidator.MkFiles (Some (WellFormed Sample.hello_there)) BadZip)
             Sample.hello_there); [reflexivity|vm_compute; reflexivity].
  - split; [vm_compute; reflexivity|].
    apply (C1_texts_compared_only_after_a_change_by_Claude
             (RedliningValidator.MkFiles (Some (WellFormed Sample.hello_half_tracked))
                (Archive (Some (WellFormed Sample.hello_world))))
             Sample.hello_half_tracked);
      [reflexivity|vm_compute; reflexivity|reflexivity].
Defined.

(** ** C2 *)

(** C2: when the edited document is the original with nothing but
    insertions by Claude added and runs of original content wrapped in
    deletions by Claude (the original holding no change by Claude and no
    deleted text), resolving the edited tree gives a tree with the
    paragraphs and the text of the original, and [validate] passes. *)
Theorem C2_round_trip (original edited : Element) :
  TrackedEdits.tracked_doc original edited →
  TrackedEdits.pristine original = true →
  ∃ r outcome,
    Heap.run edited = Some r ∧
    paragraphs r = paragraphs original ∧
    _extract_text_content r = _extract_text_content original ∧
    RedliningValidator.validate
      (RedliningValidator.MkFiles (Some (WellFormed edited))
         (Archive (Some (WellFormed original)))) = Some outcome ∧
    RedliningValidator.returns outcome = true.
Proof.
  intros Ht Hp.
  pose proof (Projection.paragraphs_round_trip _ _ Ht Hp) as Hpar.
  pose proof (Projection.resolve_unmarked _ (Projection.pristine_unmarked _ Hp)) as Hro.
  exists (resolve edited).
  unfold RedliningValidator.validate. cbn [RedliningValidator.modified_file
    RedliningValidator.original_docx].
  destruct (RedliningValidator.no_claude_changes edited).
  - exists RedliningValidator.Passed_no_tracked_changes.
    split_and!; [apply Refinement.run_resolve|done|by apply extract_of_paragraphs|done|done].
  - exists RedliningValidator.Passed_all_tracked.
    split_and!; [apply Refinement.run_resolve|done|by apply extract_of_paragraphs| |done].
    rewrite compare_resolve, Hro, bool_decide_eq_true_2; [done|].
    by apply extract_of_paragraphs.
Qed.

(** The tracked edit of "Hello world.": an insertion by Claude, then the
    original run inside a deletion by Claude. *)
Lemma C2_round_trip_witness :
  ∃ r outcome,
    Heap.run Sample.hello_tracked = Some r ∧
    paragraphs r = paragraphs Sample.hello_world ∧
    _extract_text_content r = _extract_text_content Sample.hello_world ∧
    RedliningValidator.validate
      (RedliningValidator.MkFiles (Some (WellFormed Sample.hello_tracked))
         (Archive (Some (WellFormed Sample.hello_world)))) = Some outcome ∧
    RedliningValidator.returns outcome = true.
Proof.
  apply (C2_round_trip Sample.hello_world Sample.hello_tracked); [|reflexivity].
  split; [reflexivity|]. split; [reflexivity|].
  cbn. apply TrackedEdits.tracked_keep; [|apply TrackedEdits.tracked_nil].
  apply TrackedEdits.tracked_keep; [|apply TrackedEdits.tracked_nil].
  apply TrackedEdits.tracked_ins; [reflexivity|].
  apply (TrackedEdits.tracked_del _ [Sample.run_of "Hello world."]
           [Sample.run_of "Hello world."] [] []);
    [reflexivity|reflexivity| |apply TrackedEdits.tracked_nil].
  apply TrackedEdits.tracked_keep; [|apply TrackedEdits.tracked_nil].
  apply TrackedEdits.tracked_keep; apply TrackedEdits.tracked_nil.
Defined.

(** ** C3 *)

(** C3, as stated, fails, in both of its parts.  A deletion by Bob inside
    an insertion by Claude is removed together with that insertion; and
    inside a deletion by Claude the [w:delText] of a deletion by Bob is
    rewritten to [w:t]. *)
Lemma C3_marker_of_another_author_removed_or_rewritten :
  filter (fun x => Outside.other_marker x = true)
         (descendants Sample.claude_ins_around_bob) = [Sample.bob_deletion]
  ∧ Heap.run Sample.claude_ins_around_bob = Some (Sample.document [[]])
  ∧ Heap.run Sample.claude_del_around_bob
    = Some (Sample.document [[Sample.change "del" "Bob" [Sample.run_of "x"]]]).
Proof. by vm_compute. Qed.

(** C3, amended: every element that is not itself an insertion or a
    deletion by Claude and does not lie inside one (the markers of other
    authors among them) is still in the tree after resolution, with its
    tag, attributes and text; its content is what resolution makes of its
    content, and it is unchanged altogether when it holds no change by
    Claude.  An insertion by Bob around a deletion by Claude thus stays,
    with the deleted text restored inside it. *)
Theorem C3_elements_outside_changes_by_Claude_stay (root m : Element) :
  Outside.outside root m →
  ∃ r m',
    Heap.run root = Some r ∧ Heap.run m = Some m' ∧
    m' ∈ descendants r ∧
    tag m' = tag m ∧ attrib m' = attrib m ∧ text m' = text m ∧ tail m' = tail m ∧
    (RedliningValidator.no_claude_changes m = true → m' = m).
Proof.
  intros Ho. exists (resolve root), (resolve m).
  rewrite !Refinement.run_resolve.
  destruct (Survival.resolve_node m) as (H1 & H2 & H3 & H4).
  split_and!; try done.
  - by apply Survival.resolve_outside.
  - intros Hn%Projection.no_claude_changes_unmarked.
    by apply Projection.resolve_unmarked.
Qed.

(** An insertion by Bob around a deletion by Claude: the insertion stays
    and the deleted run is ordinary text again. *)
Lemma C3_elements_stay_witness :
  Heap.run Sample.bob_ins_around_claude
  = Some (Sample.document [[Sample.change "ins" "Bob" [Sample.run_of "x"]]])
  ∧ ∃ r m',
      Heap.run Sample.bob_ins_around_claude = Some r ∧
      Heap.run Sample.bob_insertion = Some m' ∧
      m' ∈ descendants r ∧
      tag m' = tag Sample.bob_insertion ∧ attrib m' = attrib Sample.bob_insertion ∧
      text m' = text Sample.bob_insertion ∧ tail m' = tail Sample.bob_insertion ∧
      (RedliningValidator.no_claude_changes Sample.bob_insertion = true →
       m' = Sample.bob_insertion).
Proof.
  split; [vm_compute; reflexivity|].
  apply (C3_elements_outside_changes_by_Claude_stay
           Sample.bob_ins_around_claude Sample.bob_insertion).
  eapply Outside.outside_below; [left|reflexivity|].
  eapply Outside.outside_below; [left|reflexivity|].
  apply Outside.outside_child; [left|reflexivity].
Defined.

(** ** C4 *)

(** C4 does not hold of the code: a deletion by Claude that is a child of
    a deletion by Claude is still in the tree after the resolver has run.
    The second loop splices it into the parent and never looks at the
    parent's children again. *)
Lemma C4_nested_deletion_by_Claude_remains :
  Heap.run Sample.claude_del_in_del
  = Some (Sample.document [[Sample.change "del" "Claude" [Sample.run_of "x"]]])
  ∧ (RedliningValidator.claude_del_elements <$> Heap.run Sample.claude_del_in_del)
    = Some [Sample.change "del" "Claude" [Sample.run_of "x"]].
Proof. by vm_compute. Qed.

(** ** C5 *)

(** C5, as stated, fails: the resolver changes the tree it is given.  The
    paragraph object at address 2 has the children 3 (an insertion by
    Claude) and 6 before the call, and the child 6 alone after it; what is
    read from the root of the same store is another tree than before. *)
Lemma C5_input_tree_changed_in_place :
  Heap.children_of (Heap.load Sample.hello_half_tracked) 2 = [3; 6]
  ∧ ((fun s => Heap.children_of s 2)
       <$> Heap._remove_claude_tracked_changes (Heap.load Sample.hello_half_tracked) 0)
    = Some [6]
  ∧ Heap.snapshot 8 (Heap.load Sample.hello_half_tracked) 0
    = Some Sample.hello_half_tracked
  ∧ (Heap._remove_claude_tracked_changes (Heap.load Sample.hello_half_tracked) 0
       ≫= fun s => Heap.snapshot 8 s 0)
    = Some Sample.hello_there.
Proof. by vm_compute. Qed.

(** C5, amended: the resolver works in place and returns nothing.  For a
    document parsed into any store it ends, it creates no object (the store
    keeps its size), the tree then found below the same root is the
    function [Redlining.resolve] of the tree found there before (so the
    outcome depends on the input tree alone), and no object outside the
    document has changed. *)
Theorem C5_resolver_rewrites_the_tree_in_place
    (pre post : list Heap.Obj) (e : Element) :
  ∃ s', Heap._remove_claude_tracked_changes
          (pre ++ Heap.load_at (length pre) e ++ post) (length pre) = Some s' ∧
        length s' = length (pre ++ Heap.load_at (length pre) e ++ post) ∧
        Heap.snapshot (length s') s' (length pre) = Some (resolve e) ∧
        ∀ a, a < length pre ∨ length pre + size e ≤ a →
             s' !! a = (pre ++ Heap.load_at (length pre) e ++ post) !! a.
Proof. apply Refinement.remove_claude_tracked_changes_spec. Qed.

(** ** C6 *)

(** C6: resolving a document that holds no insertion and no deletion by
    Claude leaves its text as it is, and resolving a second time leaves the
    paragraphs and the text of the first resolution as they are. *)
Theorem C6_resolution_idempotent_on_text (e : Element) :
  ∃ r r2,
    Heap.run e = Some r ∧ Heap.run r = Some r2 ∧
    paragraphs r2 = paragraphs r ∧
    _extract_text_content r2 = _extract_text_content r ∧
    (RedliningValidator.no_claude_changes e = true →
     _extract_text_content r = _extract_text_content e).
Proof.
  exists (resolve e), (resolve (resolve e)). rewrite !Refinement.run_resolve.
  split_and!; try done.
  - apply Projection.paragraphs_resolve_twice.
  - apply extract_of_paragraphs, Projection.paragraphs_resolve_twice.
  - intros Hn%Projection.no_claude_changes_unmarked.
    by rewrite Projection.resolve_unmarked.
Qed.

(** A document without changes by Claude keeps its text. *)
Lemma C6_resolution_idempotent_witness :
  ∃ r, Heap.run Sample.hello_there = Some r ∧
       _extract_text_content r = _extract_text_content Sample.hello_there.
Proof.
  destruct (C6_resolution_idempotent_on_text Sample.hello_there)
    as (r & r2 & H1 & _ & _ & _ & H5).
  exists r. split; [exact H1|]. apply H5. vm_compute. reflexivity.
Defined.

(** ** C7 *)

Import DOCXSchemaValidator.

(** C7, as stated, fails: when the well-formedness check fails, [validate]
    returns at once; the output lists that check alone, although the
    whitespace check, had it run, would have reported a violation. *)
Lemma C7_failed_first_check_ends_the_run :
  validate Sample.xml_ns Sample.failing Sample.passing Sample.passing Sample.passing Sample.passing Sample.passing Sample.spaced_package
  = (false, [Ran XML_well_formedness false []])
  ∧ validate_whitespace_preservation Sample.xml_ns (xml_files Sample.spaced_package)
    = (false, [Violation "word/document.xml" " hello"]).
Proof. by vm_compute. Qed.

(** C7, amended: the value returned is the conjunction of the outcomes of
    the checks that ran.  When the well-formedness check passes, all eight
    checks run and the output lists the outcome of each, in order; a
    [document.xml] that cannot be read inside the whitespace or the deletion
    check is listed as an error of that check and stops no other check.
    When the well-formedness check fails, no other check runs. *)
Theorem C7_result_is_conjunction_of_checks_run
    (ns : string) (vx vu vf vc vs vr : Package → bool) (self : Package) :
  let r := validate ns vx vu vf vc vs vr self in
  r.1 = forallb snd (checks_run r.2)
  ∧ (vx self = false → r = (false, [Ran XML_well_formedness false []]))
  ∧ (vx self = true →
     checks_run r.2
     = [(XML_well_formedness, true);
        (Unique_ids, vu self);
        (File_references, vf self);
        (Content_types, vc self);
        (XSD_schema, vs self);
        (Whitespace_preservation,
         (validate_whitespace_preservation ns (xml_files self)).1);
        (Deletion_validation, (validate_deletions (xml_files self)).1);
        (Relationship_ids, vr self)])
  ∧ (∀ f, f ∈ xml_files self → name f = "document.xml" → content f = Malformed →
       ReadError (path f) ∈ (validate_whitespace_preservation ns (xml_files self)).2
       ∧ ReadError (path f) ∈ (validate_deletions (xml_files self)).2).
Proof.
  cbv zeta. unfold validate. split_and!.
  - destruct (vx self); [|done]. cbn [negb fst snd checks_run omap list_omap forallb].
    unfold unless.
    destruct (vu self), (vf self), (vc self), (vs self),
      (validate_whitespace_preservation ns (xml_files self)).1,
      (validate_deletions (xml_files self)).1, (vr self); done.
  - by intros ->.
  - by intros ->.
  - intros f Hf Hn Hc. split.
    + cbn [validate_whitespace_preservation snd].
      apply Refinement.elem_of_flat_map. exists f. split; [done|].
      unfold whitespace_errors. rewrite bool_decide_eq_true_2, Hc by done. left.
    + cbn [validate_deletions snd].
      apply Refinement.elem_of_flat_map. exists f. split; [done|].
      unfold deletion_errors. rewrite bool_decide_eq_true_2, Hc by done. left.
Qed.

(** With an unreadable [document.xml] and a failing reference check, all
    eight checks still run and report. *)
Lemma C7_result_is_conjunction_witness :
  checks_run (validate Sample.xml_ns Sample.passing Sample.passing Sample.failing Sample.passing Sample.passing Sample.passing Sample.unreadable_package).2
  = [(XML_well_formedness, true); (Unique_ids, true); (File_references, false);
     (Content_types, true); (XSD_schema, true); (Whitespace_preservation, false);
     (Deletion_validation, false); (Relationship_ids, true)]
  ∧ ReadError "word/document.xml"
    ∈ (validate_whitespace_preservation Sample.xml_ns (xml_files Sample.unreadable_package)).2
  ∧ ReadError "word/document.xml"
    ∈ (validate_deletions (xml_files Sample.unreadable_package)).2.
Proof.
  pose proof (C7_result_is_conjunction_of_checks_run
                Sample.xml_ns Sample.passing Sample.passing Sample.failing Sample.passing Sample.passing Sample.passing Sample.unreadable_package) as H.
  cbv zeta in H. destruct H as (_ & _ & H3 & H4). split.
  - exact (H3 eq_refl).
  - apply (H4 (MkFile "word/document.xml" "document.xml" Malformed));
      [left|reflexivity|reflexivity].
Defined.

(** ** C8 *)

(** C8, as stated, fails: a [w:t] without text below a [w:del] is found by
    the path expression and is not reported; the check passes. *)
Lemma C8_empty_text_below_deletion_not_reported :
  xpath_del_t (Sample.document [[Sample.change "del" "Bob"
                                   [Sample.node "r" [Sample.leaf "t" None]]]])
  = [Sample.leaf "t" None]
  ∧ validate_deletions
      [MkFile "word/document.xml" "document.xml"
         (WellFormed (Sample.document
                        [[Sample.change "del" "Bob"
                            [Sample.node "r" [Sample.leaf "t" None]]]]))]
    = (true, []).
Proof. by vm_compute. Qed.

(** C8, amended: for a [document.xml] that parses, a text is reported
    exactly when it is the text, not empty, of a [w:t] below a [w:del]
    that lies below the root, at any depth; all of them are reported.  When
    the document holds one [w:del], with one [w:t] below it whose text is
    "hello", the check fails with exactly that one violation. *)
Theorem C8_texts_below_deletions_are_reported (f : PackageFile) (root : Element) :
  name f = "document.xml" → content f = WellFormed root →
  (∀ s, Violation (path f) s ∈ (validate_deletions [f]).2 ↔
        s ≠ "" ∧ ∃ d x, d ∈ descendants root ∧ tag d = del_tag ∧
                        x ∈ descendants d ∧ tag x = t_tag ∧ text x = Some s)
  ∧ (∀ d x, filter (fun e => tag e = del_tag) (descendants root) = [d] →
            filter (fun e => tag e = t_tag) (descendants d) = [x] →
            text x = Some "hello" →
            validate_deletions [f] = (false, [Violation (path f) "hello"])).
Proof.
  intros Hn Hc.
  assert (Herr : (validate_deletions [f]).2
                 = report f (filter (fun t_elem => truthy (text t_elem) = true)
                                    (xpath_del_t root))).
  { cbn [validate_deletions snd flat_map]. unfold deletion_errors.
    by rewrite bool_decide_eq_true_2, Hc, app_nil_r by done. }
  split.
  - intros s. rewrite Herr. unfold report. rewrite list_elem_of_omap.
    setoid_rewrite list_elem_of_filter. unfold xpath_del_t.
    setoid_rewrite Deletions.select_outside_elem. split.
    + intros (x & (Htr & d & Hd & Hdt & Hx & Hxt) & Hs).
      destruct (text x) as [s'|] eqn:Htx; [|done]. injection Hs as ->.
      split; [intros ->; by vm_compute in Htr|].
      exists d, x. by rewrite Htx.
    + intros (Hs & d & x & Hd & Hdt & Hx & Hxt & Htx). exists x. split.
      * split; [|by eauto]. rewrite Htx. simpl. by rewrite bool_decide_eq_false_2.
      * by rewrite Htx.
  - intros d x Hd Hx Htx. unfold validate_deletions.
    change (flat_map deletion_errors [f]) with ((validate_deletions [f]).2).
    rewrite Herr. unfold xpath_del_t.
    rewrite (Deletions.select_single root d Hd), Hx.
    rewrite filter_cons, Htx.
    rewrite decide_True by (by vm_compute). unfold report. cbn [omap list_omap].
    rewrite Htx. by vm_compute.
Qed.

(** One [w:del] around one [w:t] that says "hello". *)
Lemma C8_texts_below_deletions_witness :
  validate_deletions [Sample.hello_deleted_file]
  = (false, [Violation "word/document.xml" "hello"]).
Proof.
  apply (C8_texts_below_deletions_are_reported Sample.hello_deleted_file
           (Sample.document [[Sample.change "del" "Bob" [Sample.run_of "hello"]]])
           eq_refl eq_refl)
    with (d := Sample.change "del" "Bob" [Sample.run_of "hello"])
         (x := Sample.leaf "t" (Some "hello")); vm_compute; reflexivity.
Defined.

(** ** C9 *)

(** C9 does not hold of the code: the text "a", line feed, "b " ends with
    a space and has no [xml:space], and it is not flagged: in the second
    pattern [.] matches no line feed, so the pattern matches no text with a
    line feed before its last character. *)
Lemma C9_trailing_space_after_line_feed_not_flagged :
  ends_with_space ("a" +:+ newline +:+ "b ") = true
  ∧ match_leading ("a" +:+ newline +:+ "b ") = false
  ∧ match_trailing ("a" +:+ newline +:+ "b ") = false
  ∧ validate_whitespace_preservation Sample.xml_ns
      [MkFile "word/document.xml" "document.xml"
         (WellFormed (Sample.document [[Sample.run_of ("a" +:+ newline +:+ "b ")]]))]
    = (true, []).
Proof. by vm_compute. Qed.

(** ** C10 *)

(** C10: two packages on which each of the eight checks has the same
    outcome get the same value from [validate], whatever their paragraph
    counts are. *)
Theorem C10_paragraph_counts_do_not_change_the_result
    (ns : string) (vx vu vf vc vs vr : Package → bool) (self1 self2 : Package) :
  check_outcomes ns vx vu vf vc vs vr self1
  = check_outcomes ns vx vu vf vc vs vr self2 →
  (validate ns vx vu vf vc vs vr self1).1 = (validate ns vx vu vf vc vs vr self2).1.
Proof.
  unfold check_outcomes. intros [= H1 H2 H3 H4 H5 H6 H7 H8].
  unfold validate, validate_whitespace_preservation, validate_deletions.
  cbv zeta. cbn [fst]. rewrite H1, H2, H3, H4, H5, H6, H7, H8.
  by destruct (negb (vx self2)).
Qed.

(** One paragraph against three, the same original: the same value
    returned, another line of counts. *)
Lemma C10_paragraph_counts_witness :
  (validate Sample.xml_ns Sample.passing Sample.passing Sample.passing Sample.passing Sample.passing Sample.passing Sample.one_paragraph).1
  = (validate Sample.xml_ns Sample.passing Sample.passing Sample.passing Sample.passing Sample.passing Sample.passing Sample.three_paragraphs).1
  ∧ compare_paragraph_counts Sample.one_paragraph = Paragraphs 1 1 0
  ∧ compare_paragraph_counts Sample.three_paragraphs = Paragraphs 1 3 2.
Proof.
  split; [|vm_compute; split; reflexivity].
  apply (C10_paragraph_counts_do_not_change_the_result
           Sample.xml_ns Sample.passing Sample.passing Sample.passing Sample.passing Sample.passing Sample.passing Sample.one_paragraph Sample.three_paragraphs).
  vm_compute. reflexivity.
Defined.
(** * Further properties

    Facts used for the properties of the validators beyond the claims. *)

Module RemainingFacts.
Import Redlining Collected Projection Remaining.

Lemma settled_no_ins : ∀ e b x,
  settled b e = true → x ∈ descendants e → is_claude_ins x = false.
Proof.
  induction e as [tg att tx tl cs IH] using Element_ind'. intros b x Hs Hx.
  cbn [settled] in Hs. rewrite forallb_elem in Hs. rewrite Forall_forall in IH.
  rewrite descendants_eq in Hx. apply Refinement.elem_of_flat_map in Hx as (c & Hc & Hx).
  specialize (Hs c Hc). apply andb_prop in Hs as [[Hi _]%andb_prop Hsc].
  apply negb_true_iff in Hi.
  apply elem_of_cons in Hx as [->|Hx]; [done|]. by eapply IH.
Qed.

Lemma existsb_flat_map {A B} (f : B → bool) (g : A → list B) (l : list A) :
  existsb f (flat_map g l) = existsb (fun x => existsb f (g x)) l.
Proof.
  induction l as [|x l IH]; simpl; [done|]. by rewrite existsb_app, IH.
Qed.

Lemma existsb_ext_elem {A} (f g : A → bool) (l : list A) :
  (∀ x, x ∈ l → f x = g x) → existsb f l = existsb g l.
Proof.
  induction l as [|x l IH]; intros H; simpl; [done|].
  rewrite H by left. f_equal. apply IH. intros y Hy. apply H. by right.
Qed.

Lemma existsb_map {A B} (f : B → bool) (g : A → B) (l : list A) :
  existsb f (map g l) = existsb (fun x => f (g x)) l.
Proof. induction l as [|x l IH]; simpl; [done|]. by rewrite IH. Qed.

Lemma nested_eq e :
  nested e = existsb (fun c => (is_claude_del c && existsb is_claude_del (children c))
                               || nested c) (children e).
Proof. by destruct e. Qed.

Lemma existsb_del_remove_ins cs :
  existsb is_claude_del
    (flat_map (fun c => if is_claude_ins c then [] else [remove_ins c]) cs)
  = existsb is_claude_del cs.
Proof.
  induction cs as [|c cs IH]; [done|]. cbn [flat_map existsb].
  destruct (is_claude_ins c) eqn:Hi.
  - cbn [app]. rewrite IH.
    destruct (is_claude_del c) eqn:Hd; [|done].
    apply is_claude_del_not_ins in Hd. congruence.
  - cbn [app existsb]. by rewrite is_claude_del_remove_ins, IH.
Qed.

Lemma nested_remove_ins : ∀ e, nested (remove_ins e) = nested_deletion e.
Proof.
  induction e as [tg att tx tl cs IH] using Element_ind'.
  cbn [remove_ins nested nested_deletion]. rewrite existsb_flat_map.
  rewrite Forall_forall in IH.
  apply existsb_ext_elem. intros c Hc.
  destruct (is_claude_ins c) eqn:Hi; [done|].
  cbn [existsb negb andb]. rewrite orb_false_r.
  rewrite is_claude_del_remove_ins, (IH c Hc). f_equal. f_equal.
  destruct c as [tg' att' tx' tl' cs']. cbn [remove_ins children].
  apply existsb_del_remove_ins.
Qed.

Lemma del_below_unwrap : ∀ e b, del_below (unwrap_dels b e) = nested e.
Proof.
  induction e as [e IH] using Element_size_ind. intros b.
  destruct e as [tg att tx tl cs]. unfold del_below.
  cbn [unwrap_dels nested]. rewrite descendants_eq.
  rewrite !existsb_flat_map. apply existsb_ext_elem. intros c Hc.
  assert (Hlt : size c < size (Elem tg att tx tl cs)) by by apply size_child.
  destruct (is_claude_del c) eqn:Hd.
  - cbn [andb]. rewrite existsb_map. rewrite (nested_eq c).
    assert (∀ (f g : Element → bool) l, existsb f l || existsb g l = existsb (fun x => f x || g x) l) as Hor.
    { intros f g l. induction l as [|y l IHl]; [done|]. simpl. rewrite <- IHl.
      destruct (f y), (g y), (existsb f l), (existsb g l); done. }
    rewrite Hor. apply existsb_ext_elem. intros g Hg. cbn [existsb].
    rewrite is_claude_del_unwrap_dels.
    fold (del_below (unwrap_dels true g)). rewrite IH.
    + destruct (is_claude_del g); done.
    + destruct c as [tg' att' tx' tl' cs']. cbn [children] in Hg.
      pose proof (size_child tg' att' tx' tl' cs' g Hg). lia.
  - cbn [existsb andb orb]. rewrite is_claude_del_unwrap_dels, Hd. cbn [orb].
    rewrite orb_false_r. fold (del_below (unwrap_dels b c)). by apply IH.
Qed.

Lemma del_below_resolve e : del_below (resolve e) = nested_deletion e.
Proof. unfold resolve. by rewrite del_below_unwrap, nested_remove_ins. Qed.

Lemma claude_del_elements_nil r :
  RedliningValidator.claude_del_elements r = [] ↔ del_below r = false.
Proof.
  unfold RedliningValidator.claude_del_elements, findall, del_below.
  rewrite list_filter_filter, filter_nil_iff.
  rewrite <- not_true_iff_false, existsb_exists, Forall_forall.
  split.
  - intros H (x & Hx%list_elem_of_In & Hd). apply (H x Hx).
    unfold is_claude_del in Hd. apply andb_prop in Hd as [Ht%bool_decide_eq_true Hb].
    done.
  - intros H x Hx [Hb Ht]. apply H. exists x. split; [by apply list_elem_of_In|].
    unfold is_claude_del. by rewrite bool_decide_eq_true_2, Hb.
Qed.

Lemma claude_ins_elements_nil r :
  RedliningValidator.claude_ins_elements r = [] ↔
  ∀ x, x ∈ descendants r → is_claude_ins x = false.
Proof.
  unfold RedliningValidator.claude_ins_elements, findall.
  rewrite list_filter_filter, filter_nil_iff, Forall_forall.
  split.
  - intros H x Hx. apply not_true_iff_false. intros Hi. apply (H x Hx).
    unfold is_claude_ins in Hi. apply andb_prop in Hi as [Ht%bool_decide_eq_true Hb].
    done.
  - intros H x Hx [Hb Ht]. specialize (H x Hx). unfold is_claude_ins in H.
    by rewrite bool_decide_eq_true_2, Hb in H.
Qed.

End RemainingFacts.

Module KeptFacts.
Import Redlining Collected Projection Remaining.

Lemma label_remove_ins e : label (remove_ins e) = label e.
Proof. by destruct e. Qed.








End KeptFacts.

Module JoinFacts.
Import Redlining DOCXSchemaValidator Remaining.

Lemma line_split x y r s :
  single_line x = true → single_line y = true → breaks r → breaks s →
  x +:+ r = y +:+ s → x = y ∧ r = s.
Proof.
  revert y. induction x as [|c x IH]; intros y Hx Hy Hr Hs Heq.
  - destruct y as [|d y]; [done|]. exfalso.
    cbn [single_line] in Hy. apply andb_prop in Hy as [Hd _].
    change (r = String d (y +:+ s)) in Heq.
    destruct Hr as [->|[r' ->]]; [done|].
    injection Heq as Hc _. subst d. by vm_compute in Hd.
  - destruct y as [|d y].
    + exfalso. cbn [single_line] in Hx. apply andb_prop in Hx as [Hc _].
      change (String c (x +:+ r) = s) in Heq.
      destruct Hs as [->|[s' ->]]; [done|].
      injection Heq as Hd _. subst c. by vm_compute in Hc.
    + change (String c (x +:+ r) = String d (y +:+ s)) in Heq.
      injection Heq as -> Heq.
      cbn [single_line] in Hx, Hy.
      apply andb_prop in Hx as [_ Hx]. apply andb_prop in Hy as [_ Hy].
      destruct (IH y Hx Hy Hr Hs Heq) as [-> ->]. done.
Qed.

Lemma concat_cons sep x l :
  String.concat sep (x :: l)
  = x +:+ (match l with [] => "" | _ :: _ => sep +:+ String.concat sep l end).
Proof.
  destruct l; cbn [String.concat]; [|done].
  induction x as [|c x IH]; [done|].
  change (String c x = String c (x +:+ "")). by f_equal.
Qed.

Lemma breaks_tail l :
  breaks (match l with [] => "" | _ :: _ => newline +:+ String.concat newline l end).
Proof. destruct l; [by left|right; eauto]. Qed.

Lemma join_injective : ∀ l1 l2,
  Forall (fun s => single_line s = true) l1 →
  Forall (fun s => single_line s = true) l2 →
  l1 ≠ [] → l2 ≠ [] →
  String.concat newline l1 = String.concat newline l2 → l1 = l2.
Proof.
  induction l1 as [|x l1 IH]; intros l2 H1 H2 Hn1 Hn2 Heq; [done|].
  destruct l2 as [|y l2]; [done|].
  apply Forall_cons in H1 as [Hx H1]. apply Forall_cons in H2 as [Hy H2].
  rewrite !concat_cons in Heq.
  apply line_split in Heq as [-> Heq]; [|done|done|apply breaks_tail|apply breaks_tail].
  f_equal. destruct l1 as [|x1 l1], l2 as [|y1 l2]; [done|done|done|].
  change (String (ascii_of_nat 10) (String.concat newline (x1 :: l1))
          = String (ascii_of_nat 10) (String.concat newline (y1 :: l2))) in Heq.
  injection Heq as Heq. apply IH; done.
Qed.

End JoinFacts.

Module RevertedFacts.
Import Redlining Collected Projection Reverted.

Lemma tag_in_t b tg :
  bool_decide (tag_in b tg = t_tag)
  = bool_decide (tg = t_tag) || (b && bool_decide (tg = deltext_tag)).
Proof.
  unfold tag_in, retag_name. destruct b; cbn [andb]; [|by rewrite orb_false_r].
  destruct (decide (tg = deltext_tag)) as [->|Hd].
  - rewrite !(bool_decide_eq_true_2 (deltext_tag = deltext_tag)) by done.
    rewrite (bool_decide_eq_true_2 (t_tag = t_tag)) by done. by rewrite orb_true_r.
  - rewrite !(bool_decide_eq_false_2 (tg = deltext_tag)) by done.
    by rewrite orb_false_r.
Qed.

Lemma rcollect_texts : ∀ e b, rcollect own_text b e = reverted_texts b e.
Proof.
  induction e as [tg att tx tl cs IH] using Element_ind'. intros b.
  cbn [rcollect reverted_texts]. rewrite Forall_forall in IH.
  apply flat_map_ext_elem. intros c Hc.
  destruct (is_claude_ins c); [done|].
  destruct (is_claude_del c); [by apply IH|].
  rewrite (IH c Hc). f_equal. unfold own_text.
  rewrite tag_unwrap_dels, tag_remove_ins, text_unwrap_dels, text_remove_ins.
  by rewrite tag_in_t.
Qed.

Lemma rcollect_paragraphs : ∀ e b, rcollect own_par b e = reverted_paragraphs b e.
Proof.
  induction e as [tg att tx tl cs IH] using Element_ind'. intros b.
  cbn [rcollect reverted_paragraphs]. rewrite Forall_forall in IH.
  apply flat_map_ext_elem. intros c Hc.
  destruct (is_claude_ins c); [done|].
  destruct (is_claude_del c); [by apply IH|].
  rewrite (IH c Hc). f_equal. unfold own_par.
  rewrite tag_unwrap_dels, tag_remove_ins.
  assert (bool_decide (tag_in b (tag c) = p_tag) = bool_decide (tag c = p_tag)) as ->.
  { apply bool_decide_ext, tag_in_eq; [apply not_eq_sym, deltext_ne_p|apply not_eq_sym, t_ne_p]. }
  destruct (bool_decide (tag c = p_tag)); [|done].
  unfold paragraph_text. by rewrite text_parts_resolved, rcollect_texts.
Qed.

End RevertedFacts.

Module WhitespaceFacts.
Import DOCXSchemaValidator.

Lemma app_String c x r : String c x +:+ r = String c (x +:+ r).
Proof. done. Qed.

Lemma app_empty r : "" +:+ r = r.
Proof. done. Qed.

(** The texts the second pattern accepts: characters other than line
    feeds, one white space character, and then the end or one last line
    feed. *)
Lemma match_trailing_shape text :
  match_trailing text = true ↔
  ∃ pre c, single_line pre = true ∧ is_space c = true ∧
           (text = pre +:+ String c "" ∨ text = pre +:+ String c newline).
Proof.
  induction text as [|a rest IH].
  - split; [done|]. intros (pre & c & _ & _ & [H|H]); destruct pre; done.
  - cbn [match_trailing]. rewrite orb_true_iff, !andb_true_iff, IH. split.
    + intros [[Ha Hd]|[Ha (pre & c & Hp & Hc & Ht)]].
      * exists "", a. split; [done|]. split; [done|].
        destruct rest as [|b rest]; [by left|].
        cbn [at_dollar] in Hd. destruct rest; [|done].
        right. unfold is_newline in Hd. apply Nat.eqb_eq in Hd.
        rewrite app_empty. unfold newline. rewrite <- Hd.
        by rewrite ascii_nat_embedding.
      * exists (String a pre), c. cbn [single_line]. rewrite Ha, Hp.
        split; [done|]. split; [done|]. rewrite !app_String.
        destruct Ht as [->| ->]; [by left|by right].
    + intros (pre & c & Hp & Hc & Ht). destruct pre as [|p pre].
      * left. rewrite !app_empty in Ht.
        destruct Ht as [[= -> ->]|[= -> ->]]; split; done.
      * right. rewrite !app_String in Ht. cbn [single_line] in Hp.
        apply andb_prop in Hp as [Hp1 Hp2].
        destruct Ht as [[= -> ->]|[= -> ->]]; (split; [done|]);
          exists pre, c; by auto.
Qed.

Lemma whitespace_errors_single ns f root :
  name f = "document.xml" → content f = WellFormed root →
  (validate_whitespace_preservation ns [f]).2
  = report f (filter (fun e => whitespace_violation ns e = true) (iter_tag t_tag root)).
Proof.
  intros Hn Hc. cbn [validate_whitespace_preservation snd flat_map].
  unfold whitespace_errors. by rewrite bool_decide_eq_true_2, Hc, app_nil_r by done.
Qed.

Lemma whitespace_reported ns f root s :
  name f = "document.xml" → content f = WellFormed root →
  Violation (path f) s ∈ (validate_whitespace_preservation ns [f]).2 ↔
  ∃ x, x ∈ iter root ∧ tag x = t_tag ∧ text x = Some s ∧
       attrib x !! xml_space_attr ns ≠ Some "preserve" ∧
       (match_leading s = true ∨ match_trailing s = true).
Proof.
  intros Hn Hc. rewrite (whitespace_errors_single ns f root Hn Hc).
  unfold report. rewrite list_elem_of_omap.
  setoid_rewrite list_elem_of_filter. unfold iter_tag.
  setoid_rewrite list_elem_of_filter. split.
  - intros (x & (Hv & Ht & Hx) & Hs). exists x.
    unfold whitespace_violation in Hv.
    destruct (text x) as [s'|] eqn:Htx; [|done]. injection Hs as ->.
    apply andb_prop in Hv as [[_ Hm]%andb_prop Hl%negb_true_iff%bool_decide_eq_false].
    apply orb_prop in Hm. done.
  - intros (x & Hx & Ht & Htx & Ha & Hm). exists x. split; [|by rewrite Htx].
    split; [|done]. unfold whitespace_violation. rewrite Htx.
    apply andb_true_intro. split; [apply andb_true_intro; split|].
    + apply negb_true_iff, bool_decide_eq_false. intros ->.
      by destruct Hm.
    + by apply orb_true_iff.
    + by apply negb_true_iff, bool_decide_eq_false.
Qed.

End WhitespaceFacts.

Module DocumentFacts.
Import DOCXSchemaValidator Documents.

Lemma flat_map_named {B} (g : PackageFile → list B) fs :
  (∀ f, name f ≠ "document.xml" → g f = []) →
  flat_map g (named_document_xml fs) = flat_map g fs.
Proof.
  intros Hg. unfold named_document_xml.
  induction fs as [|f fs IH]; [done|]. rewrite filter_cons.
  destruct (decide (name f = "document.xml")) as [Hn|Hn]; cbn [flat_map].
  - by rewrite IH.
  - by rewrite IH, (Hg f Hn).
Qed.

Lemma count_snoc fs f :
  count_paragraphs_in_unpacked (fs ++ [f])
  = default (count_paragraphs_in_unpacked fs) (paragraph_count f).
Proof.
  unfold count_paragraphs_in_unpacked, paragraph_count. rewrite foldl_app.
  cbn [foldl]. destruct (bool_decide _); [|done]. by destruct (content f).
Qed.

Lemma filter_sublist_mono {A} (P : A → Prop) `{∀ x, Decision (P x)} (l1 l2 : list A) :
  l1 `sublist_of` l2 → filter P l1 `sublist_of` filter P l2.
Proof.
  induction 1 as [|x l1 l2 _ IH|x l1 l2 _ IH]; [done| |]; rewrite ?filter_cons.
  - destruct (decide (P x)); [by apply sublist_skip|done].
  - destruct (decide (P x)); [by apply sublist_cons|done].
Qed.

Lemma omap_sublist_mono {A B} (g : A → option B) (l1 l2 : list A) :
  l1 `sublist_of` l2 → omap g l1 `sublist_of` omap g l2.
Proof.
  induction 1 as [|x l1 l2 _ IH|x l1 l2 _ IH]; [done| |]; cbn [omap list_omap].
  - destruct (g x); [by apply sublist_skip|done].
  - destruct (g x); [by apply sublist_cons|done].
Qed.

Lemma omap_length_le {A B} (g : A → option B) (l : list A) :
  length (omap g l) ≤ length l.
Proof.
  induction l as [|x l IH]; [done|]. cbn [omap list_omap].
  destruct (g x); cbn [length]; lia.
Qed.

Lemma select_sublist : ∀ e b,
  select_del_t b e `sublist_of` filter (fun x => tag x = t_tag) (descendants e).
Proof.
  induction e as [tg att tx tl cs IH] using Element_ind'. intros b.
  rewrite Deletions.select_eq, Projection.descendants_eq.
  induction IH as [|c cs Hc _ IHcs]; [done|].
  cbn [flat_map]. rewrite filter_app, filter_cons.
  apply sublist_app; [|done]. clear IHcs.
  destruct (decide (tag c = t_tag)) as [Ht|Ht].
  - rewrite (bool_decide_eq_true_2 _ Ht).
    destruct b; cbn [andb app]; [by apply sublist_skip|by apply sublist_cons].
  - rewrite (bool_decide_eq_false_2 _ Ht), andb_false_r. cbn [app]. done.
Qed.

End DocumentFacts.
(** * The text inventory: facts *)

Module InventoryFacts.
Import Inventory.

(** *** Collecting shapes *)




(** *** The name of a placeholder type *)

Lemma split_nonempty sep s : split sep s ≠ [].
Proof.
  destruct s as [|c rest]; [done|]. cbn [split].
  destruct (bool_decide (c = sep)); [done|]. by destruct (split sep rest).
Qed.

Lemma split_absent sep s : occurs sep s = false → split sep s = [s].
Proof.
  induction s as [|c rest IH]; [done|]. cbn [occurs split].
  intros [Hc Hr]%orb_false_elim. by rewrite Hc, (IH Hr).
Qed.

(** Splitting at a separator splits what is before it and what is after
    it. *)
Lemma split_app sep pre s :
  split sep (pre +:+ String sep s) = split sep pre ++ split sep s.
Proof.
  induction pre as [|c pre IH].
  - change ("" +:+ String sep s) with (String sep s). cbn [split].
    by rewrite bool_decide_eq_true_2.
  - rewrite WhitespaceFacts.app_String. cbn [split]. rewrite IH.
    destruct (bool_decide (c = sep)); [done|].
    pose proof (split_nonempty sep pre). by destruct (split sep pre).
Qed.

(** The piece after the last separator. *)
Lemma last_split_app sep pre s :
  last (split sep (pre +:+ String sep s)) = last (split sep s).
Proof.
  rewrite split_app. pose proof (split_nonempty sep s) as Hn.
  destruct (split sep s) as [|p ps] using rev_ind; [done|].
  by rewrite app_assoc, !last_snoc.
Qed.

(** The piece before the first separator. *)
Lemma head_split_app sep s rest :
  occurs sep s = false → head (split sep (s +:+ String sep rest)) = Some s.
Proof. intros Hs. by rewrite split_app, (split_absent sep s Hs). Qed.

Lemma occurs_app c a b : occurs c (a +:+ b) = occurs c a || occurs c b.
Proof.
  induction a as [|x a IH]; [done|]. rewrite WhitespaceFacts.app_String. cbn [occurs].
  by rewrite IH, orb_assoc.
Qed.

Lemma last_single (x : string) : default "" (last [x]) = x.
Proof. done. Qed.

Lemma placeholder_name_plain name :
  occurs "." name = false → occurs " " name = false → placeholder_name name = name.
Proof.
  intros Hd Hs. unfold placeholder_name.
  rewrite (split_absent "." name Hd), last_single.
  by rewrite (split_absent " " name Hs).
Qed.

Lemma placeholder_name_value name rest :
  occurs "." name = false → occurs " " name = false → occurs "." rest = false →
  placeholder_name (name +:+ String " " rest) = name.
Proof.
  intros Hd Hs Hr. unfold placeholder_name.
  rewrite (split_absent "." (name +:+ String " " rest)).
  - by rewrite last_single, head_split_app.
  - rewrite occurs_app. cbn [occurs]. by rewrite Hd, Hr.
Qed.

Lemma placeholder_name_qualified pre s :
  placeholder_name (pre +:+ String "." s) = placeholder_name s.
Proof. unfold placeholder_name. by rewrite last_split_app. Qed.

(** *** Dictionaries *)



Lemma dict_get_absent {V} k (d : list (string * V)) :
  k ∉ map fst d → dict_get k d = None.
Proof.
  induction d as [|[k' v'] d IH]; [done|]. cbn [map fst dict_get].
  intros Hk. apply not_elem_of_cons in Hk as [Hk Hd].
  rewrite bool_decide_eq_false_2 by done. by apply IH.
Qed.







(** *** Sorting *)

Section Sorted.
Context {A : Type} (lt : A → A → bool).

Lemma insert_sorted_perm x l : insert_sorted lt x l ≡ₚ x :: l.
Proof.
  induction l as [|y l IH]; [done|]. cbn [insert_sorted].
  destruct (lt y x); [|done]. rewrite IH. apply Permutation_swap.
Qed.

Lemma sorted_perm l : sorted lt l ≡ₚ l.
Proof.
  induction l as [|x l IH]; [done|]. cbn [sorted foldr].
  fold (sorted lt l). by rewrite insert_sorted_perm, IH.
Qed.
End Sorted.

Lemma group_rows_perm : ∀ rest result row row_top,
  group_rows result row row_top rest ≡ₚ result ++ row ++ rest.
Proof.
  induction rest as [|s rest IH]; intros result row row_top; cbn [group_rows].
  - by rewrite sorted_perm, app_nil_r.
  - destruct (_ <=? _)%float; rewrite IH.
    + by rewrite <- !app_assoc.
    + rewrite sorted_perm. by rewrite <- !app_assoc.
Qed.

Lemma sort_perm shapes : sort_shapes_by_position shapes ≡ₚ shapes.
Proof.
  unfold sort_shapes_by_position. destruct shapes as [|s0 shapes]; [done|].
  cbv zeta. pose proof (sorted_perm by_top_left (s0 :: shapes)) as Hp.
  destruct (sorted by_top_left (s0 :: shapes)) as [|first rest].
  - by apply Permutation_nil_cons in Hp.
  - by rewrite group_rows_perm.
Qed.

End InventoryFacts.

Module ExtractFacts.
Import Inventory InventoryFacts.

Section Extract.
Variable round : float → Z → float.








End Extract.

End ExtractFacts.

Module FloatFacts.
Import FloatRank.

Ltac rank_case :=
  split_and!; split; intros ?;
  try match goal with
      | H : (_, _, _) = (_, _, _) |- _ => injection H; intros
      end;
  rewrite <- ?Pos2Z.opp_pos in *;
  first [done | lia | congruence].

Lemma compare_rank a b :
  not_nan a → not_nan b →
  (SFcompare a b = Some Lt ↔ below (rank a) (rank b))
  ∧ (SFcompare a b = Some Eq ↔ rank a = rank b)
  ∧ (SFcompare a b = Some Gt ↔ below (rank b) (rank a)).
Proof.
  unfold not_nan, below. intros Ha Hb.
  destruct a as [sa|sa| |sa ma ea], b as [sb|sb| |sb mb eb]; try done;
    try destruct sa; try destruct sb; cbn [SFcompare rank fst snd];
    try rank_case.
  - change (Pos.compare_cont Eq ma mb) with (Pos.compare ma mb).
    destruct (Z.compare_spec ea eb), (Pos.compare_spec ma mb); cbn [CompOpp];
      rank_case.
  - change (Pos.compare_cont Eq ma mb) with (Pos.compare ma mb).
    destruct (Z.compare_spec ea eb), (Pos.compare_spec ma mb); cbn [CompOpp];
      rank_case.
Qed.

Lemma compare_nan_l b : SFcompare S754_nan b = None.
Proof. done. Qed.

Lemma compare_nan_r a : SFcompare a S754_nan = None.
Proof. by destruct a as [[]|[]| |[]]. Qed.

Lemma nan_or_not f : f = S754_nan ∨ not_nan f.
Proof. destruct f; [by right|by right|by left|by right]. Qed.

Lemma defined_not_nan x : defined x ↔ not_nan (Prim2SF x).
Proof.
  unfold defined, not_nan. rewrite FloatAxioms.eqb_spec. unfold SFeqb.
  destruct (Prim2SF x) as [[]|[]| |[] m e] eqn:Hx; cbn [SFcompare]; try done.
  - by rewrite Z.compare_refl, Pos.compare_cont_refl.
  - by rewrite Z.compare_refl, Pos.compare_cont_refl.
Qed.

Lemma ltb_rank x y :
  (x <? y)%float = true ↔ defined x ∧ defined y ∧ below (frank x) (frank y).
Proof.
  rewrite ltb_spec, !defined_not_nan. unfold SFltb, frank.
  destruct (nan_or_not (Prim2SF x)) as [Hx|Hx].
  { rewrite Hx, compare_nan_l. unfold not_nan. naive_solver. }
  destruct (nan_or_not (Prim2SF y)) as [Hy|Hy].
  { rewrite Hy, compare_nan_r. unfold not_nan. naive_solver. }
  destruct (compare_rank _ _ Hx Hy) as (H1 & H2 & H3).
  destruct (SFcompare (Prim2SF x) (Prim2SF y)) as [[]|]; naive_solver.
Qed.

Lemma eqb_rank x y :
  (x =? y)%float = true ↔ defined x ∧ defined y ∧ frank x = frank y.
Proof.
  rewrite FloatAxioms.eqb_spec, !defined_not_nan. unfold SFeqb, frank.
  destruct (nan_or_not (Prim2SF x)) as [Hx|Hx].
  { rewrite Hx, compare_nan_l. unfold not_nan. naive_solver. }
  destruct (nan_or_not (Prim2SF y)) as [Hy|Hy].
  { rewrite Hy, compare_nan_r. unfold not_nan. naive_solver. }
  destruct (compare_rank _ _ Hx Hy) as (H1 & H2 & H3).
  destruct (SFcompare (Prim2SF x) (Prim2SF y)) as [[]|]; naive_solver.
Qed.

Lemma leb_rank x y :
  (x <=? y)%float = true ↔
  defined x ∧ defined y ∧ (below (frank x) (frank y) ∨ frank x = frank y).
Proof.
  rewrite leb_spec, !defined_not_nan. unfold SFleb, frank.
  destruct (nan_or_not (Prim2SF x)) as [Hx|Hx].
  { rewrite Hx, compare_nan_l. unfold not_nan. naive_solver. }
  destruct (nan_or_not (Prim2SF y)) as [Hy|Hy].
  { rewrite Hy, compare_nan_r. unfold not_nan. naive_solver. }
  destruct (compare_rank _ _ Hx Hy) as (H1 & H2 & H3).
  destruct (SFcompare (Prim2SF x) (Prim2SF y)) as [[]|]; naive_solver.
Qed.

(** The order of the ranks. *)
Lemma below_trans a b c : below a b → below b c → below a c.
Proof. unfold below. lia. Qed.

Lemma below_irrefl a : ¬ below a a.
Proof. unfold below. lia. Qed.

Lemma below_total a b : below a b ∨ a = b ∨ below b a.
Proof.
  destruct a as [[a1 a2] a3], b as [[b1 b2] b3]. unfold below. cbn [fst snd].
  destruct (Z.lt_total a1 b1) as [?|[?|?]]; [lia| |lia].
  destruct (Z.lt_total a2 b2) as [?|[?|?]]; [lia| |lia].
  destruct (Z.lt_total a3 b3) as [?|[?|?]]; [lia| |lia].
  right. left. congruence.
Qed.

(** Floats that are equal give the same distance to a third one. *)
Lemma abs_sub_eqb x y r :
  (x =? y)%float = true → abs (x - r) = abs (y - r).
Proof.
  rewrite FloatAxioms.eqb_spec. unfold SFeqb. intros Heq.
  apply Prim2SF_inj. rewrite !abs_spec, !sub_spec. unfold SF64sub.
  destruct (Prim2SF x) as [sx|sx| |sx mx ex] eqn:Hx,
           (Prim2SF y) as [sy|sy| |sy my ey] eqn:Hy;
    try destruct sx; try destruct sy; cbn [SFcompare] in Heq; try done.
  - by destruct (Prim2SF r) as [[]|[]| |[] m e].
  - by destruct (Prim2SF r) as [[]|[]| |[] m e].
  - change (Pos.compare_cont Eq mx my) with (Pos.compare mx my) in Heq.
    destruct (Z.compare_spec ex ey), (Pos.compare_spec mx my); try done.
    by subst.
  - change (Pos.compare_cont Eq mx my) with (Pos.compare mx my) in Heq.
    destruct (Z.compare_spec ex ey), (Pos.compare_spec mx my); try done.
    by subst.
Qed.

End FloatFacts.

Module SortFacts.
Import Inventory InventoryFacts FloatRank FloatFacts.

(** *** Insertion into a sorted list *)

Section Sorted.
Context {A : Type} (lt : A → A → bool) (P : A → Prop).
Hypothesis asym : ∀ x y, P x → P y → lt x y = true → lt y x = false.
Hypothesis trans : ∀ x y z, P x → P y → P z →
  lt y x = false → lt z y = false → lt z x = false.

Lemma insert_sorted_elem x l z : z ∈ insert_sorted lt x l ↔ z = x ∨ z ∈ l.
Proof.
  rewrite (insert_sorted_perm lt x l). by rewrite elem_of_cons.
Qed.

Lemma insert_sorted_sorted x l :
  P x → Forall P l → StronglySorted (not_after lt) l →
  StronglySorted (not_after lt) (insert_sorted lt x l).
Proof.
  intros Hx Hl Hs. induction Hs as [|y l Hs IH Hy]; cbn [insert_sorted].
  - repeat constructor.
  - apply Forall_cons in Hl as [Py Hl].
    destruct (lt y x) eqn:Hyx.
    + constructor; [by apply IH|]. apply Forall_forall. intros z Hz.
      apply insert_sorted_elem in Hz as [->|Hz].
      * unfold not_after. by apply asym.
      * rewrite Forall_forall in Hy. by apply Hy.
    + constructor; [by constructor|]. constructor; [done|].
      apply Forall_forall. intros z Hz. rewrite Forall_forall in Hy, Hl.
      unfold not_after. apply (trans x y z); try done; [by apply Hl|by apply Hy].
Qed.

Lemma sorted_sorted l : Forall P l → StronglySorted (not_after lt) (sorted lt l).
Proof.
  induction l as [|x l IH]; intros Hl; [constructor|].
  apply Forall_cons in Hl as [Hx Hl]. cbn [sorted foldr]. fold (sorted lt l).
  apply insert_sorted_sorted; [done| |by apply IH].
  apply Forall_forall. intros z Hz.
  rewrite (sorted_perm lt l) in Hz. rewrite Forall_forall in Hl. by apply Hl.
Qed.
End Sorted.

(** *** The two orders of the shapes *)

Lemma ordered_defined s :
  ordered s = true ↔ defined (ShapeData.top s) ∧ defined (ShapeData.left s).
Proof. unfold ordered, defined. by rewrite andb_true_iff. Qed.

Lemma ltb_false x y :
  defined x → defined y →
  (x <? y)%float = false ↔ below (frank y) (frank x) ∨ frank x = frank y.
Proof.
  intros Hx Hy. rewrite <- not_true_iff_false, ltb_rank.
  destruct (below_total (frank x) (frank y)) as [H|[H|H]].
  - split; [naive_solver|]. intros [H'|H'] _.
    + by apply (below_irrefl (frank x)), (below_trans _ (frank y)).
    + rewrite H' in H. by apply below_irrefl in H.
  - split; [by auto|]. intros _ (_ & _ & H'). rewrite H in H'.
    by apply below_irrefl in H'.
  - split; [by auto|]. intros _ (_ & _ & H').
    by apply (below_irrefl (frank x)), (below_trans _ (frank y)).
Qed.

Lemma eqb_false x y :
  defined x → defined y → (x =? y)%float = false ↔ frank x ≠ frank y.
Proof.
  intros Hx Hy. rewrite <- not_true_iff_false, eqb_rank. naive_solver.
Qed.

Lemma by_left_true a b :
  ordered a = true → ordered b = true →
  by_left a b = true ↔ below (left_rank a) (left_rank b).
Proof.
  intros [_ Ha]%ordered_defined [_ Hb]%ordered_defined.
  unfold by_left, left_rank. rewrite ltb_rank. naive_solver.
Qed.

Lemma by_left_false a b :
  ordered a = true → ordered b = true →
  by_left a b = false ↔ below (left_rank b) (left_rank a) ∨ left_rank a = left_rank b.
Proof.
  intros [_ Ha]%ordered_defined [_ Hb]%ordered_defined.
  unfold by_left, left_rank. by apply ltb_false.
Qed.

Lemma by_top_left_true a b :
  ordered a = true → ordered b = true →
  by_top_left a b = true ↔ below (top_rank a) (top_rank b) ∨ (top_rank a = top_rank b ∧ below (left_rank a) (left_rank b)).
Proof.
  intros [Hta Hla]%ordered_defined [Htb Hlb]%ordered_defined.
  unfold by_top_left, pair_lt, top_rank, left_rank. cbn [fst snd].
  destruct (ShapeData.top a =? ShapeData.top b)%float eqn:Ht.
  - apply eqb_rank in Ht as (_ & _ & Ht).
    destruct (ShapeData.left a =? ShapeData.left b)%float eqn:Hl.
    + apply eqb_rank in Hl as (_ & _ & Hl). split; [done|].
      rewrite Ht, Hl. intros [H|[_ H]]; by apply below_irrefl in H.
    + rewrite ltb_rank. split; [naive_solver|].
      intros [H|[_ H]]; [|done]. rewrite Ht in H. by apply below_irrefl in H.
  - apply eqb_false in Ht; [|done|done]. rewrite ltb_rank. naive_solver.
Qed.

Lemma by_top_left_false a b :
  ordered a = true → ordered b = true →
  by_top_left a b = false ↔
  below (top_rank b) (top_rank a) ∨ (top_rank a = top_rank b ∧ (below (left_rank b) (left_rank a) ∨ left_rank a = left_rank b)).
Proof.
  intros Ha Hb. rewrite <- not_true_iff_false, (by_top_left_true a b Ha Hb).
  destruct (below_total (top_rank a) (top_rank b)) as [H|[H|H]];
    destruct (below_total (left_rank a) (left_rank b)) as [H'|[H'|H']].
  all: split; [intros Hn|intros Hp Hq].
  all: try (exfalso; apply Hn; by auto).
  all: try (left; done).
  all: try (right; by auto).
  all: destruct Hp as [Hp|[Hp1 Hp]]; destruct Hq as [Hq|[Hq1 Hq]].
  all: try (rewrite ?Hp1, ?Hq1, ?H in *; by eapply below_irrefl).
  all: try by (eapply below_irrefl, below_trans; eauto).
  all: try (destruct Hp as [Hp|Hp]; rewrite ?Hp in *;
            first [by eapply below_irrefl
                  |by (eapply below_irrefl, below_trans; eauto)]).
Qed.

End SortFacts.

Module RowFacts.
Import Inventory InventoryFacts FloatRank FloatFacts SortFacts.

Lemma StronglySorted_weaken {A} (R1 R2 : A → A → Prop) (P : A → Prop) l :
  (∀ x y, P x → P y → R1 x y → R2 x y) → Forall P l →
  StronglySorted R1 l → StronglySorted R2 l.
Proof.
  intros HR Hl Hs. induction Hs as [|x l Hs IH Hx]; [constructor|].
  apply Forall_cons in Hl as [Px Hl]. constructor; [by apply IH|].
  rewrite Forall_forall in Hx, Hl. apply Forall_forall. intros y Hy.
  apply HR; [done|by apply Hl|by apply Hx].
Qed.

Lemma by_left_asym x y :
  ordered x = true → ordered y = true → by_left x y = true → by_left y x = false.
Proof.
  intros Hx Hy H. apply (by_left_true x y Hx Hy) in H.
  apply (by_left_false y x Hy Hx). by left.
Qed.

Lemma by_left_trans x y z :
  ordered x = true → ordered y = true → ordered z = true →
  by_left y x = false → by_left z y = false → by_left z x = false.
Proof.
  intros Hx Hy Hz H1 H2.
  apply (by_left_false y x Hy Hx) in H1. apply (by_left_false z y Hz Hy) in H2.
  apply (by_left_false z x Hz Hx).
  destruct H1 as [H1|H1], H2 as [H2|H2].
  - left. by eapply below_trans.
  - left. by rewrite H2.
  - left. by rewrite <- H1.
  - right. congruence.
Qed.

Lemma by_top_left_asym x y :
  ordered x = true → ordered y = true →
  by_top_left x y = true → by_top_left y x = false.
Proof.
  intros Hx Hy H. apply (by_top_left_true x y Hx Hy) in H.
  apply (by_top_left_false y x Hy Hx). destruct H as [H|[H1 H2]]; [by left|].
  right. by auto.
Qed.

Lemma by_top_left_trans x y z :
  ordered x = true → ordered y = true → ordered z = true →
  by_top_left y x = false → by_top_left z y = false → by_top_left z x = false.
Proof.
  intros Hx Hy Hz H1 H2.
  apply (by_top_left_false y x Hy Hx) in H1.
  apply (by_top_left_false z y Hz Hy) in H2.
  apply (by_top_left_false z x Hz Hx).
  destruct H1 as [H1|[H1 H1']], H2 as [H2|[H2 H2']].
  - left. by eapply below_trans.
  - left. by rewrite H2.
  - left. by rewrite <- H1.
  - right. split; [congruence|].
    destruct H1' as [H1'|H1'], H2' as [H2'|H2'].
    + left. by eapply below_trans.
    + left. by rewrite H2'.
    + left. by rewrite <- H1'.
    + right. congruence.
Qed.

Lemma sorted_by_left l :
  Forall (fun s => ordered s = true) l →
  StronglySorted left_to_right (sorted by_left l).
Proof.
  intros Hl.
  apply (StronglySorted_weaken (not_after by_left) _ (fun s => ordered s = true)).
  - intros x y Hx Hy H. unfold not_after in H.
    apply (by_left_false y x Hy Hx) in H.
    apply ordered_defined in Hx as [_ Hx]. apply ordered_defined in Hy as [_ Hy].
    unfold left_to_right. apply leb_rank. unfold left_rank in H.
    split; [done|]. split; [done|]. destruct H as [H|H]; by auto.
  - apply Forall_forall. intros z Hz. rewrite (sorted_perm by_left l) in Hz.
    rewrite Forall_forall in Hl. by apply Hl.
  - apply (sorted_sorted by_left (fun s => ordered s = true));
      [apply by_left_asym|apply by_left_trans|done].
Qed.

Lemma sorted_by_top_left l :
  Forall (fun s => ordered s = true) l →
  StronglySorted may_precede (sorted by_top_left l).
Proof.
  intros Hl.
  apply (StronglySorted_weaken (not_after by_top_left) _ (fun s => ordered s = true)).
  - intros x y Hx Hy H. unfold not_after in H.
    apply (by_top_left_false y x Hy Hx) in H.
    apply ordered_defined in Hx as [Hx1 Hx2]. apply ordered_defined in Hy as [Hy1 Hy2].
    unfold may_precede. unfold top_rank, left_rank in H. destruct H as [H|[_ H]].
    + right. by apply ltb_rank.
    + left. apply leb_rank. split; [done|]. split; [done|].
      destruct H as [H|H]; by auto.
  - apply Forall_forall. intros z Hz. rewrite (sorted_perm by_top_left l) in Hz.
    rewrite Forall_forall in Hl. by apply Hl.
  - apply (sorted_sorted by_top_left (fun s => ordered s = true));
      [apply by_top_left_asym|apply by_top_left_trans|done].
Qed.

Lemma left_to_right_may_precede l :
  StronglySorted left_to_right l → StronglySorted may_precede l.
Proof.
  apply (StronglySorted_weaken _ _ (fun _ => True)); [|by apply Forall_true].
  intros x y _ _ H. by left.
Qed.

Lemma group_rows_order : ∀ rest result row row_top,
  Forall (fun s => ordered s = true) row →
  StronglySorted may_precede result →
  (∀ x y, x ∈ result → y ∈ row ++ rest → may_precede x y) →
  (∀ x y, x ∈ row → y ∈ rest → may_precede x y) →
  StronglySorted may_precede rest →
  Forall (fun s => ordered s = true) rest →
  StronglySorted may_precede (group_rows result row row_top rest).
Proof.
  assert (Hflush : ∀ result row (rest : list ShapeData.t),
    Forall (fun s => ordered s = true) row →
    StronglySorted may_precede result →
    (∀ x y, x ∈ result → y ∈ row ++ rest → may_precede x y) →
    StronglySorted may_precede (result ++ sorted by_left row)).
  { intros result row rest Hrow Hres Hcross. apply StronglySorted_app_2.
    - intros x y Hx Hy. apply Hcross; [done|].
      rewrite (sorted_perm by_left row) in Hy. apply elem_of_app. by left.
    - done.
    - by apply left_to_right_may_precede, sorted_by_left. }
  induction rest as [|s rest IH]; intros result row row_top Hrow Hres Hc1 Hc2 Hrest Hord;
    cbn [group_rows].
  - by apply (Hflush result row []).
  - apply StronglySorted_inv in Hrest as [Hrest Hs].
    apply Forall_cons in Hord as [Hso Hord]. rewrite Forall_forall in Hs.
    destruct (_ <=? _)%float.
    + apply IH; try done.
      * apply Forall_app. split; [done|]. by repeat constructor.
      * intros x y Hx Hy. apply Hc1; [done|].
        rewrite <- app_assoc in Hy. done.
      * intros x y [Hx|Hx%list_elem_of_singleton]%elem_of_app Hy.
        -- apply Hc2; [done|]. by right.
        -- subst x. by apply Hs.
    + apply IH; try done.
      * by repeat constructor.
      * by apply (Hflush result row (s :: rest)).
      * intros x y [Hx|Hx]%elem_of_app Hy.
        -- apply Hc1; [done|]. apply elem_of_app. by right.
        -- rewrite (sorted_perm by_left row) in Hx. by apply Hc2.
      * intros x y Hx%list_elem_of_singleton Hy. subst x. by apply Hs.
Qed.

Lemma group_rows_one_row : ∀ rest result row row_top,
  (∀ y, y ∈ rest → (abs (ShapeData.top y - row_top) <=? 0.5)%float = true) →
  group_rows result row row_top rest = result ++ sorted by_left (row ++ rest).
Proof.
  induction rest as [|s rest IH]; intros result row row_top Hrow; cbn [group_rows].
  - by rewrite app_nil_r.
  - rewrite (Hrow s) by left. rewrite IH.
    + by rewrite <- app_assoc.
    + intros y Hy. apply Hrow. by right.
Qed.

End RowFacts.

Module StableFacts.
Import Inventory InventoryFacts FloatRank FloatFacts SortFacts RowFacts.

Section Stable.
Context {A : Type} (lt : A → A → bool) (P : A → Prop).
Hypothesis asym : ∀ x y, P x → P y → lt x y = true → lt y x = false.
Hypothesis trans : ∀ x y z, P x → P y → P z →
  lt y x = false → lt z y = false → lt z x = false.

Lemma irrefl x : P x → lt x x = false.
Proof.
  intros Hx. destruct (lt x x) eqn:H; [|done]. by rewrite (asym x x Hx Hx H) in H.
Qed.

Lemma tied_refl x : P x → tied lt x x = true.
Proof. intros Hx. unfold tied. by rewrite irrefl. Qed.

(** An element that is tied with [x] is not smaller than an element that
    is tied with [x]. *)
Lemma tied_not_lt x y z :
  P x → P y → P z → tied lt x y = true → tied lt x z = true → lt z y = false.
Proof.
  unfold tied. intros Hx Hy Hz [H1 H2]%andb_prop [H3 H4]%andb_prop.
  apply negb_true_iff in H1, H2, H3, H4.
  by apply (trans y x z).
Qed.

(** Insertion keeps the elements that are tied in their order. *)
Lemma insert_sorted_stable x y l :
  P x → P y → Forall P l →
  filter (fun z => tied lt x z = true) (insert_sorted lt y l)
  = filter (fun z => tied lt x z = true) (y :: l).
Proof.
  intros Hx Hy Hl. induction l as [|z l IH]; [done|].
  apply Forall_cons in Hl as [Hz Hl]. cbn [insert_sorted].
  destruct (lt z y) eqn:Hzy; [|done].
  rewrite filter_cons, (IH Hl), !filter_cons.
  destruct (decide (tied lt x z = true)) as [Htz|Htz]; [|done].
  destruct (decide (tied lt x y = true)) as [Hty|Hty]; [|done].
  by rewrite (tied_not_lt x y z Hx Hy Hz Hty Htz) in Hzy.
Qed.

Lemma sorted_stable x l :
  P x → Forall P l →
  filter (fun z => tied lt x z = true) (sorted lt l)
  = filter (fun z => tied lt x z = true) l.
Proof.
  intros Hx Hl. induction l as [|y l IH]; [done|].
  apply Forall_cons in Hl as [Hy Hl]. cbn [sorted foldr]. fold (sorted lt l).
  rewrite insert_sorted_stable; [|done|done|].
  - by rewrite !filter_cons, (IH Hl).
  - apply Forall_forall. intros z Hz. rewrite (sorted_perm lt l) in Hz.
    rewrite Forall_forall in Hl. by apply Hl.
Qed.

(** Two sorted lists with the same elements, tied elements in the same
    order, are the same list. *)
Lemma sorted_unique : ∀ s1 s2,
  Forall P s1 → Forall P s2 →
  StronglySorted (not_after lt) s1 → StronglySorted (not_after lt) s2 →
  (∀ x, P x → filter (fun z => tied lt x z = true) s1
             = filter (fun z => tied lt x z = true) s2) →
  s1 = s2.
Proof.
  induction s1 as [|a s1 IH]; intros s2 H1 H2 Hs1 Hs2 Hf.
  - destruct s2 as [|b s2]; [done|]. exfalso.
    apply Forall_cons in H2 as [Hb _]. specialize (Hf b Hb).
    rewrite filter_nil, filter_cons, decide_True in Hf by by apply tied_refl.
    done.
  - apply Forall_cons in H1 as [Ha H1].
    destruct s2 as [|b s2].
    { exfalso. specialize (Hf a Ha).
      rewrite filter_nil, filter_cons, decide_True in Hf by by apply tied_refl.
      done. }
    apply Forall_cons in H2 as [Hb H2].
    apply StronglySorted_inv in Hs1 as [Hs1 Ha1].
    apply StronglySorted_inv in Hs2 as [Hs2 Hb2].
    rewrite Forall_forall in Ha1, Hb2.
    assert (Hab : lt b a = false).
    { (* [b] is in the first list *)
      pose proof (Hf b Hb) as Hfb.
      rewrite (filter_cons _ b), decide_True in Hfb by by apply tied_refl.
      assert (Hin : b ∈ filter (fun z => tied lt b z = true) (a :: s1)).
      { rewrite Hfb. left. }
      apply list_elem_of_filter in Hin as [_ Hin].
      apply elem_of_cons in Hin as [->|Hin]; [by apply irrefl|].
      by apply Ha1. }
    assert (Hba : lt a b = false).
    { pose proof (Hf a Ha) as Hfa.
      rewrite (filter_cons _ a), decide_True in Hfa by by apply tied_refl.
      assert (Hin : a ∈ filter (fun z => tied lt a z = true) (b :: s2)).
      { rewrite <- Hfa. left. }
      apply list_elem_of_filter in Hin as [_ Hin].
      apply elem_of_cons in Hin as [->|Hin]; [by apply irrefl|].
      by apply Hb2. }
    assert (a = b) as <-.
    { pose proof (Hf a Ha) as Hfa.
      rewrite (filter_cons _ a), decide_True in Hfa by by apply tied_refl.
      rewrite (filter_cons _ b), decide_True in Hfa.
      - by injection Hfa.
      - unfold tied. by rewrite Hab, Hba. }
    f_equal. apply IH; try done.
    intros x Hx. specialize (Hf x Hx). rewrite !filter_cons in Hf.
    destruct (decide (tied lt x a = true)); [by injection Hf|done].
Qed.

End Stable.

(** Shapes that are tied by top and left are tied by left. *)
Lemma tied_top_left_left a b :
  ordered a = true → ordered b = true →
  tied by_top_left a b = true → tied by_left a b = true.
Proof.
  intros Ha Hb. unfold tied. intros [H1 H2]%andb_prop.
  apply negb_true_iff in H1, H2.
  apply (by_top_left_false a b Ha Hb) in H1.
  apply (by_top_left_false b a Hb Ha) in H2.
  apply andb_true_intro. split; apply negb_true_iff.
  - apply (by_left_false a b Ha Hb).
    destruct H1 as [H1|[_ H1]]; [|done].
    destruct H2 as [H2|[H2 _]].
    + exfalso. by apply (below_irrefl (top_rank a)), (below_trans _ (top_rank b)).
    + exfalso. rewrite H2 in H1. by apply below_irrefl in H1.
  - apply (by_left_false b a Hb Ha).
    destruct H2 as [H2|[_ H2]]; [|done].
    destruct H1 as [H1|[H1 _]].
    + exfalso. by apply (below_irrefl (top_rank a)), (below_trans _ (top_rank b)).
    + exfalso. rewrite H1 in H2. by apply below_irrefl in H2.
Qed.

Lemma filter_tied_row x row :
  ordered x = true → Forall (fun s => ordered s = true) row →
  filter (fun z => tied by_top_left x z = true) (sorted by_left row)
  = filter (fun z => tied by_top_left x z = true) row.
Proof.
  intros Hx Hrow.
  assert (Hnarrow : ∀ l, Forall (fun s => ordered s = true) l →
    filter (fun z => tied by_top_left x z = true) l
    = filter (fun z => tied by_top_left x z = true)
        (filter (fun z => tied by_left x z = true) l)).
  { intros l Hl. induction l as [|z l IH]; [done|].
    apply Forall_cons in Hl as [Hz Hl]. rewrite !filter_cons.
    destruct (decide (tied by_top_left x z = true)) as [Ht|Ht].
    - rewrite decide_True by by apply tied_top_left_left.
      rewrite filter_cons, decide_True by done. by rewrite (IH Hl).
    - destruct (decide (tied by_left x z = true)); [|by apply IH].
      rewrite filter_cons, decide_False by done. by apply IH. }
  rewrite Hnarrow.
  - rewrite (sorted_stable by_left (fun s => ordered s = true)
               by_left_trans x row Hx Hrow).
    by rewrite <- Hnarrow.
  - apply Forall_forall. intros z Hz. rewrite (sorted_perm by_left row) in Hz.
    rewrite Forall_forall in Hrow. by apply Hrow.
Qed.

Lemma group_rows_stable x : ∀ rest result row row_top,
  ordered x = true →
  Forall (fun s => ordered s = true) row →
  Forall (fun s => ordered s = true) rest →
  filter (fun z => tied by_top_left x z = true) (group_rows result row row_top rest)
  = filter (fun z => tied by_top_left x z = true) (result ++ row ++ rest).
Proof.
  induction rest as [|s rest IH]; intros result row row_top Hx Hrow Hrest;
    cbn [group_rows].
  - by rewrite app_nil_r, !filter_app, filter_tied_row.
  - apply Forall_cons in Hrest as [Hs Hrest]. destruct (_ <=? _)%float.
    + rewrite IH; try done.
      * by rewrite <- !app_assoc.
      * apply Forall_app. split; [done|]. by repeat constructor.
    + rewrite IH; try done; [|by repeat constructor].
      rewrite <- !app_assoc, !filter_app, filter_tied_row by done.
      do 2 f_equal. by rewrite <- filter_app.
Qed.

Lemma sort_stable x shapes :
  ordered x = true → Forall (fun s => ordered s = true) shapes →
  filter (fun z => tied by_top_left x z = true) (sort_shapes_by_position shapes)
  = filter (fun z => tied by_top_left x z = true) shapes.
Proof.
  intros Hx Hord. unfold sort_shapes_by_position.
  destruct shapes as [|s0 shapes]; [done|]. cbv zeta.
  pose proof (sorted_stable by_top_left (fun s => ordered s = true)
                by_top_left_trans x (s0 :: shapes) Hx Hord) as Hst.
  assert (Ho : Forall (fun s => ordered s = true) (sorted by_top_left (s0 :: shapes))).
  { apply Forall_forall. intros z Hz. rewrite (sorted_perm by_top_left) in Hz.
    rewrite Forall_forall in Hord. by apply Hord. }
  destruct (sorted by_top_left (s0 :: shapes)) as [|first rest].
  - by rewrite <- Hst.
  - apply Forall_cons in Ho as [Hf Hr]. rewrite group_rows_stable; try done.
    by repeat constructor.
Qed.

Lemma sort_sorted_again shapes :
  Forall (fun s => ordered s = true) shapes →
  sorted by_top_left (sort_shapes_by_position shapes) = sorted by_top_left shapes.
Proof.
  intros Hord.
  assert (Ho : Forall (fun s => ordered s = true) (sort_shapes_by_position shapes)).
  { apply Forall_forall. intros z Hz. rewrite (sort_perm shapes) in Hz.
    rewrite Forall_forall in Hord. by apply Hord. }
  assert (Hall : ∀ l, Forall (fun s => ordered s = true) l →
            Forall (fun s => ordered s = true) (sorted by_top_left l)).
  { intros l Hl. apply Forall_forall. intros z Hz.
    rewrite (sorted_perm by_top_left l) in Hz. rewrite Forall_forall in Hl.
    by apply Hl. }
  apply (sorted_unique by_top_left (fun s => ordered s = true)
           by_top_left_asym).
  - by apply Hall.
  - by apply Hall.
  - by apply (sorted_sorted by_top_left (fun s => ordered s = true)
                by_top_left_asym by_top_left_trans).
  - by apply (sorted_sorted by_top_left (fun s => ordered s = true)
                by_top_left_asym by_top_left_trans).
  - intros x Hx.
    rewrite !(sorted_stable by_top_left (fun s => ordered s = true)
                by_top_left_trans) by done.
    by apply sort_stable.
Qed.

Lemma sort_idempotent shapes :
  Forall (fun s => ordered s = true) shapes →
  sort_shapes_by_position (sort_shapes_by_position shapes)
  = sort_shapes_by_position shapes.
Proof.
  intros Hord. pose proof (sort_sorted_again shapes Hord) as Hs.
  pose proof (sort_perm shapes) as Hp.
  destruct shapes as [|s0 shapes]; [done|].
  unfold sort_shapes_by_position at 1.
  destruct (sort_shapes_by_position (s0 :: shapes)) as [|o os] eqn:Ho.
  { by apply Permutation_nil_cons in Hp. }
  cbv zeta. rewrite Hs. rewrite <- Ho. unfold sort_shapes_by_position. done.
Qed.

End StableFacts.

Module TieFacts.
Import Inventory InventoryFacts FloatRank FloatFacts SortFacts RowFacts StableFacts.

Lemma tied_same_position a b :
  ordered a = true → ordered b = true →
  tied by_top_left a b = same_position a b.
Proof.
  intros Ha Hb. apply eq_true_iff_eq. unfold tied, same_position.
  rewrite !andb_true_iff, !negb_true_iff.
  rewrite (by_top_left_false a b Ha Hb), (by_top_left_false b a Hb Ha).
  rewrite !eqb_rank.
  apply ordered_defined in Ha as [Hta Hla]. apply ordered_defined in Hb as [Htb Hlb].
  fold (top_rank a) (top_rank b) (left_rank a) (left_rank b).
  split.
  - intros [[H1|[H1 H1']] [H2|[H2 H2']]].
    + exfalso. by apply (below_irrefl (top_rank a)), (below_trans _ (top_rank b)).
    + exfalso. rewrite H2 in H1. by apply below_irrefl in H1.
    + exfalso. rewrite H1 in H2. by apply below_irrefl in H2.
    + split; (split; [done|]); (split; [done|]); [done|].
      destruct H1' as [H1'|H1']; [|done]. destruct H2' as [H2'|H2']; [|done].
      exfalso. by apply (below_irrefl (left_rank a)), (below_trans _ (left_rank b)).
  - intros [(_ & _ & Ht) (_ & _ & Hl)]. split; right; split; by auto.
Qed.

Lemma filter_same_position x l :
  ordered x = true → Forall (fun s => ordered s = true) l →
  filter (fun z => same_position x z = true) l
  = filter (fun z => tied by_top_left x z = true) l.
Proof.
  intros Hx Hl. induction l as [|z l IH]; [done|].
  apply Forall_cons in Hl as [Hz Hl]. rewrite !filter_cons, (IH Hl).
  by rewrite (tied_same_position x z Hx Hz).
Qed.

End TieFacts.

Module InventoryContent.
Import Inventory InventoryFacts ExtractFacts.


Lemma keyed_keys es k :
  keyed es → k ∈ map fst (omap id es) → ∃ j, j < length es ∧ k = "slide-" +:+ pretty j.
Proof.
  intros Hk Hin. apply list_elem_of_fmap in Hin as (e & -> & He).
  apply list_elem_of_omap in He as (oe & Hoe & Hid). cbn in Hid. subst oe.
  apply list_elem_of_lookup in Hoe as [j Hj]. exists j.
  split; [by apply lookup_lt_Some in Hj|by apply Hk].
Qed.


Section Content.
Variable round : float → Z → float.






End Content.

End InventoryContent.
(** * Further properties of the validators *)


(** X2: after the resolver has run, no insertion by Claude is left below
    the root, whatever the nesting; the root itself is never removed and
    keeps its tag, attributes, text and tail, even where it is itself a
    marker by Claude. *)
Theorem no_insertion_by_Claude_is_left (e : Element) :
  ∃ r, Heap.run e = Some r ∧
       RedliningValidator.claude_ins_elements r = [] ∧
       tag r = tag e ∧ attrib r = attrib e ∧ text r = text e ∧ tail r = tail e.
Proof.
  exists (resolve e). rewrite Refinement.run_resolve.
  destruct (Survival.resolve_node e) as (H1 & H2 & H3 & H4).
  split_and!; try done.
  apply RemainingFacts.claude_ins_elements_nil. intros x Hx.
  eapply RemainingFacts.settled_no_ins; [apply Projection.settled_resolve|done].
Qed.

(** X3: a deletion by Claude is left below the root exactly when, outside
    the insertions by Claude, some deletion by Claude is a child of another
    one.  Without such a pair the resolved document holds no change by
    Claude, and running the resolver on it again changes nothing. *)
Theorem deletion_by_Claude_is_left_exactly_when_nested (e : Element) :
  ∃ r, Heap.run e = Some r ∧
       (RedliningValidator.claude_del_elements r = [] ↔
        Remaining.nested_deletion e = false) ∧
       (Remaining.nested_deletion e = false →
        RedliningValidator.no_claude_changes r = true ∧ Heap.run r = Some r).
Proof.
  exists (resolve e). rewrite Refinement.run_resolve.
  assert (Hd : RedliningValidator.claude_del_elements (resolve e) = [] ↔
               Remaining.nested_deletion e = false).
  { by rewrite RemainingFacts.claude_del_elements_nil,
      RemainingFacts.del_below_resolve. }
  split_and!; [done|done|]. intros Hn.
  assert (Hc : RedliningValidator.no_claude_changes (resolve e) = true).
  { unfold RedliningValidator.no_claude_changes.
    rewrite !bool_decide_eq_true_2; [done| |by apply Hd].
    apply RemainingFacts.claude_ins_elements_nil. intros x Hx.
    eapply RemainingFacts.settled_no_ins; [apply Projection.settled_resolve|done]. }
  split; [done|]. by apply run_unmarked.
Qed.


(** X5: comparing the joined texts is comparing the paragraph lists: two
    documents with at least one paragraph each, none of whose paragraph
    texts holds a line feed, have the same extracted text exactly when they
    have the same paragraphs, text by text. *)
Theorem equal_text_exactly_when_equal_paragraphs (a b : Element) :
  0 < length (paragraphs a) → 0 < length (paragraphs b) →
  Forall (fun s => DOCXSchemaValidator.single_line s = true) (paragraphs a) →
  Forall (fun s => DOCXSchemaValidator.single_line s = true) (paragraphs b) →
  _extract_text_content a = _extract_text_content b ↔ paragraphs a = paragraphs b.
Proof.
  intros Ha Hb Hla Hlb. split; [|apply extract_of_paragraphs].
  unfold _extract_text_content. intros Heq.
  apply JoinFacts.join_injective; try done.
  - intros H. rewrite H in Ha. cbn in Ha. lia.
  - intros H. rewrite H in Hb. cbn in Hb. lia.
Qed.

(** The original and the edit tracked in part differ in their one
    paragraph, and so in their text. *)
Lemma equal_text_exactly_when_equal_paragraphs_witness :
  _extract_text_content Sample.hello_world = _extract_text_content Sample.hello_there
  ↔ paragraphs Sample.hello_world = paragraphs Sample.hello_there.
Proof.
  apply (equal_text_exactly_when_equal_paragraphs Sample.hello_world Sample.hello_there).
  - vm_compute. lia.
  - vm_compute. lia.
  - vm_compute. repeat constructor.
  - vm_compute. repeat constructor.
Defined.

(** X6: the text that the validator compares can be read off the
    document as it is, without resolving it: the paragraphs of the resolved
    document are the [w:p] elements that lie in no insertion by Claude, and
    the text of each is made of the [w:t] texts and, inside deletions by
    Claude, the [w:delText] texts below it that lie in no insertion by
    Claude. *)
Theorem resolved_text_read_off_the_document (e : Element) :
  ∃ r, Heap.run e = Some r
       ∧ paragraphs r = Reverted.reverted_paragraphs false e
       ∧ _extract_text_content r
         = String.concat newline (Reverted.reverted_paragraphs false e).
Proof.
  exists (resolve e). rewrite Refinement.run_resolve.
  assert (H : paragraphs (resolve e) = Reverted.reverted_paragraphs false e).
  { unfold resolve.
    by rewrite Projection.paragraphs_resolved, RevertedFacts.rcollect_paragraphs. }
  split; [done|]. split; [done|]. unfold _extract_text_content. by rewrite H.
Qed.

(** X7: for a [document.xml] that parses, the whitespace check reports a
    text exactly when it is the text of some [w:t] (the root included)
    without [xml:space="preserve"], and the text starts with a white space
    character, or consists of characters other than line feeds, then one
    white space character, then nothing more or one last line feed. *)
Theorem whitespace_check_reports_exactly
    (ns : string) (f : PackageFile) (root : Element) (s : string) :
  name f = "document.xml" → content f = WellFormed root →
  Violation (path f) s ∈ (validate_whitespace_preservation ns [f]).2 ↔
  ∃ x, x ∈ iter root ∧ tag x = t_tag ∧ text x = Some s ∧
       attrib x !! xml_space_attr ns ≠ Some "preserve" ∧
       ((∃ c rest, s = String c rest ∧ is_space c = true) ∨
        (∃ pre c, single_line pre = true ∧ is_space c = true ∧
                  (s = pre +:+ String c "" ∨ s = pre +:+ String c newline))).
Proof.
  intros Hn Hc. rewrite (WhitespaceFacts.whitespace_reported ns f root s Hn Hc).
  assert (Hl : match_leading s = true ↔ ∃ c rest, s = String c rest ∧ is_space c = true).
  { destruct s as [|c rest]; cbn [match_leading].
    - split; [done|]. by intros (c & rest & [=] & _).
    - split; [by eauto|]. by intros (c' & rest' & [= -> ->] & H). }
  by setoid_rewrite Hl; setoid_rewrite WhitespaceFacts.match_trailing_shape.
Qed.

(** The run " hello" is reported. *)
Lemma whitespace_check_reports_exactly_witness :
  Violation "word/document.xml" " hello"
    ∈ (validate_whitespace_preservation Sample.xml_ns [Documents.spaced_file]).2 ↔
  ∃ x, x ∈ iter (Sample.document [[Sample.run_of " hello"]]) ∧
       tag x = t_tag ∧ text x = Some " hello" ∧
       attrib x !! xml_space_attr Sample.xml_ns ≠ Some "preserve" ∧
       ((∃ c rest, " hello" = String c rest ∧ is_space c = true) ∨
        (∃ pre c, single_line pre = true ∧ is_space c = true ∧
                  (" hello" = pre +:+ String c "" ∨ " hello" = pre +:+ String c newline))).
Proof.
  apply (whitespace_check_reports_exactly Sample.xml_ns Documents.spaced_file
           (Sample.document [[Sample.run_of " hello"]]) " hello");
    reflexivity.
Defined.

(** X8: the whitespace check never reports a text that has no white space
    at either end, and never a [w:t] that declares [xml:space="preserve"];
    a text without line feed is reported exactly when it starts or ends
    with white space and some [w:t] without the declaration holds it. *)
Theorem whitespace_check_reports_no_clean_text
    (ns : string) (f : PackageFile) (root : Element) :
  name f = "document.xml" → content f = WellFormed root →
  (∀ s, Violation (path f) s ∈ (validate_whitespace_preservation ns [f]).2 →
        match_leading s = true ∨ ends_with_space s = true)
  ∧ ((∀ x, x ∈ iter root → tag x = t_tag →
           attrib x !! xml_space_attr ns = Some "preserve") →
     validate_whitespace_preservation ns [f] = (true, []))
  ∧ (∀ s, single_line s = true →
       (Violation (path f) s ∈ (validate_whitespace_preservation ns [f]).2 ↔
        (match_leading s = true ∨ ends_with_space s = true) ∧
        ∃ x, x ∈ iter root ∧ tag x = t_tag ∧ text x = Some s ∧
             attrib x !! xml_space_attr ns ≠ Some "preserve")).
Proof.
  intros Hn Hc. split_and!.
  - intros s (x & _ & _ & _ & _ & [Hl|Ht])%(WhitespaceFacts.whitespace_reported ns f root s Hn Hc).
    + by left.
    + right. by apply Whitespace.match_trailing_ends.
  - intros Hp. unfold validate_whitespace_preservation.
    change (flat_map (whitespace_errors ns) [f])
      with ((validate_whitespace_preservation ns [f]).2).
    rewrite (WhitespaceFacts.whitespace_errors_single ns f root Hn Hc).
    assert (filter (fun e => whitespace_violation ns e = true) (iter_tag t_tag root) = [])
      as ->; [|done].
    apply Projection.filter_nil_iff, Forall_forall. intros x Hx.
    unfold iter_tag in Hx. apply list_elem_of_filter in Hx as [Ht Hx].
    unfold whitespace_violation, lacks_preserve.
    rewrite (bool_decide_eq_true_2 _ (Hp x Hx Ht)).
    destruct (text x); [|done]. by rewrite andb_false_r.
  - intros s Hs. rewrite (WhitespaceFacts.whitespace_reported ns f root s Hn Hc).
    rewrite (Whitespace.match_trailing_single_line s Hs). naive_solver.
Qed.

(** The run " hello" starts with a space. *)
Lemma whitespace_check_reports_no_clean_text_witness :
  match_leading " hello" = true ∨ ends_with_space " hello" = true.
Proof.
  destruct (whitespace_check_reports_no_clean_text Sample.xml_ns Documents.spaced_file
              (Sample.document [[Sample.run_of " hello"]]) eq_refl eq_refl) as [H _].
  apply H. vm_compute. left.
Defined.

(** X9: the whitespace check, the deletion check and the paragraph count
    read the files named [document.xml] and no other file; both checks
    list the errors file after file, and pass on a list of files exactly
    when they pass on each part of it. *)
Theorem checks_read_the_files_named_document_xml
    (ns : string) (fs fs1 fs2 : list PackageFile) :
  validate_whitespace_preservation ns (Documents.named_document_xml fs)
  = validate_whitespace_preservation ns fs
  ∧ validate_deletions (Documents.named_document_xml fs) = validate_deletions fs
  ∧ count_paragraphs_in_unpacked (Documents.named_document_xml fs)
    = count_paragraphs_in_unpacked fs
  ∧ validate_whitespace_preservation ns (fs1 ++ fs2)
    = ((validate_whitespace_preservation ns fs1).1
       && (validate_whitespace_preservation ns fs2).1,
       (validate_whitespace_preservation ns fs1).2
       ++ (validate_whitespace_preservation ns fs2).2)
  ∧ validate_deletions (fs1 ++ fs2)
    = ((validate_deletions fs1).1 && (validate_deletions fs2).1,
       (validate_deletions fs1).2 ++ (validate_deletions fs2).2).
Proof.
  split_and!.
  - unfold validate_whitespace_preservation.
    rewrite DocumentFacts.flat_map_named; [done|].
    intros f Hf. unfold whitespace_errors. by rewrite bool_decide_eq_false_2.
  - unfold validate_deletions.
    rewrite DocumentFacts.flat_map_named; [done|].
    intros f Hf. unfold deletion_errors. by rewrite bool_decide_eq_false_2.
  - unfold count_paragraphs_in_unpacked, Documents.named_document_xml.
    generalize 0. induction fs as [|f fs IH]; intros n; [done|].
    rewrite filter_cons. cbn [foldl].
    destruct (decide (name f = "document.xml")) as [H|H].
    + cbn [foldl]. by rewrite (bool_decide_eq_true_2 _ H), IH.
    + by rewrite (bool_decide_eq_false_2 _ H), IH.
  - unfold validate_whitespace_preservation. cbn [fst snd]. rewrite flat_map_app.
    by destruct (flat_map (whitespace_errors ns) fs1),
                (flat_map (whitespace_errors ns) fs2).
  - unfold validate_deletions. cbn [fst snd]. rewrite flat_map_app.
    by destruct (flat_map deletion_errors fs1), (flat_map deletion_errors fs2).
Qed.

(** X10: the paragraph count of the unpacked package is the count of the
    last [document.xml] that parses, not a sum over the files; it is zero
    when there is none. *)
Theorem paragraph_count_is_of_the_last_readable_document (fs : list PackageFile) :
  count_paragraphs_in_unpacked fs
  = default 0 (last (omap Documents.paragraph_count fs)).
Proof.
  induction fs as [|f fs IH] using rev_ind; [done|].
  rewrite DocumentFacts.count_snoc, omap_app, IH. cbn [omap list_omap].
  destruct (Documents.paragraph_count f) as [n|]; cbn [default].
  - by rewrite last_snoc.
  - by rewrite app_nil_r.
Qed.

(** X11: the deletion check reports a [w:t] once, however many [w:del]
    lie above it, and in document order: its errors are a subsequence of
    the texts of the [w:t] elements below the root, and they are no more
    than those elements. *)
Theorem deletion_check_reports_each_text_once (f : PackageFile) (root : Element) :
  name f = "document.xml" → content f = WellFormed root →
  (validate_deletions [f]).2
    `sublist_of` report f (filter (fun x => truthy (text x) = true) (findall t_tag root))
  ∧ length (validate_deletions [f]).2 ≤ length (findall t_tag root).
Proof.
  intros Hn Hc.
  assert (Herr : (validate_deletions [f]).2
                 = report f (filter (fun t_elem => truthy (text t_elem) = true)
                                    (xpath_del_t root))).
  { cbn [validate_deletions snd flat_map]. unfold deletion_errors.
    by rewrite bool_decide_eq_true_2, Hc, app_nil_r by done. }
  assert (Hsub : filter (fun x => truthy (text x) = true) (xpath_del_t root)
                 `sublist_of` filter (fun x => truthy (text x) = true) (findall t_tag root)).
  { apply DocumentFacts.filter_sublist_mono, DocumentFacts.select_sublist. }
  rewrite Herr. split.
  - unfold report. by apply DocumentFacts.omap_sublist_mono.
  - unfold report. etrans; [apply DocumentFacts.omap_length_le|].
    etrans; [apply length_filter|].
    apply sublist_length, DocumentFacts.select_sublist.
Qed.

(** One [w:t] below one [w:del]: one error. *)
Lemma deletion_check_reports_each_text_once_witness :
  (validate_deletions [Sample.hello_deleted_file]).2
    `sublist_of` report Sample.hello_deleted_file
       (filter (fun x => truthy (text x) = true)
          (findall t_tag (Sample.document [[Sample.change "del" "Bob" [Sample.run_of "hello"]]])))
  ∧ length (validate_deletions [Sample.hello_deleted_file]).2
    ≤ length (findall t_tag (Sample.document [[Sample.change "del" "Bob" [Sample.run_of "hello"]]])).
Proof.
  apply (deletion_check_reports_each_text_once Sample.hello_deleted_file
           (Sample.document [[Sample.change "del" "Bob" [Sample.run_of "hello"]]]));
    reflexivity.
Defined.

(** * Properties of the text inventory *)

Import Inventory.



(** X14: the name of a placeholder type is found in both renderings of
    the type: for a name without dot and space, [name], [name (13)],
    [Enum.name] and [Enum.name (13)] all give the name. *)
Theorem placeholder_name_of_both_renderings (enum name value : string) :
  occurs "." name = false → occurs " " name = false → occurs "." value = false →
  placeholder_name name = name
  ∧ placeholder_name (name +:+ String " " value) = name
  ∧ placeholder_name (enum +:+ String "." name) = name
  ∧ placeholder_name (enum +:+ String "." (name +:+ String " " value)) = name.
Proof.
  intros Hd Hs Hv. split_and!.
  - by apply InventoryFacts.placeholder_name_plain.
  - by apply InventoryFacts.placeholder_name_value.
  - rewrite InventoryFacts.placeholder_name_qualified.
    by apply InventoryFacts.placeholder_name_plain.
  - rewrite InventoryFacts.placeholder_name_qualified.
    by apply InventoryFacts.placeholder_name_value.
Qed.

(** The four renderings of the slide number type. *)
Lemma placeholder_name_of_both_renderings_witness :
  placeholder_name "SLIDE_NUMBER" = "SLIDE_NUMBER"
  ∧ placeholder_name "SLIDE_NUMBER (13)" = "SLIDE_NUMBER"
  ∧ placeholder_name "PP_PLACEHOLDER.SLIDE_NUMBER" = "SLIDE_NUMBER"
  ∧ placeholder_name "PP_PLACEHOLDER.SLIDE_NUMBER (13)" = "SLIDE_NUMBER".
Proof.
  apply (placeholder_name_of_both_renderings "PP_PLACEHOLDER" "SLIDE_NUMBER" "(13)");
    reflexivity.
Defined.

(** X15: sorting loses no shape and repeats none: the result of
    [sort_shapes_by_position] is a permutation of its argument. *)
Theorem sorting_permutes_the_shapes (shapes : list ShapeData.t) :
  sort_shapes_by_position shapes ≡ₚ shapes
  ∧ length (sort_shapes_by_position shapes) = length shapes.
Proof.
  split; [apply InventoryFacts.sort_perm|].
  apply Permutation_length, InventoryFacts.sort_perm.
Qed.

(** X16: in the sorted list a shape comes before another one only if it
    is not to the right of it or is above it: a shape that is to the left
    of another one and not below it is never put after it.  (Coordinates
    are taken not to be NaN.) *)
Theorem sorted_shapes_are_in_reading_order (shapes : list ShapeData.t) :
  Forall (fun s => ordered s = true) shapes →
  StronglySorted may_precede (sort_shapes_by_position shapes).
Proof.
  intros Hord. unfold sort_shapes_by_position.
  destruct shapes as [|s0 shapes]; [constructor|]. cbv zeta.
  pose proof (RowFacts.sorted_by_top_left (s0 :: shapes) Hord) as Hs.
  assert (Ho : Forall (fun s => ordered s = true) (sorted by_top_left (s0 :: shapes))).
  { apply Forall_forall. intros z Hz.
    rewrite (InventoryFacts.sorted_perm by_top_left) in Hz.
    rewrite Forall_forall in Hord. by apply Hord. }
  destruct (sorted by_top_left (s0 :: shapes)) as [|first rest]; [constructor|].
  apply StronglySorted_inv in Hs as [Hrest Hfirst].
  apply Forall_cons in Ho as [Ho1 Ho2]. rewrite Forall_forall in Hfirst.
  apply RowFacts.group_rows_order; try done.
  - by repeat constructor.
  - constructor.
  - intros x y Hx. by apply elem_of_nil in Hx.
  - intros x y Hx%list_elem_of_singleton Hy. subst x. by apply Hfirst.
Qed.

(** Three shapes, the first of them the highest and the rightmost. *)
Lemma sorted_shapes_are_in_reading_order_witness :
  StronglySorted may_precede
    (sort_shapes_by_position
       [Deck.at_position 5 0.5; Deck.at_position 1 2; Deck.at_position 1 0.75]).
Proof.
  apply (sorted_shapes_are_in_reading_order
           [Deck.at_position 5 0.5; Deck.at_position 1 2; Deck.at_position 1 0.75]).
  repeat constructor.
Defined.

(** X17: shapes that are pairwise at most half an inch apart vertically
    make one row: they come out from left to right, shapes with the same
    left in the order of their tops. *)
Theorem one_row_is_sorted_from_left_to_right (shapes : list ShapeData.t) :
  Forall (fun s => ordered s = true) shapes →
  (∀ a b, a ∈ shapes → b ∈ shapes → same_row a b = true) →
  sort_shapes_by_position shapes = sorted by_left (sorted by_top_left shapes)
  ∧ StronglySorted left_to_right (sort_shapes_by_position shapes).
Proof.
  intros Hord Hrow.
  assert (Heq : sort_shapes_by_position shapes
                = sorted by_left (sorted by_top_left shapes)).
  { unfold sort_shapes_by_position. destruct shapes as [|s0 shapes]; [done|].
    cbv zeta.
    pose proof (InventoryFacts.sorted_perm by_top_left (s0 :: shapes)) as Hp.
    destruct (sorted by_top_left (s0 :: shapes)) as [|first rest]; [done|].
    rewrite RowFacts.group_rows_one_row; [done|].
    intros y Hy. apply (Hrow y first); rewrite <- Hp; [by right|by left]. }
  split; [done|]. rewrite Heq. apply RowFacts.sorted_by_left.
  apply Forall_forall. intros z Hz.
  rewrite (InventoryFacts.sorted_perm by_top_left) in Hz.
  rewrite Forall_forall in Hord. by apply Hord.
Qed.

(** Three shapes whose tops are half an inch apart at most. *)
Lemma one_row_is_sorted_from_left_to_right_witness :
  sort_shapes_by_position
    [Deck.at_position 5 0.5; Deck.at_position 1 0.75; Deck.at_position 3 1]
  = sorted by_left
      (sorted by_top_left
         [Deck.at_position 5 0.5; Deck.at_position 1 0.75; Deck.at_position 3 1])
  ∧ StronglySorted left_to_right
      (sort_shapes_by_position
         [Deck.at_position 5 0.5; Deck.at_position 1 0.75; Deck.at_position 3 1]).
Proof.
  apply (one_row_is_sorted_from_left_to_right
           [Deck.at_position 5 0.5; Deck.at_position 1 0.75; Deck.at_position 3 1]).
  - repeat constructor.
  - intros a b Ha Hb.
    repeat (apply elem_of_cons in Ha as [->|Ha]);
      try (by apply elem_of_nil in Ha);
      repeat (apply elem_of_cons in Hb as [->|Hb]);
      try (by apply elem_of_nil in Hb); vm_compute; reflexivity.
Defined.

(** X18: sorting is stable and idempotent (coordinates not NaN): shapes
    with the same top and the same left keep the order in which they were
    given, and sorting a sorted list leaves it as it is. *)
Theorem sorting_is_stable_and_idempotent (shapes : list ShapeData.t) :
  Forall (fun s => ordered s = true) shapes →
  sort_shapes_by_position (sort_shapes_by_position shapes)
  = sort_shapes_by_position shapes
  ∧ ∀ x, ordered x = true →
      filter (fun z => same_position x z = true) (sort_shapes_by_position shapes)
      = filter (fun z => same_position x z = true) shapes.
Proof.
  intros Hord. split; [by apply StableFacts.sort_idempotent|].
  intros x Hx. rewrite !TieFacts.filter_same_position; try done.
  - by apply StableFacts.sort_stable.
  - apply Forall_forall. intros z Hz.
    rewrite (InventoryFacts.sort_perm shapes) in Hz.
    rewrite Forall_forall in Hord. by apply Hord.
Qed.

(** Four shapes in two rows, two of them at the same place. *)
Lemma sorting_is_stable_and_idempotent_witness :
  sort_shapes_by_position
    (sort_shapes_by_position
       [Deck.at_position 5 0.5; Deck.at_position 1 2; Deck.at_position 1 0.75;
        Deck.at_position 1 2])
  = sort_shapes_by_position
      [Deck.at_position 5 0.5; Deck.at_position 1 2; Deck.at_position 1 0.75;
       Deck.at_position 1 2].
Proof.
  apply (sorting_is_stable_and_idempotent
           [Deck.at_position 5 0.5; Deck.at_position 1 2; Deck.at_position 1 0.75;
            Deck.at_position 1 2]).
  repeat constructor.
Defined.



